(** * pyDeltaRCM water routing: a shallow embedding of [water_tools.py]

    The numpy arrays of the model are embedded as total functions on
    integer indices, the per-parcel vectors as lists, and the floating
    point numbers as exact rationals.  The square root, which has no
    rational counterpart, and the helpers of [shared_tools], which are not
    among the sources, are section variables.  Methods take the model
    object as a pair of records, the attributes they read and the
    attributes they assign, and return the latter; the routines that can
    raise return an option. *)

From Stdlib Require Import ZArith QArith Qminmax Qround Lia Lqa.
From stdpp Require Import base list numbers.

Open Scope Z_scope.

(** ** Numbers *)

(** Python's [a < b] on floats, as a boolean. *)
Definition Qltb (a b : Q) : bool := negb (Qle_bool b a).

(** [np.round] rounds half to even; [int] then truncates an integral float. *)
Definition np_round (q : Q) : Z :=
  let f := Qfloor q in
  let r := (q - inject_Z f)%Q in
  if Qltb r (1 # 2) then f
  else if Qltb (1 # 2) r then f + 1
  else if Z.even f then f else f + 1.

Fixpoint Qsum (l : list Q) : Q :=
  match l with
  | [] => 0%Q
  | x :: r => (x + Qsum r)%Q
  end.

(** [max] of a non-empty sequence, Python's builtin. *)
Fixpoint Qmaximum (x : Q) (l : list Q) : Q :=
  match l with
  | [] => x
  | y :: r => Qmaximum (if Qltb x y then y else x) r
  end.

Definition py_max (l : list Q) : Q :=
  match l with
  | [] => 0%Q
  | x :: r => Qmaximum x r
  end.

(** ** Arrays *)

(** A two-dimensional numpy array, read at row [i] and column [j]. *)
Definition grid (A : Type) : Type := Z -> Z -> A.

Definition grid_set {A} (g : grid A) (i j : Z) (v : A) : grid A :=
  fun i' j' => if (i' =? i) && (j' =? j) then v else g i' j'.

(** [a[mask] = b[mask]] for a boolean mask of the same shape. *)
Definition where_set {A} (mask : grid bool) (b a : grid A) : grid A :=
  fun i j => if mask i j then b i j else a i j.

(** [np.pad(a, 1, 'edge')] of an array of shape [(L, W)]: index [(i, j)] of
    the padded array reads the nearest cell of [a] to [(i - 1, j - 1)]. *)
Definition clamp (lo hi x : Z) : Z := Z.min hi (Z.max lo x).

Definition np_pad_edge {A} (L W : Z) (a : grid A) : grid A :=
  fun i j => a (clamp 0 (L - 1) (i - 1)) (clamp 0 (W - 1) (j - 1)).

(** The cells of an [(L, W)] array in row-major order, the order of
    [np.where] and of the nested [for i ... for j] loops. *)
Definition cells (L W : Z) : list (Z * Z) :=
  i ← seqZ 0 L; (fun j => (i, j)) <$> seqZ 0 W.

(** A one-dimensional view of an array with [Wd] columns ([a.flat[:]]), and
    [reshape] back to two dimensions. *)
Definition flat_of {A} (Wd : Z) (a : grid A) : Z -> A :=
  fun k => a (k / Wd) (k mod Wd).

Definition reshape {A} (Wd : Z) (f : Z -> A) : grid A :=
  fun i j => f (i * Wd + j).

Definition flat_upd {A} (f : Z -> A) (k : Z) (v : A) : Z -> A :=
  fun k' => if k' =? k then v else f k'.

(** Reading a vector of integers at a position known to be in range. *)
Definition getZ (l : list Z) (k : nat) : Z := default 0 (l !! k).

(** [a.shape[1]] of the path matrix, kept as the list of its rows; a
    matrix without a row is taken to have no column. *)
Definition ncols {A} (rows : list (list A)) : Z :=
  match rows with
  | [] => 0
  | r :: _ => Z.of_nat (length r)
  end.

(** [a[:, k] = col]; numpy raises when [k] is not a column of [a] or when
    [col] has not one entry for each row. *)
Definition set_column (rows : list (list Z)) (k : Z) (col : list Z)
  : option (list (list Z)) :=
  if (0 <=? k) && (k <? ncols rows) && (length col =? length rows)%nat
  then Some (zip_with (fun row v => <[Z.to_nat k := v]> row) rows col)
  else None.

(** ** Flattened indices *)

(** Modelled from the spec: [shared_tools.custom_unravel] and
    [shared_tools.custom_ravel] are not among the sources.  The spec calls
    a parcel position a flattened grid coordinate, and the model reads its
    arrays at such positions through numpy's [flat], which is row-major. *)
Definition custom_unravel (i : Z) (shape : Z * Z) : Z * Z :=
  (i / shape.2, i mod shape.2).

Definition custom_ravel (tup : Z * Z) (shape : Z * Z) : Z :=
  tup.1 * shape.2 + tup.2.

(** [len(_walk) != len(set(_walk))]. *)
Definition has_repeat_ind (_walk : list Z) : bool :=
  negb (length _walk =? length (remove_dups _walk))%nat.

(** ** The model object *)

(** The attributes of [self] that the water routines only read. *)
Record Config : Type := mkConfig {
  L : Z;
  W : Z;
  L0 : Z;
  CTR : Z;
  stepmax : Z;
  _Np_water : Z;
  eta : grid Q;
  cell_type : grid Z;
  inlet : list Z;
  iwalk_flat : list Z;
  jwalk_flat : list Z;
  ivec_flat : list Q;
  jvec_flat : list Q;
  distances_flat : list Q;
  Qp_water : Q;
  _dx : Q;
  _u0 : Q;
  h0 : Q;
  _H_SL : Q;
  _S0 : Q;
  dry_depth : Q;
  gamma : Q;
  _theta_water : Q;
  u_max : Q;
  qw0 : Q;
  _omega_sfc : Q;
  _omega_flow : Q;
  omega_flow_iter : Q;
  _Nsmooth : Z;
  _Csmooth : Q;
  _time_iter : Z
}.

(** The attributes that the water routines assign. *)
Record State : Type := mkState {
  stage : grid Q;
  depth : grid Q;
  qx : grid Q;
  qy : grid Q;
  qw : grid Q;
  qxn : grid Q;
  qyn : grid Q;
  qwn : grid Q;
  ux : grid Q;
  uy : grid Q;
  uw : grid Q;
  sfc_visit : grid Q;
  sfc_sum : grid Q;
  pad_stage : grid Q;
  pad_depth : grid Q;
  pad_cell_type : grid Z;
  water_weights : grid (list Q);
  free_surf_walk_indices : list (list Z);
  looped : list Z;
  free_surf_flag : list Z
}.

Definition set_stage (v : grid Q) (s : State) : State :=
  {|
     stage := v; depth := depth s; qx := qx s; qy := qy s; qw := qw s;
     qxn := qxn s; qyn := qyn s; qwn := qwn s; ux := ux s; uy := uy s;
     uw := uw s; sfc_visit := sfc_visit s; sfc_sum := sfc_sum s;
     pad_stage := pad_stage s; pad_depth := pad_depth s;
     pad_cell_type := pad_cell_type s; water_weights := water_weights s;
     free_surf_walk_indices := free_surf_walk_indices s;
     looped := looped s; free_surf_flag := free_surf_flag s
  |}.

Definition set_depth (v : grid Q) (s : State) : State :=
  {|
     stage := stage s; depth := v; qx := qx s; qy := qy s; qw := qw s;
     qxn := qxn s; qyn := qyn s; qwn := qwn s; ux := ux s; uy := uy s;
     uw := uw s; sfc_visit := sfc_visit s; sfc_sum := sfc_sum s;
     pad_stage := pad_stage s; pad_depth := pad_depth s;
     pad_cell_type := pad_cell_type s; water_weights := water_weights s;
     free_surf_walk_indices := free_surf_walk_indices s;
     looped := looped s; free_surf_flag := free_surf_flag s
  |}.

Definition set_qx (v : grid Q) (s : State) : State :=
  {|
     stage := stage s; depth := depth s; qx := v; qy := qy s; qw := qw s;
     qxn := qxn s; qyn := qyn s; qwn := qwn s; ux := ux s; uy := uy s;
     uw := uw s; sfc_visit := sfc_visit s; sfc_sum := sfc_sum s;
     pad_stage := pad_stage s; pad_depth := pad_depth s;
     pad_cell_type := pad_cell_type s; water_weights := water_weights s;
     free_surf_walk_indices := free_surf_walk_indices s;
     looped := looped s; free_surf_flag := free_surf_flag s
  |}.

Definition set_qy (v : grid Q) (s : State) : State :=
  {|
     stage := stage s; depth := depth s; qx := qx s; qy := v; qw := qw s;
     qxn := qxn s; qyn := qyn s; qwn := qwn s; ux := ux s; uy := uy s;
     uw := uw s; sfc_visit := sfc_visit s; sfc_sum := sfc_sum s;
     pad_stage := pad_stage s; pad_depth := pad_depth s;
     pad_cell_type := pad_cell_type s; water_weights := water_weights s;
     free_surf_walk_indices := free_surf_walk_indices s;
     looped := looped s; free_surf_flag := free_surf_flag s
  |}.

Definition set_qw (v : grid Q) (s : State) : State :=
  {|
     stage := stage s; depth := depth s; qx := qx s; qy := qy s; qw := v;
     qxn := qxn s; qyn := qyn s; qwn := qwn s; ux := ux s; uy := uy s;
     uw := uw s; sfc_visit := sfc_visit s; sfc_sum := sfc_sum s;
     pad_stage := pad_stage s; pad_depth := pad_depth s;
     pad_cell_type := pad_cell_type s; water_weights := water_weights s;
     free_surf_walk_indices := free_surf_walk_indices s;
     looped := looped s; free_surf_flag := free_surf_flag s
  |}.

Definition set_qxn (v : grid Q) (s : State) : State :=
  {|
     stage := stage s; depth := depth s; qx := qx s; qy := qy s;
     qw := qw s; qxn := v; qyn := qyn s; qwn := qwn s; ux := ux s;
     uy := uy s; uw := uw s; sfc_visit := sfc_visit s;
     sfc_sum := sfc_sum s; pad_stage := pad_stage s;
     pad_depth := pad_depth s; pad_cell_type := pad_cell_type s;
     water_weights := water_weights s;
     free_surf_walk_indices := free_surf_walk_indices s;
     looped := looped s; free_surf_flag := free_surf_flag s
  |}.

Definition set_qyn (v : grid Q) (s : State) : State :=
  {|
     stage := stage s; depth := depth s; qx := qx s; qy := qy s;
     qw := qw s; qxn := qxn s; qyn := v; qwn := qwn s; ux := ux s;
     uy := uy s; uw := uw s; sfc_visit := sfc_visit s;
     sfc_sum := sfc_sum s; pad_stage := pad_stage s;
     pad_depth := pad_depth s; pad_cell_type := pad_cell_type s;
     water_weights := water_weights s;
     free_surf_walk_indices := free_surf_walk_indices s;
     looped := looped s; free_surf_flag := free_surf_flag s
  |}.

Definition set_qwn (v : grid Q) (s : State) : State :=
  {|
     stage := stage s; depth := depth s; qx := qx s; qy := qy s;
     qw := qw s; qxn := qxn s; qyn := qyn s; qwn := v; ux := ux s;
     uy := uy s; uw := uw s; sfc_visit := sfc_visit s;
     sfc_sum := sfc_sum s; pad_stage := pad_stage s;
     pad_depth := pad_depth s; pad_cell_type := pad_cell_type s;
     water_weights := water_weights s;
     free_surf_walk_indices := free_surf_walk_indices s;
     looped := looped s; free_surf_flag := free_surf_flag s
  |}.

Definition set_ux (v : grid Q) (s : State) : State :=
  {|
     stage := stage s; depth := depth s; qx := qx s; qy := qy s;
     qw := qw s; qxn := qxn s; qyn := qyn s; qwn := qwn s; ux := v;
     uy := uy s; uw := uw s; sfc_visit := sfc_visit s;
     sfc_sum := sfc_sum s; pad_stage := pad_stage s;
     pad_depth := pad_depth s; pad_cell_type := pad_cell_type s;
     water_weights := water_weights s;
     free_surf_walk_indices := free_surf_walk_indices s;
     looped := looped s; free_surf_flag := free_surf_flag s
  |}.

Definition set_uy (v : grid Q) (s : State) : State :=
  {|
     stage := stage s; depth := depth s; qx := qx s; qy := qy s;
     qw := qw s; qxn := qxn s; qyn := qyn s; qwn := qwn s; ux := ux s;
     uy := v; uw := uw s; sfc_visit := sfc_visit s; sfc_sum := sfc_sum s;
     pad_stage := pad_stage s; pad_depth := pad_depth s;
     pad_cell_type := pad_cell_type s; water_weights := water_weights s;
     free_surf_walk_indices := free_surf_walk_indices s;
     looped := looped s; free_surf_flag := free_surf_flag s
  |}.

Definition set_uw (v : grid Q) (s : State) : State :=
  {|
     stage := stage s; depth := depth s; qx := qx s; qy := qy s;
     qw := qw s; qxn := qxn s; qyn := qyn s; qwn := qwn s; ux := ux s;
     uy := uy s; uw := v; sfc_visit := sfc_visit s; sfc_sum := sfc_sum s;
     pad_stage := pad_stage s; pad_depth := pad_depth s;
     pad_cell_type := pad_cell_type s; water_weights := water_weights s;
     free_surf_walk_indices := free_surf_walk_indices s;
     looped := looped s; free_surf_flag := free_surf_flag s
  |}.

Definition set_sfc_visit (v : grid Q) (s : State) : State :=
  {|
     stage := stage s; depth := depth s; qx := qx s; qy := qy s;
     qw := qw s; qxn := qxn s; qyn := qyn s; qwn := qwn s; ux := ux s;
     uy := uy s; uw := uw s; sfc_visit := v; sfc_sum := sfc_sum s;
     pad_stage := pad_stage s; pad_depth := pad_depth s;
     pad_cell_type := pad_cell_type s; water_weights := water_weights s;
     free_surf_walk_indices := free_surf_walk_indices s;
     looped := looped s; free_surf_flag := free_surf_flag s
  |}.

Definition set_sfc_sum (v : grid Q) (s : State) : State :=
  {|
     stage := stage s; depth := depth s; qx := qx s; qy := qy s;
     qw := qw s; qxn := qxn s; qyn := qyn s; qwn := qwn s; ux := ux s;
     uy := uy s; uw := uw s; sfc_visit := sfc_visit s; sfc_sum := v;
     pad_stage := pad_stage s; pad_depth := pad_depth s;
     pad_cell_type := pad_cell_type s; water_weights := water_weights s;
     free_surf_walk_indices := free_surf_walk_indices s;
     looped := looped s; free_surf_flag := free_surf_flag s
  |}.

Definition set_water_weights (v : grid (list Q)) (s : State) : State :=
  {|
     stage := stage s; depth := depth s; qx := qx s; qy := qy s;
     qw := qw s; qxn := qxn s; qyn := qyn s; qwn := qwn s; ux := ux s;
     uy := uy s; uw := uw s; sfc_visit := sfc_visit s;
     sfc_sum := sfc_sum s; pad_stage := pad_stage s;
     pad_depth := pad_depth s; pad_cell_type := pad_cell_type s;
     water_weights := v;
     free_surf_walk_indices := free_surf_walk_indices s;
     looped := looped s; free_surf_flag := free_surf_flag s
  |}.

Definition set_free_surf_walk_indices (v : list (list Z)) (s : State) : State :=
  {|
     stage := stage s; depth := depth s; qx := qx s; qy := qy s;
     qw := qw s; qxn := qxn s; qyn := qyn s; qwn := qwn s; ux := ux s;
     uy := uy s; uw := uw s; sfc_visit := sfc_visit s;
     sfc_sum := sfc_sum s; pad_stage := pad_stage s;
     pad_depth := pad_depth s; pad_cell_type := pad_cell_type s;
     water_weights := water_weights s; free_surf_walk_indices := v;
     looped := looped s; free_surf_flag := free_surf_flag s
  |}.

Definition set_looped (v : list Z) (s : State) : State :=
  {|
     stage := stage s; depth := depth s; qx := qx s; qy := qy s;
     qw := qw s; qxn := qxn s; qyn := qyn s; qwn := qwn s; ux := ux s;
     uy := uy s; uw := uw s; sfc_visit := sfc_visit s;
     sfc_sum := sfc_sum s; pad_stage := pad_stage s;
     pad_depth := pad_depth s; pad_cell_type := pad_cell_type s;
     water_weights := water_weights s;
     free_surf_walk_indices := free_surf_walk_indices s; looped := v;
     free_surf_flag := free_surf_flag s
  |}.

Definition set_free_surf_flag (v : list Z) (s : State) : State :=
  {|
     stage := stage s; depth := depth s; qx := qx s; qy := qy s;
     qw := qw s; qxn := qxn s; qyn := qyn s; qwn := qwn s; ux := ux s;
     uy := uy s; uw := uw s; sfc_visit := sfc_visit s;
     sfc_sum := sfc_sum s; pad_stage := pad_stage s;
     pad_depth := pad_depth s; pad_cell_type := pad_cell_type s;
     water_weights := water_weights s;
     free_surf_walk_indices := free_surf_walk_indices s;
     looped := looped s; free_surf_flag := v
  |}.

Section Water.

(** [np.sqrt] and [x ** 0.5]. *)
Variable np_sqrt : Q -> Q.

(** The helpers of [shared_tools] are not among the sources; they are
    parameters of the development.  The two that draw random numbers take
    and return the state of the generator. *)
Variable RNG : Type.
Variable random_pick : list Q -> RNG -> Z * RNG.
Variable get_start_indices : list Z -> list Z -> Z -> RNG -> list Z * RNG.
Variable get_steps :
  list Z -> list Z -> list Z -> list Q * list Z * list Z * list bool.
Variable get_weight_sfc_int :
  Q -> list Q -> Q -> Q -> list Q -> list Q -> list Q -> list Q * list Q.
Variable get_weight_at_cell :
  Z * Z -> list Q -> list Q -> list Q -> list Z -> Q -> Q -> Q -> list Q.

(** ** Flow and velocity fields *)

Definition update_flow_field (c : Config) (s : State) (iteration : Z) : State :=
  let dloc : grid Q :=
    fun i j => np_sqrt (qxn s i j ^ 2 + qyn s i j ^ 2)%Q in
  let pos : grid bool := fun i j => Qltb 0 (dloc i j) in
  let qwn_div : grid Q :=
    where_set pos (fun i j => qwn s i j / dloc i j)%Q (fun _ _ => 1%Q) in
  let s := set_qxn (fun i j => qxn s i j * qwn_div i j)%Q s in
  let s := set_qyn (fun i j => qyn s i j * qwn_div i j)%Q s in
  let s :=
    if _time_iter c >? 0 then
      let omega := if iteration =? 0 then _omega_flow c else omega_flow_iter c in
      let s' := set_qx (fun i j => qxn s i j * omega + qx s i j * (1 - omega))%Q s in
      set_qy (fun i j => qyn s i j * omega + qy s' i j * (1 - omega))%Q s'
    else
      set_qy (qyn s) (set_qx (qxn s) s) in
  let s := set_qw (fun i j => np_sqrt (qx s i j ^ 2 + qy s i j ^ 2)%Q) s in
  let at_inlet : grid bool :=
    fun i j => (i =? 0) && bool_decide (j ∈ inlet c) in
  let s := set_qx (where_set at_inlet (fun _ _ => qw0 c) (qx s)) s in
  let s := set_qy (where_set at_inlet (fun _ _ => 0%Q) (qy s)) s in
  set_qw (where_set at_inlet (fun _ _ => qw0 c) (qw s)) s.

Definition update_velocity_field (c : Config) (s : State) : State :=
  let mask : grid bool :=
    fun i j => Qltb (dry_depth c) (depth s i j) && Qltb 0 (qw s i j) in
  let nmask : grid bool := fun i j => negb (mask i j) in
  let zero : grid Q := fun _ _ => 0%Q in
  let s := set_uw (where_set mask
             (fun i j => Qmin (u_max c) (qw s i j / depth s i j)) (uw s)) s in
  let s := set_uw (where_set nmask zero (uw s)) s in
  let s := set_ux (where_set mask
             (fun i j => uw s i j * qx s i j / qw s i j)%Q (ux s)) s in
  let s := set_ux (where_set nmask zero (ux s)) s in
  let s := set_uy (where_set mask
             (fun i j => uw s i j * qy s i j / qw s i j)%Q (uy s)) s in
  set_uy (where_set nmask zero (uy s)) s.

Definition finalize_water_iteration (c : Config) (s : State) (iteration : Z)
  : State :=
  let s := set_stage (fun i j => Qmax (stage s i j) (_H_SL c)) s in
  let s := set_depth (fun i j => Qmax (stage s i j - eta c i j) 0) s in
  let s := update_flow_field c s iteration in
  update_velocity_field c s.


(** ** Neighbour arrays and the flooding correction *)

(** [wgt_array[k, r0:r1, c0:c1] = v]: a slice assignment into plane [k],
    with the right-hand side [v] read at the index of the destination. *)
Definition set_block (w : Z -> grid Q) (k r0 r1 c0 c1 : Z) (v : grid Q)
  : Z -> grid Q :=
  fun k' i j =>
    if (k' =? k) && (r0 <=? i) && (i <? r1) && (c0 <=? j) && (j <? c1)
    then v i j else w k' i j.

(** [wgt_array[k, :, dst] = wgt_array[k, :, src]] and
    [wgt_array[k, dst, :] = wgt_array[k, src, :]], the assignments that fix
    the edges. *)
Definition copy_column (La : Z) (k dst src : Z) (w : Z -> grid Q)
  : Z -> grid Q :=
  set_block w k 0 La dst (dst + 1) (fun i _ => w k i src).

Definition copy_row (Wa : Z) (k dst src : Z) (w : Z -> grid Q)
  : Z -> grid Q :=
  set_block w k dst (dst + 1) 0 Wa (fun _ j => w k src j).

(** [build_weight_array] for an array of shape [(La, Wa)]: plane [k] holds,
    at each cell, the value of the array at the neighbour in direction [k].
    The indices [-1] and [-2] of the source are [Wa - 1], [Wa - 2] (columns)
    and [La - 1], [La - 2] (rows); they exist when [2 <= La] and [2 <= Wa]. *)
Definition build_weight_array (La Wa : Z) (array : grid Q)
    (fix_edges normalize : bool) : Z -> grid Q :=
  let w : Z -> grid Q := fun _ _ _ => 0%Q in
  let w := set_block w 0 0 La 0 (Wa - 1) (fun i j => array i (j + 1)) in
  let w := set_block w 1 1 La 0 (Wa - 1) (fun i j => array (i - 1) (j + 1)) in
  let w := set_block w 2 1 La 0 Wa (fun i j => array (i - 1) j) in
  let w := set_block w 3 1 La 1 Wa (fun i j => array (i - 1) (j - 1)) in
  let w := set_block w 4 0 La 1 Wa (fun i j => array i (j - 1)) in
  let w := set_block w 5 0 (La - 1) 1 Wa (fun i j => array (i + 1) (j - 1)) in
  let w := set_block w 6 0 (La - 1) 0 Wa (fun i j => array (i + 1) j) in
  let w := set_block w 7 0 (La - 1) 0 (Wa - 1)
             (fun i j => array (i + 1) (j + 1)) in
  let w :=
    if fix_edges then
      let w := copy_column La 0 (Wa - 1) (Wa - 2) w in
      let w := copy_column La 1 (Wa - 1) (Wa - 2) w in
      let w := copy_column La 7 (Wa - 1) (Wa - 2) w in
      let w := copy_row Wa 1 0 1 w in
      let w := copy_row Wa 2 0 1 w in
      let w := copy_row Wa 3 0 1 w in
      let w := copy_column La 3 0 1 w in
      let w := copy_column La 4 0 1 w in
      let w := copy_column La 5 0 1 w in
      let w := copy_row Wa 5 (La - 1) (La - 2) w in
      let w := copy_row Wa 6 (La - 1) (La - 2) w in
      copy_row Wa 7 (La - 1) (La - 2) w
    else w in
  if normalize then
    fun k i j =>
      let a_sum := Qsum ((fun k' => w k' i j) <$> seqZ 0 8) in
      if Qeq_bool a_sum 0 then w k i j else (w k i j / a_sum)%Q
  else w.

(** The displacement from a cell to the neighbour whose value plane [k]
    of a weight array holds. *)
Definition nbr (k : Z) : Z * Z :=
  match k with
  | 0 => (0, 1)
  | 1 => (-1, 1)
  | 2 => (-1, 0)
  | 3 => (-1, -1)
  | 4 => (0, -1)
  | 5 => (1, -1)
  | 6 => (1, 0)
  | 7 => (1, 1)
  | _ => (0, 0)
  end.

Definition in_grid (c : Config) (i j : Z) : Prop :=
  0 <= i < L c /\ 0 <= j < W c.

Definition wet_mask (c : Config) (s : State) : grid bool :=
  fun i j => Qltb (dry_depth c) (depth s i j).

Definition get_wet_mask_nh (c : Config) (s : State) : Z -> grid Q :=
  let wet : grid Q := fun i j => if wet_mask c s i j then 1%Q else 0%Q in
  build_weight_array (L c) (W c) wet true false.

(** The eight values [wet_mask_nh[:, i, j] * stage_nhs[:, i, j]]. *)
Definition stage_nh (wet_mask_nh stage_nhs : Z -> grid Q) (i j : Z) : list Q :=
  (fun k => wet_mask_nh k i j * stage_nhs k i j)%Q <$> seqZ 0 8.

(** [np.where(wet_mask_nh_sum > 0)] after the sum of the wet cells has been
    set to zero. *)
Definition shore_ind (c : Config) (s : State) : list (Z * Z) :=
  let wet_mask_nh := get_wet_mask_nh c s in
  let wet_mask_nh_sum : grid Q :=
    fun i j => Qsum ((fun k => wet_mask_nh k i j) <$> seqZ 0 8) in
  let wet_mask_nh_sum :=
    where_set (wet_mask c s) (fun _ _ => 0%Q) wet_mask_nh_sum in
  List.filter (fun ij => Qltb 0 (wet_mask_nh_sum ij.1 ij.2)) (cells (L c) (W c)).

Definition flooding_correction (c : Config) (s : State) : State :=
  let wet_mask_nh := get_wet_mask_nh c s in
  let stage_nhs := build_weight_array (L c) (W c) (stage s) false false in
  fold_left
    (fun s ij =>
       let nh := stage_nh wet_mask_nh stage_nhs ij.1 ij.2 in
       if existsb (fun v => Qltb (eta c ij.1 ij.2) v) nh
       then set_stage (grid_set (stage s) ij.1 ij.2 (py_max nh)) s
       else s)
    (shore_ind c s) s.

(** A wet neighbour of the cell [(i, j)]: one of the eight adjacent cells,
    inside the grid, whose depth is above the dry depth. *)
Definition wet_neighbour (c : Config) (s : State) (i j : Z) (n : Z * Z) : Prop :=
  (exists k, 0 <= k < 8 /\ n = (i + (nbr k).1, j + (nbr k).2))
  /\ in_grid c n.1 n.2
  /\ (dry_depth c < depth s n.1 n.2)%Q.

(** ** Smoothing of the free surface *)

(** [a[i:i + 3, j:j + 3].ravel()], a copy of the 3 x 3 window. *)
Definition window {A} (a : grid A) (i j : Z) : list A :=
  p ← [0; 1; 2]; (fun q => a (i + p) (j + q)) <$> [0; 1; 2].

(** The body of the two inner loops of [_smooth_free_surface] at cell
    [(i, j)].  [Htemp], [Hsmth] and the argument [Hnew] are one array;
    [Hnew_ind] is first a view of [Hnew_pad], so that [Hnew_ind[1, 1] = 0]
    is a write to [Hnew_pad], and after [ravel] a copy of the window. *)
Definition smooth_cell (cell_type pad_cell_type : grid Z) (Csmooth : Q)
    (st : grid Q * grid Q) (ij : Z * Z) : grid Q * grid Q :=
  let '(Htemp, Hnew_pad) := st in
  let '(i, j) := ij in
  if cell_type i j >? -2 then
    let ct_ind := window pad_cell_type i j in
    let Hnew_pad := grid_set Hnew_pad (i + 1) (j + 1) 0%Q in
    let Hnew_ind := window Hnew_pad i j in
    let _log := (fun t => t =? -2) <$> ct_ind in
    let Hnew_ind :=
      zip_with (fun h (b : bool) => if b then 0%Q else h) Hnew_ind _log in
    let sumH := Qsum Hnew_ind in
    let nbcount := Z.of_nat (length (List.filter (Qltb 0) Hnew_ind)) in
    if nbcount >? 0 then
      (grid_set Htemp i j
         (Csmooth * Htemp i j + (1 - Csmooth) * sumH / inject_Z nbcount)%Q,
       Hnew_pad)
    else (Htemp, Hnew_pad)
  else st.

Definition smooth_pass (Ls Ws : Z) (cell_type pad_cell_type : grid Z)
    (Csmooth : Q) (st : grid Q * grid Q) : grid Q * grid Q :=
  fold_left (smooth_cell cell_type pad_cell_type Csmooth) (cells Ls Ws) st.

(** [Ls] and [Ws] are [cell_type.shape]. *)
Definition _smooth_free_surface (Ls Ws : Z) (Hnew Hnew_pad : grid Q)
    (cell_type pad_cell_type : grid Z) (Nsmooth : Z) (Csmooth : Q) : grid Q :=
  fst (Nat.iter (Z.to_nat Nsmooth)
         (smooth_pass Ls Ws cell_type pad_cell_type Csmooth)
         (Hnew, Hnew_pad)).

(** The padded array during the passes: each of its entries is the one
    of the array [Hpad0] the passes began with, or zero. *)
Definition faded (Hpad0 Hpad : grid Q) : Prop :=
  forall x y, Hpad x y = Hpad0 x y \/ Hpad x y = 0%Q.

(** The specification's reading of a smoothing pass: the unweighted mean of
    the neighbours of a cell that qualify, that is, of those of its eight
    neighbours in the edge-padded surface [H] that are not classified
    deep-wall ([-2]) and whose value is not zero. *)
Definition qualifying_neighbours (Ls Ws : Z) (H : grid Q) (cell_type : grid Z)
    (i j : Z) : list Q :=
  let Hp := np_pad_edge Ls Ws H in
  let ctp := np_pad_edge Ls Ws cell_type in
  List.filter (fun v => negb (Qeq_bool v 0))
    ((fun k => Hp (i + 1 + (nbr k).1) (j + 1 + (nbr k).2))
       <$> List.filter
             (fun k => negb (ctp (i + 1 + (nbr k).1) (j + 1 + (nbr k).2) =? -2))
             (seqZ 0 8)).

Definition neighbour_mean (Ls Ws : Z) (H : grid Q) (cell_type : grid Z)
    (i j : Z) : Q :=
  let l := qualifying_neighbours Ls Ws H cell_type i j in
  (Qsum l / inject_Z (Z.of_nat (length l)))%Q.

(** The array [Hsmth] that [finalize_free_surface] computes. *)
Definition smoothed_surface (c : Config) (s : State) : grid Q :=
  let Hnew : grid Q := fun i j => (eta c i j + depth s i j)%Q in
  let Hnew :=
    where_set (fun i j => Qltb (Hnew i j) (_H_SL c)) (fun _ _ => _H_SL c) Hnew in
  let Hnew :=
    where_set (fun i j => Qltb 0 (sfc_visit s i j))
      (fun i j => sfc_sum s i j / sfc_visit s i j)%Q Hnew in
  let Hnew_pad := np_pad_edge (L c) (W c) Hnew in
  _smooth_free_surface (L c) (W c) Hnew Hnew_pad (cell_type c)
    (pad_cell_type s) (_Nsmooth c) (_Csmooth c).

Definition finalize_free_surface (c : Config) (s : State) : State :=
  let Hsmth := smoothed_surface c s in
  let s :=
    if _time_iter c >? 0 then
      set_stage
        (fun i j => (1 - _omega_sfc c) * stage s i j + _omega_sfc c * Hsmth i j)%Q
        s
    else s in
  flooding_correction c s.


(** ** Routing of the water parcels *)

Fixpoint _choose_next_direction (inds : list Z) (water_weights : Z -> list Q)
    (g : RNG) : list Z * RNG :=
  match inds with
  | [] => ([], g)
  | ind :: inds' =>
      let '(d, g) :=
        if negb (ind =? 0) then random_pick (water_weights ind) g
        else (4, g) in
      let '(new_cells, g) := _choose_next_direction inds' water_weights g in
      (d :: new_cells, g)
  end.

Definition _calculate_new_ind (indices new_cells iwalk jwalk : list Z)
    (domain_shape : Z * Z) : list Z :=
  zip_with
    (fun p q =>
       if negb (q =? 4) then
         let ind_tuple := custom_unravel p domain_shape in
         let new_ind := (ind_tuple.1 + getZ jwalk (Z.to_nat q),
                         ind_tuple.2 + getZ iwalk (Z.to_nat q)) in
         custom_ravel new_ind domain_shape
       else 0)
    indices new_cells.

(** The index that a looping parcel at [new_ind] is sent to. *)
Definition deflect (new_ind L0 : Z) (domain_shape : Z * Z) (CTR : Z) : Z :=
  let domain_min_x := domain_shape.1 - 2 in
  let domain_min_y := domain_shape.2 - 2 in
  let '(px, py) := custom_unravel new_ind domain_shape in
  let Fx := px - 1 in
  let Fy := py - CTR in
  let Fw := np_sqrt (inject_Z (Fx ^ 2 + Fy ^ 2)) in
  let '(px, py) :=
    if negb (Qeq_bool Fw 0) then
      (px + np_round (inject_Z Fx / Fw * 5), py + np_round (inject_Z Fy / Fw * 5))
    else (px, py) in
  let px := Z.min domain_min_x (Z.max px L0) in
  let py := Z.min domain_min_y (Z.max 1 py) in
  custom_ravel (px, py) domain_shape.

(** The body of the loop over the parcels in [_check_for_loops]. *)
Definition check_parcel (free_surf_walk_indices : list (list Z)) (L0 : Z)
    (domain_shape : Z * Z) (CTR : Z) (st : list Z * list Z * list Z) (p : nat)
  : list Z * list Z * list Z :=
  let '(new_indices, looped, free_surf_flag) := st in
  let new_ind := getZ new_indices p in
  let walk := default [] (free_surf_walk_indices !! p) in
  let _walk := List.filter (fun x => 0 <? x) walk in
  if new_ind >? 0 then
    if has_repeat_ind _walk then
      (<[p := deflect new_ind L0 domain_shape CTR]> new_indices,
       <[p := getZ looped p + 1]> looped,
       <[p := -1]> free_surf_flag)
    else st
  else st.

(** The entries of parcel [p] in the three vectors that
    [_check_for_loops] updates, and what [check_parcel] does to them. *)
Definition entries (st : list Z * list Z * list Z) (p : nat)
  : option Z * option Z * option Z :=
  (st.1.1 !! p, st.1.2 !! p, st.2 !! p).

Definition positive_walk (free_surf_walk_indices : list (list Z)) (p : nat)
  : list Z :=
  List.filter (fun x => 0 <? x) (default [] (free_surf_walk_indices !! p)).

Definition triggers (free_surf_walk_indices : list (list Z)) (p : nat)
    (new_ind : option Z) : bool :=
  (default 0 new_ind >? 0)
  && has_repeat_ind (positive_walk free_surf_walk_indices p).

Definition deflect_entries (free_surf_walk_indices : list (list Z)) (L0 : Z)
    (domain_shape : Z * Z) (CTR : Z) (p : nat)
    (e : option Z * option Z * option Z) : option Z * option Z * option Z :=
  if triggers free_surf_walk_indices p e.1.1 then
    ((fun x => deflect x L0 domain_shape CTR) <$> e.1.1,
     (fun x => x + 1) <$> e.1.2,
     (fun _ => -1) <$> e.2)
  else e.

Definition _check_for_loops (free_surf_walk_indices : list (list Z))
    (new_indices : list Z) (_step L0 : Z) (looped : list Z)
    (domain_shape : Z * Z) (CTR : Z) (free_surf_flag : list Z)
  : list Z * list Z * list Z :=
  let nparcels := length free_surf_walk_indices in
  if _step >? L0 then
    fold_left (check_parcel free_surf_walk_indices L0 domain_shape CTR)
      (seq 0 nparcels) (new_indices, looped, free_surf_flag)
  else (new_indices, looped, free_surf_flag).

(** The flux fields are passed flattened, [n] entries long; a negative
    position counts from the end of the array, as in every jitted read or
    write of an array entry. *)
Definition _update_dirQfield (n : Z) (qfield : Z -> Q) (dist : list Q)
    (inds : list Z) (astep : list bool) (dirstep : list Z) : Z -> Q :=
  fold_left
    (fun qfield '(i, ii) =>
       if default false (astep !! i) then
         let ii := if ii <? 0 then ii + n else ii in
         flat_upd qfield ii
           (qfield ii + inject_Z (getZ dirstep i) / default 0 (dist !! i))%Q
       else qfield)
    (imap pair inds) qfield.

Definition _update_absQfield (n : Z) (qfield : Z -> Q) (dist : list Q)
    (inds : list Z) (astep : list bool) (Qp_water dx : Q) : Z -> Q :=
  fold_left
    (fun qfield '(i, ii) =>
       if default false (astep !! i) then
         let ii := if ii <? 0 then ii + n else ii in
         flat_upd qfield ii (qfield ii + Qp_water / dx / 2)%Q
       else qfield)
    (imap pair inds) qfield.

Definition update_Q (c : Config) (s : State) (dist : list Q)
    (current_inds next_index : list Z) (astep : list bool)
    (jstep istep : list Z) : State :=
  let upd_dir q inds dirstep :=
    reshape (W c)
      (_update_dirQfield (L c * W c) (flat_of (W c) q) dist inds astep dirstep) in
  let upd_abs q inds :=
    reshape (W c)
      (_update_absQfield (L c * W c) (flat_of (W c) q) dist inds astep
         (Qp_water c) (_dx c)) in
  let s := set_qxn (upd_dir (qxn s) current_inds jstep) s in
  let s := set_qyn (upd_dir (qyn s) current_inds istep) s in
  let s := set_qwn (upd_abs (qwn s) current_inds) s in
  let s := set_qxn (upd_dir (qxn s) next_index jstep) s in
  let s := set_qyn (upd_dir (qyn s) next_index istep) s in
  set_qwn (upd_abs (qwn s) next_index) s.

(** [a.flat[k]] outside of a jitted function: negative positions count
    from the end, and a position out of range raises an [IndexError]. *)
Definition flat_read {A} (c : Config) (a : grid A) (k : Z) : option A :=
  let size := L c * W c in
  if (- size <=? k) && (k <? size)
  then Some (flat_of (W c) a (if k <? 0 then k + size else k))
  else None.

(** The flags are taken to have one entry for each index, as the model
    object keeps them, [_Np_water] of each.  Vectors of different lengths
    give [None]: numpy refuses them, but for one index with no flag at all,
    which it lets through and which is outside of this embedding. *)
Definition check_for_boundary (c : Config) (s : State) (inds : list Z)
  : option (list Z * State) :=
  ct ← mapM (flat_read c (cell_type c)) inds;
  if negb (length inds =? length (free_surf_flag s))%nat then None
  else
    let flag :=
      zip_with (fun t f => if (t =? -1) && (f =? 0) then 1 else f)
        ct (free_surf_flag s) in
    let flag :=
      zip_with (fun t f => if (t =? -1) && (f =? -1) then 2 else f) ct flag in
    let inds := zip_with (fun i f => if f =? 2 then 0 else i) inds flag in
    Some (inds, set_free_surf_flag flag s).

(** The block [indices_blank] has [_Np_water] rows and a quarter of
    [stepmax] columns, rounded towards zero: [np.zeros] raises when one of
    the two is negative, and [np.hstack] when the matrix has not
    [_Np_water] rows. *)
Definition check_size_of_indices_matrix (c : Config) (s : State) (it : Z)
  : option State :=
  if it >=? ncols (free_surf_walk_indices s) then
    if (_Np_water c <? 0) || (stepmax c `quot` 4 <? 0) then None
    else if negb (Z.of_nat (length (free_surf_walk_indices s)) =? _Np_water c)
    then None
    else
      let indices_blank := replicate (Z.to_nat (stepmax c `quot` 4)) 0 in
      Some (set_free_surf_walk_indices
              ((fun row => row ++ indices_blank) <$> free_surf_walk_indices s) s)
  else Some s.

Definition get_water_weight_array (c : Config) (s : State) : State :=
  set_water_weights
    (fun i j =>
       if (0 <=? i) && (i <? L c) && (0 <=? j) && (j <? W c) then
         let stage_nbrs := window (pad_stage s) i j in
         let depth_nbrs := window (pad_depth s) i j in
         let ct_nbrs := window (pad_cell_type s) i j in
         let '(weight_sfc, weight_int) :=
           get_weight_sfc_int (stage s i j) stage_nbrs (qx s i j) (qy s i j)
             (ivec_flat c) (jvec_flat c) (distances_flat c) in
         get_weight_at_cell (i, j) weight_sfc weight_int depth_nbrs ct_nbrs
           (dry_depth c) (gamma c) (_theta_water c)
       else replicate 9 0%Q)
    s.

(** The variables of the [while] loop of [run_water_iteration]. *)
Record LoopState : Type := mkLoopState {
  ls_self : State;
  current_inds : list Z;
  _step : Z;
  ls_rng : RNG
}.

Definition loop_cond (c : Config) (ls : LoopState) : bool :=
  (foldr Z.add 0 (current_inds ls) >? 0) && (_step ls <? stepmax c).

(** One pass through the body of the loop; [None] when it raises. *)
Definition water_round (c : Config) (ls : LoopState) : option LoopState :=
  let _step := _step ls + 1 in
  s ← check_size_of_indices_matrix c (ls_self ls) _step;
  let water_weights_flat := flat_of (W c) (water_weights s) in
  let '(new_direction, g) :=
    _choose_next_direction (current_inds ls) water_weights_flat (ls_rng ls) in
  let shape := (L c, W c) in
  let new_indices :=
    _calculate_new_ind (current_inds ls) new_direction
      (iwalk_flat c) (jwalk_flat c) shape in
  let '(dist, istep, jstep, astep) :=
    get_steps new_direction (iwalk_flat c) (jwalk_flat c) in
  let s := update_Q c s dist (current_inds ls) new_indices astep jstep istep in
  let '(cur, lp, fl) :=
    _check_for_loops (free_surf_walk_indices s) new_indices _step (L0 c)
      (looped s) shape (CTR c) (free_surf_flag s) in
  let s := set_free_surf_flag fl (set_looped lp s) in
  '(cur, s) ← check_for_boundary c s cur;
  walks ← set_column (free_surf_walk_indices s) _step cur;
  let s := set_free_surf_walk_indices walks s in
  let cur := zip_with (fun i f => if f >? 0 then 0 else i) cur (free_surf_flag s) in
  Some {| ls_self := s; current_inds := cur; _step := _step; ls_rng := g |}.

(** The [while] loop, by recursion on the rounds that [stepmax] leaves.
    The result carries the number of rounds that were entered. *)
Fixpoint water_loop (c : Config) (rounds_left : nat) (ls : LoopState)
  : option LoopState * nat :=
  match rounds_left with
  | O => (Some ls, O)
  | S n =>
      if loop_cond c ls then
        match water_round c ls with
        | Some ls' => let '(r, k) := water_loop c n ls' in (r, S k)
        | None => (None, 1%nat)
        end
      else (Some ls, O)
  end.

(** [a.flat[inds] += v]: every position named in [inds] is raised once. *)
Definition flat_add (c : Config) (a : grid Q) (inds : list Z) (v : Q)
  : option (grid Q) :=
  _ ← mapM (flat_read c a) inds;
  let size := L c * W c in
  let pos := (fun k => if k <? 0 then k + size else k) <$> inds in
  Some (reshape (W c)
          (fun k => if bool_decide (k ∈ pos)
                    then (flat_of (W c) a k + v)%Q else flat_of (W c) a k)).

(** The state of the loop at its entry. *)
Definition water_loop_init (c : Config) (s : State) (g : RNG)
  : option LoopState :=
  let inlet_weights := replicate (length (inlet c)) 1 in
  let '(start_indices, g) :=
    get_start_indices (inlet c) inlet_weights (_Np_water c) g in
  qxn' ← flat_add c (qxn s) start_indices 1;
  let s := set_qxn qxn' s in
  qwn' ← flat_add c (qwn s) start_indices (Qp_water c / _dx c / 2);
  let s := set_qwn qwn' s in
  walks ← set_column (free_surf_walk_indices s) 0 start_indices;
  let s := set_free_surf_walk_indices walks s in
  let s := set_looped ((fun _ => 0) <$> looped s) s in
  let s := get_water_weight_array c s in
  Some {| ls_self := s; current_inds := start_indices; _step := 0; ls_rng := g |}.

Definition run_water_iteration (c : Config) (s : State) (g : RNG)
  : option LoopState * nat :=
  match water_loop_init c s g with
  | Some ls => water_loop c (Z.to_nat (stepmax c)) ls
  | None => (None, O)
  end.

(** The loop as a relation: [while_run c ls r n] when the loop entered at
    [ls] ends after [n] rounds, in the state [r] or by an exception. *)
Inductive while_run (c : Config) : LoopState -> option LoopState -> nat -> Prop :=
  | while_exit ls :
      loop_cond c ls = false -> while_run c ls (Some ls) O
  | while_raise ls :
      loop_cond c ls = true -> water_round c ls = None ->
      while_run c ls None 1%nat
  | while_next ls ls' r n :
      loop_cond c ls = true -> water_round c ls = Some ls' ->
      while_run c ls' r n -> while_run c ls r (S n).

(** ** Accumulation of the free surface along the paths *)

(** The variables of the walk up a path: the scratch array [Hnew], the
    flag [in_ocean], the increment [dH] and the two accumulators. *)
Record WalkState : Type := mkWalkState {
  Hnew : grid Q;
  in_ocean : bool;
  dH : Q;
  ws_visit : grid Q;
  ws_sum : grid Q
}.

(** The body of the loop [for it in range(len(xs) - 2, -1, -1)]. *)
Definition walk_step (uw ux uy depth : grid Q) (dx u0 h0 S0 : Q)
    (xs ys : list Z) (st : WalkState) (it : nat) : WalkState :=
  let i := getZ xs it in
  let ip := getZ xs (it + 1) in
  let j := getZ ys it in
  let jp := getZ ys (it + 1) in
  let '(in_ocean', dH') :=
    if negb (i =? ip) || negb (j =? jp) then
      if in_ocean st then
        if Qltb (u0 * (1 # 2)) (uw i j) || Qltb (depth i j) ((1 # 10) * h0)
        then (false, dH st) else (true, dH st)
      else if Qeq_bool (uw i j) 0 then (false, 0%Q)
      else
        (false,
         (S0 * (ux i j * inject_Z (ip - i) * dx + uy i j * inject_Z (jp - j) * dx)
          / uw i j)%Q)
    else (in_ocean st, dH st) in
  let Hnew' := grid_set (Hnew st) i j (Hnew st ip jp + dH')%Q in
  {| Hnew := Hnew';
     in_ocean := in_ocean';
     dH := dH';
     ws_visit := grid_set (ws_visit st) i j (ws_visit st i j + 1)%Q;
     ws_sum := grid_set (ws_sum st) i j (ws_sum st i j + Hnew' i j)%Q |}.

(** The path of parcel [p] is ranked a contributor when it ends on a cell
    of type [-1] and the parcel never looped. *)
Definition contributes (cell_type : grid Z) (looped : list Z) (p : nat)
    (xs ys : list Z) : option bool :=
  xl ← list.last xs;
  yl ← list.last ys;
  if cell_type xl yl =? -1 then
    lp ← looped !! p;
    Some (lp =? 0)
  else Some false.

(** The cells of a path that lie upstream of its last cell, and the
    number of times a cell occurs in a list of cells. *)
Definition path_cells (shape : Z * Z) (inds : list Z) : list (Z * Z) :=
  (fun ind => custom_unravel ind shape) <$> List.filter (fun x => 0 <? x) inds.

Definition upstream_cells (shape : Z * Z) (inds : list Z) : list (Z * Z) :=
  let pts := path_cells shape inds in
  take (length pts - 1) pts.

Definition visits (cell : Z * Z) (l : list (Z * Z)) : nat :=
  length (List.filter (fun c => bool_decide (c = cell)) l).

(** The specification's reading of a contributing path: the last positive index
    of the path of parcel [p] lies on a cell of type [-1], and the loop
    counter of the parcel is 0. *)
Definition qualifies (shape : Z * Z) (cell_type : grid Z) (looped : list Z)
    (p : nat) (inds : list Z) : Prop :=
  exists last_ind,
    list.last (List.filter (fun x => 0 <? x) inds) = Some last_ind
    /\ cell_type (custom_unravel last_ind shape).1
                 (custom_unravel last_ind shape).2 = -1
    /\ looped !! p = Some 0.

(** The body of the loop over the parcels; [None] when the path has no
    positive entry, or [looped] no entry for the parcel, and the source
    reads outside of its arrays. *)
Definition walk_parcel (shape : Z * Z) (looped : list Z) (cell_type : grid Z)
    (uw ux uy depth : grid Q) (dx u0 h0 H_SL S0 : Q)
    (acc : grid Q * grid Q) (p : nat) (inds : list Z)
  : option (grid Q * grid Q) :=
  let inds_whr := List.filter (fun x => 0 <? x) inds in
  let xs := (fun ind => (custom_unravel ind shape).1) <$> inds_whr in
  let ys := (fun ind => (custom_unravel ind shape).2) <$> inds_whr in
  ok ← contributes cell_type looped p xs ys;
  if ok : bool then
    let Hnew0 : grid Q :=
      grid_set (fun _ _ => 0%Q) (List.last xs 0) (List.last ys 0) H_SL in
    let st :=
      fold_left (walk_step uw ux uy depth dx u0 h0 S0 xs ys)
        (reverse (seq 0 (length xs - 1)))
        {| Hnew := Hnew0; in_ocean := true; dH := 0%Q;
           ws_visit := acc.1; ws_sum := acc.2 |} in
    Some (ws_visit st, ws_sum st)
  else Some acc.

Fixpoint walk_parcels (shape : Z * Z) (looped : list Z) (cell_type : grid Z)
    (uw ux uy depth : grid Q) (dx u0 h0 H_SL S0 : Q)
    (acc : grid Q * grid Q) (p : nat) (paths : list (list Z))
  : option (grid Q * grid Q) :=
  match paths with
  | [] => Some acc
  | inds :: paths' =>
      acc' ← walk_parcel shape looped cell_type uw ux uy depth
                dx u0 h0 H_SL S0 acc p inds;
      walk_parcels shape looped cell_type uw ux uy depth
        dx u0 h0 H_SL S0 acc' (S p) paths'
  end.

(** [shape] is [uw.shape]; the result is [(sfc_visit, sfc_sum)]. *)
Definition _accumulate_free_surface_walks (shape : Z * Z)
    (free_surf_walk_indices : list (list Z)) (looped : list Z)
    (cell_type : grid Z) (uw ux uy depth : grid Q) (dx u0 h0 H_SL S0 : Q)
  : option (grid Q * grid Q) :=
  walk_parcels shape looped cell_type uw ux uy depth dx u0 h0 H_SL S0
    (fun _ _ => 0%Q, fun _ _ => 0%Q) O free_surf_walk_indices.

Definition compute_free_surface (c : Config) (s : State) : option State :=
  '(v, m) ← _accumulate_free_surface_walks (L c, W c)
     (free_surf_walk_indices s) (looped s) (cell_type c)
     (uw s) (ux s) (uy s) (depth s) (_dx c) (_u0 c) (h0 c) (_H_SL c) (_S0 c);
  Some (finalize_free_surface c (set_sfc_sum m (set_sfc_visit v s))).

End Water.

(** ** Predicates and counts used to state the properties of the routing *)

(** The test [ind != 0] of [_choose_next_direction]: the parcel is still
    being routed. *)
Definition active (ind : Z) : bool := negb (ind =? 0).

(** The flag that [check_for_boundary] leaves to a parcel whose flag was
    [f], on a cell of type [t]: on a cell of the ocean edge a parcel in
    good standing is flagged 1, a parcel that looped 2. *)
Definition boundary_flag (t f : Z) : Z :=
  if t =? -1 then (if f =? 0 then 1 else if f =? -1 then 2 else f) else f.

(** The four values that the routing gives to a flag. *)
Definition flag_ok (f : Z) : Prop := f = -1 \/ f = 0 \/ f = 1 \/ f = 2.

(** The state of the flags between two rounds: one flag for each parcel,
    each of the four values, and every parcel that is flagged 1 or 2 at
    index 0. *)
Definition flags_consistent (RNG : Type) (ls : LoopState RNG) : Prop :=
  length (free_surf_flag (ls_self RNG ls)) = length (current_inds RNG ls)
  /\ forall p f, free_surf_flag (ls_self RNG ls) !! p = Some f ->
       flag_ok f /\ (0 < f -> current_inds RNG ls !! p = Some 0).

(** The number of the parcels at flat index [k] that take a step, that
    is, of the positions [i] with [inds[i] = k] and [astep[i]]. *)
Definition moving_at (inds : list Z) (astep : list bool) (k : Z) : nat :=
  length
    (List.filter (fun x : nat * Z => (x.2 =? k) && default false (astep !! x.1))
       (imap pair inds)).

(** ** The start of a water iteration *)

(** [init_water_iteration]: the flux fields, the flags, the path matrix and
    the accumulators of the free surface are zeroed in place, and the padded
    copies of the stage, the depth and the cell types are made anew. *)
Definition init_water_iteration (c : Config) (s : State) : State :=
  let zero : grid Q := fun _ _ => 0%Q in
  {| stage := stage s; depth := depth s;
     qx := qx s; qy := qy s; qw := qw s;
     qxn := zero; qyn := zero; qwn := zero;
     ux := ux s; uy := uy s; uw := uw s;
     sfc_visit := zero; sfc_sum := zero;
     pad_stage := np_pad_edge (L c) (W c) (stage s);
     pad_depth := np_pad_edge (L c) (W c) (depth s);
     pad_cell_type := np_pad_edge (L c) (W c) (cell_type c);
     water_weights := water_weights s;
     free_surf_walk_indices :=
       (fun row : list Z => (fun _ => 0) <$> row) <$> free_surf_walk_indices s;
     looped := looped s;
     free_surf_flag := (fun _ => 0) <$> free_surf_flag s |}.

(** ** Bounds during the smoothing *)

(** The two arrays of a smoothing pass, the surface and its padded copy,
    hold values between 0 and [M] at the indices of their shapes,
    [(Ls, Ws)] and [(Ls + 2, Ws + 2)]. *)
Definition within (Ls Ws : Z) (M : Q) (st : grid Q * grid Q) : Prop :=
  (forall x y, 0 <= x < Ls -> 0 <= y < Ws -> (0 <= st.1 x y <= M)%Q)
  /\ (forall x y, 0 <= x < Ls + 2 -> 0 <= y < Ws + 2 -> (0 <= st.2 x y <= M)%Q).

(** ** Counting the visits of the free-surface walks *)

(** The test of [_accumulate_free_surface_walks] on the path of parcel
    [p], as a boolean: the path is walked. *)
Definition path_contributes (shape : Z * Z) (cell_type : grid Z)
    (looped : list Z) (p : nat) (inds : list Z) : bool :=
  let inds_whr := List.filter (fun x => 0 <? x) inds in
  match contributes cell_type looped p
          ((fun ind => (custom_unravel ind shape).1) <$> inds_whr)
          ((fun ind => (custom_unravel ind shape).2) <$> inds_whr) with
  | Some true => true
  | _ => false
  end.

(** The number of times the walked paths, those of the parcels numbered
    from [p] on, pass through [cell] upstream of their last cell. *)
Fixpoint visit_count (shape : Z * Z) (cell_type : grid Z) (looped : list Z)
    (p : nat) (paths : list (list Z)) (cell : Z * Z) : nat :=
  match paths with
  | [] => 0
  | inds :: paths' =>
      (if path_contributes shape cell_type looped p inds
       then visits cell (upstream_cells shape inds) else 0)
      + visit_count shape cell_type looped (S p) paths' cell
  end.

(** A cell that the walk up a path takes to lie off the shore: the water
    is neither fast nor shallow, [uw <= u0 * 0.5] and [0.1 * h0 <= depth]. *)
Definition offshore (uw depth : grid Q) (u0 h0 : Q) (cell : Z * Z) : Prop :=
  Qle (uw cell.1 cell.2) (u0 * (1 # 2))
  /\ Qle ((1 # 10) * h0) (depth cell.1 cell.2).

(** The accumulators of a walk hold the sea level for every visit. *)
Definition at_sea_level (H_SL : Q) (st : WalkState) : Prop :=
  forall i j, (ws_sum st i j == H_SL * ws_visit st i j)%Q.

(** The flag [in_ocean] and the increment [dH] of the walk up a path, as
    they depend on the path alone, without the scratch array and the
    accumulators: at a cell [c] whose downstream neighbour on the path is
    another cell [c'], the flag falls when the water is fast or shallow, and
    once it has fallen the increment is that of the slope along the step. *)
Definition level_step (uw ux uy depth : grid Q) (dx u0 h0 S0 : Q)
    (c c' : Z * Z) (st : bool * Q) : bool * Q :=
  let '(i, j) := c in
  let '(ip, jp) := c' in
  if negb (i =? ip) || negb (j =? jp) then
    if st.1 then
      if Qltb (u0 * (1 # 2)) (uw i j) || Qltb (depth i j) ((1 # 10) * h0)
      then (false, st.2) else (true, st.2)
    else if Qeq_bool (uw i j) 0 then (false, 0%Q)
    else
      (false,
       (S0 * (ux i j * inject_Z (ip - i) * dx + uy i j * inject_Z (jp - j) * dx)
        / uw i j)%Q)
  else st.

(** The surface along a path: the sea level at its last cell, and at
    every other cell the surface of the next cell plus the increment.  The
    result carries the flag and the increment at the head of the path. *)
Fixpoint path_levels (uw ux uy depth : grid Q) (dx u0 h0 H_SL S0 : Q)
    (pts : list (Z * Z)) : (bool * Q) * list Q :=
  match pts with
  | [] => ((true, 0%Q), [])
  | c :: rest =>
      match rest with
      | [] => ((true, 0%Q), [H_SL])
      | c' :: _ =>
          let '(st, lv) := path_levels uw ux uy depth dx u0 h0 H_SL S0 rest in
          let st' := level_step uw ux uy depth dx u0 h0 S0 c c' st in
          (st', (List.hd 0%Q lv + st'.2)%Q :: lv)
      end
  end.

(** The sum of the surfaces [lv] at the places where a path passes
    through [cell] upstream of its last cell. *)
Definition level_sum (cell : Z * Z) (pts : list (Z * Z)) (lv : list Q) : Q :=
  Qsum ((List.filter (fun x : Z * Z * Q => bool_decide (x.1 = cell))
           (zip (take (length pts - 1) pts) lv)).*2).

(** ** The preprocessor: a shallow embedding of [preprocessor.py]

    The Python API of the preprocessor, [Preprocessor], with the methods of
    [BasePreprocessor] and the class [_Job].  The model class [DeltaModel],
    which is not among the sources, the paths of the input files and the
    reading of a YAML file are section variables; the file at a path that
    is given is taken to exist and to hold YAML, of any kind.  The
    [timesteps] argument and the [timesteps] entry of the YAML file are
    integers or [None]; the
    command line class, which differs from the Python API by the parsing
    of its arguments only, is left out.  A method takes the object and
    returns it, or the exception it raises. *)

Module Preprocessor.

Inductive Error : Type :=
  | NotImplementedError
  | ValueError
  | AttributeError
  | TypeError.

(** The truth value of an integer or [None]. *)
Definition truthy (v : option Z) : bool :=
  match v with
  | Some n => negb (n =? 0)
  | None => false
  end.

(** The value of [self.user_dict], what [yaml.load] gives: whether it is a
    dictionary at all, which the document of an empty file, [None], is not,
    nor a list or a scalar; and, of a dictionary, the keys that the
    preprocessor looks at: whether there is a key [matrix], and the value at
    the key [timesteps], if there is that key. *)
Record UserDict : Type := mkUserDict {
  is_dict : bool;
  has_matrix_key : bool;
  timesteps_entry : option (option Z)
}.

Definition empty_dict : UserDict :=
  {| is_dict := true; has_matrix_key := false; timesteps_entry := None |}.

Section Jobs.

Variable Path : Type.
(** The truth value of a path, that of its string. *)
Variable path_given : Path -> bool.
(** [yaml.load] of the file at a path. *)
Variable yaml_load : Path -> UserDict.

Variable Model : Type.
Variable DeltaModel : option Path -> Model.
Variable update : Model -> Model.
Variable finalize : Model -> Model.

Record Job : Type := mkJob {
  deltamodel : Model;
  job_timesteps : Z;
  _is_completed : bool
}.

(** [_Job.__init__]. *)
Definition _Job (input_file : option Path) (yaml_timesteps arg_timesteps : option Z)
  : Error + Job :=
  let deltamodel := DeltaModel input_file in
  if truthy yaml_timesteps then
    inr {| deltamodel := deltamodel; job_timesteps := default 0 yaml_timesteps;
           _is_completed := false |}
  else if truthy arg_timesteps then
    inr {| deltamodel := deltamodel; job_timesteps := default 0 arg_timesteps;
           _is_completed := false |}
  else inl ValueError.

(** [for _ in range(self.timesteps): self.deltamodel.update()]. *)
Definition run_job (job : Job) : Job :=
  {| deltamodel := Nat.iter (Z.to_nat (job_timesteps job)) update (deltamodel job);
     job_timesteps := job_timesteps job;
     _is_completed := _is_completed job |}.

Definition finalize_model (job : Job) : Job :=
  {| deltamodel := finalize (deltamodel job);
     job_timesteps := job_timesteps job;
     _is_completed := true |}.

(** The attributes of a preprocessor; [None] is an attribute that has not
    been assigned, what [hasattr] tests. *)
Record Attributes : Type := mkAttributes {
  input_file : option (option Path);
  user_dict : option UserDict;
  _has_matrix : option bool;
  arg_timesteps : option (option Z);
  yaml_timesteps : option (option Z);
  timesteps : option (option Z);
  job_list : option (list Job)
}.

Definition no_attributes : Attributes :=
  {| input_file := None; user_dict := None; _has_matrix := None;
     arg_timesteps := None; yaml_timesteps := None; timesteps := None;
     job_list := None |}.

(** Reading an attribute. *)
Definition get {A} (a : option A) : Error + A :=
  match a with
  | Some v => inr v
  | None => inl AttributeError
  end.

Definition bind {A B} (m : Error + A) (f : A -> Error + B) : Error + B :=
  match m with
  | inl e => inl e
  | inr v => f v
  end.

(** [d.keys()]: only a dictionary has the method. *)
Definition keys (d : UserDict) : Error + UserDict :=
  if is_dict d then inr d else inl AttributeError.

Definition extract_yaml_config (self : Attributes) : Error + Attributes :=
  bind (get (input_file self)) (fun file =>
  match file with
  | None => inl TypeError
  | Some path =>
      let d := yaml_load path in
      let self :=
        {| input_file := input_file self; user_dict := Some d;
           _has_matrix := _has_matrix self; arg_timesteps := arg_timesteps self;
           yaml_timesteps := yaml_timesteps self; timesteps := timesteps self;
           job_list := job_list self |} in
      bind (keys d) (fun d =>
      if has_matrix_key d then inl NotImplementedError
      else
        inr {| input_file := input_file self; user_dict := user_dict self;
               _has_matrix := Some false; arg_timesteps := arg_timesteps self;
               yaml_timesteps := yaml_timesteps self; timesteps := timesteps self;
               job_list := job_list self |})
  end).

Definition set_timesteps (v : option Z) (self : Attributes) : Attributes :=
  {| input_file := input_file self; user_dict := user_dict self;
     _has_matrix := _has_matrix self; arg_timesteps := arg_timesteps self;
     yaml_timesteps := yaml_timesteps self; timesteps := Some v;
     job_list := job_list self |}.

Definition extract_timesteps (self : Attributes) : Error + Attributes :=
  let self :=
    match arg_timesteps self with
    | Some a => set_timesteps a self
    | None => self
    end in
  match timesteps self with
  | Some _ => inr self
  | None =>
      bind (get (user_dict self)) (fun d =>
      bind (keys d) (fun d =>
      match timesteps_entry d with
      | Some v => inr (set_timesteps v self)
      | None => inl ValueError
      end))
  end.

Definition set_job_list (l : list Job) (self : Attributes) : Attributes :=
  {| input_file := input_file self; user_dict := user_dict self;
     _has_matrix := _has_matrix self; arg_timesteps := arg_timesteps self;
     yaml_timesteps := yaml_timesteps self; timesteps := timesteps self;
     job_list := Some l |}.

(** [expand_yaml_matrix] is [pass]. *)
Definition expand_yaml_matrix (self : Attributes) : Attributes := self.

Definition construct_job_list (self : Attributes) : Error + Attributes :=
  let self := set_job_list [] self in
  bind (get (_has_matrix self)) (fun m =>
  if m : bool then inr (expand_yaml_matrix self)
  else
    bind (get (input_file self)) (fun file =>
    bind (get (yaml_timesteps self)) (fun y =>
    bind (get (arg_timesteps self)) (fun a =>
    bind (_Job file y a) (fun job =>
    inr (set_job_list (default [] (job_list self) ++ [job]) self)))))).

Definition run_jobs (self : Attributes) : Error + Attributes :=
  bind (get (job_list self)) (fun l =>
  if (1 <? length l)%nat then inl NotImplementedError
  else inr (set_job_list ((fun job => finalize_model (run_job job)) <$> l) self)).

(** [Preprocessor.__init__]. *)
Definition Preprocessor (file : option Path) (steps : option Z)
  : Error + Attributes :=
  let self := no_attributes in
  bind
    (if match file with Some p => path_given p | None => false end then
       extract_yaml_config
         {| input_file := Some file; user_dict := user_dict self;
            _has_matrix := _has_matrix self; arg_timesteps := arg_timesteps self;
            yaml_timesteps := yaml_timesteps self; timesteps := timesteps self;
            job_list := job_list self |}
     else
       inr {| input_file := Some None; user_dict := Some empty_dict;
              _has_matrix := Some false; arg_timesteps := arg_timesteps self;
              yaml_timesteps := yaml_timesteps self; timesteps := timesteps self;
              job_list := job_list self |})
    (fun self =>
  let self :=
    {| input_file := input_file self; user_dict := user_dict self;
       _has_matrix := _has_matrix self;
       arg_timesteps := Some (if truthy steps then steps else None);
       yaml_timesteps := yaml_timesteps self; timesteps := timesteps self;
       job_list := job_list self |} in
  bind (get (user_dict self)) (fun d =>
  bind (keys d) (fun d =>
  let self :=
    {| input_file := input_file self; user_dict := user_dict self;
       _has_matrix := _has_matrix self; arg_timesteps := arg_timesteps self;
       yaml_timesteps := Some (default None (timesteps_entry d));
       timesteps := timesteps self; job_list := job_list self |} in
  bind (extract_timesteps self) construct_job_list))).

End Jobs.

End Preprocessor.

(** ** Small models, to run the routines on *)

Module Examples.

(** An array given by its rows; [d] is read outside of them. *)
Definition grid_of {A} (d : A) (rows : list (list A)) : grid A :=
  fun i j =>
    if (0 <=? i) && (0 <=? j)
    then default d (default [] (rows !! Z.to_nat i) !! Z.to_nat j)
    else d.

(** The direction tables of the model: columns then rows of the 3 x 3
    neighbourhood, in row-major order. *)
Definition iwalk : list Z := [-1; 0; 1; -1; 0; 1; -1; 0; 1].
Definition jwalk : list Z := [-1; -1; -1; 0; 0; 0; 1; 1; 1].

(** A model of shape [(Lc, Wc)]; the parameters that the examples do not
    vary are fixed. *)
Definition config (Lc Wc : Z) (eta_rows : list (list Q))
    (cell_type_rows : list (list Z)) (dry : Q) (Nsmooth : Z) (Csmooth : Q)
    (time_iter : Z) : Config :=
  {| L := Lc; W := Wc; L0 := 1; CTR := Wc `div` 2; stepmax := 2 * (Lc + Wc);
     _Np_water := 1;
     eta := grid_of 0%Q eta_rows;
     cell_type := grid_of 0 cell_type_rows;
     inlet := [Wc `div` 2];
     iwalk_flat := iwalk; jwalk_flat := jwalk;
     ivec_flat := []; jvec_flat := []; distances_flat := [];
     Qp_water := 1; _dx := 1; _u0 := 1; h0 := 1; _H_SL := 0; _S0 := 1 # 1000;
     dry_depth := dry; gamma := 1 # 20; _theta_water := 1;
     u_max := 2; qw0 := 1;
     _omega_sfc := 1 # 10; _omega_flow := 9 # 10; omega_flow_iter := 1 # 2;
     _Nsmooth := Nsmooth; _Csmooth := Csmooth; _time_iter := time_iter |}.

Definition zeros : grid Q := fun _ _ => 0%Q.

(** A state with the given stage, depth and free-surface accumulators, at
    rest otherwise. *)
Definition state (c : Config) (stage_rows depth_rows : list (list Q))
    (visit_rows sum_rows : list (list Q)) : State :=
  {| stage := grid_of 0%Q stage_rows; depth := grid_of 0%Q depth_rows;
     qx := zeros; qy := zeros; qw := zeros;
     qxn := zeros; qyn := zeros; qwn := zeros;
     ux := zeros; uy := zeros; uw := zeros;
     sfc_visit := grid_of 0%Q visit_rows; sfc_sum := grid_of 0%Q sum_rows;
     pad_stage := np_pad_edge (L c) (W c) (grid_of 0%Q stage_rows);
     pad_depth := np_pad_edge (L c) (W c) (grid_of 0%Q depth_rows);
     pad_cell_type := np_pad_edge (L c) (W c) (cell_type c);
     water_weights := fun _ _ => [];
     free_surf_walk_indices := [];
     looped := [];
     free_surf_flag := [] |}.

(** A shore: the dry cell [(0, 0)], a twentieth deep on a bed at zero,
    among three wet cells whose surface stands lower than its own. *)
Definition shore_config : Config :=
  config 2 2 [[0; -1]; [-1; -1]]%Q [[0; 0]; [0; 0]] (1 # 10) 1 (9 # 10) 0.

Definition shore_state : State :=
  state shore_config
    [[1 # 20; 1 # 40]; [1 # 40; 1 # 40]]%Q
    [[1 # 20; 41 # 40]; [41 # 40; 41 # 40]]%Q
    [] [].

(** A sunken shore, with a sea level below zero: the dry cell [(0, 0)] on
    a bed at -1/2 among three wet cells whose surface stands at -1. *)
Definition sunken_config : Config :=
  config 2 2 [[-1 # 2; -3]; [-3; -3]]%Q [[0; 0]; [0; 0]] (1 # 10) 1 (9 # 10) 0.

Definition sunken_state : State :=
  state sunken_config
    [[-1 # 2; -1]; [-1; -1]]%Q
    [[0; 2]; [2; 2]]%Q
    [] [].

(** A basin of four wet cells at rest, one of them visited by a parcel
    that left an elevation of 3. *)
Definition basin_config : Config :=
  config 2 2 [[0; 0]; [0; 0]]%Q [[0; 0]; [0; 0]] (1 # 10) 1 (9 # 10) 0.

Definition basin_state : State :=
  state basin_config
    [[1; 1]; [1; 1]]%Q [[1; 1]; [1; 1]]%Q
    [[1; 0]; [0; 0]]%Q [[3; 0]; [0; 0]]%Q.

(** A square root on the integers, enough to run the deflection. *)
Definition isqrt (q : Q) : Q := inject_Z (Z.sqrt (Qfloor q)).

(** A generator without state that always draws direction 7, one row
    down, and the helpers of [shared_tools] that go with it: all parcels
    start on the first inlet cell, the steps are read off the tables, and
    the weights are uniform. *)
Definition pick7 (_ : list Q) (g : unit) : Z * unit := (7, g).

Definition start1 (inlet : list Z) (_ : list Z) (Np : Z) (g : unit)
  : list Z * unit :=
  (replicate (Z.to_nat Np) (default 0 (head inlet)), g).

Definition steps (new_cells iwalk jwalk : list Z)
  : list Q * list Z * list Z * list bool :=
  let istep := (fun q => getZ iwalk (Z.to_nat q)) <$> new_cells in
  let jstep := (fun q => getZ jwalk (Z.to_nat q)) <$> new_cells in
  let dist := zip_with (fun a b => isqrt (inject_Z (a * a + b * b))) istep jstep in
  (dist, istep, jstep, (fun d => negb (Qeq_bool d 0)) <$> dist).

Definition no_weights (_ : Q) (_ : list Q) (_ _ : Q) (_ _ _ : list Q)
  : list Q * list Q := ([], []).

Definition flat_weights (_ : Z * Z) (_ _ _ : list Q) (_ : list Z) (_ _ _ : Q)
  : list Q := replicate 9 1%Q.

(** A strip of three rows and three columns whose last row is the ocean
    edge. *)
Definition strip_cell_type : grid Z :=
  grid_of 0 [[0; 0; 0]; [0; 0; 0]; [-1; -1; -1]].

(** A channel of four rows and three columns that ends on the ocean edge,
    with one parcel and a path matrix of seven columns. *)
Definition channel_config : Config :=
  config 4 3 [[0; 0; 0]; [0; 0; 0]; [0; 0; 0]; [0; 0; 0]]%Q
    [[0; 0; 0]; [0; 0; 0]; [0; 0; 0]; [-1; -1; -1]] (1 # 10) 1 (9 # 10) 0.

Definition channel_state : State :=
  let ones := [[1; 1; 1]; [1; 1; 1]; [1; 1; 1]; [1; 1; 1]]%Q in
  set_free_surf_flag [0]
    (set_looped [0]
       (set_free_surf_walk_indices [replicate 7 0]
          (state channel_config ones ones [] []))).

(** The channel with its attribute [stepmax] at 2, so that a quarter of it
    is no column at all. *)
Definition short_config : Config :=
  let c := channel_config in
  {| L := L c; W := W c; L0 := L0 c; CTR := CTR c; stepmax := 2;
     _Np_water := _Np_water c;
     eta := eta c; cell_type := cell_type c; inlet := inlet c;
     iwalk_flat := iwalk_flat c; jwalk_flat := jwalk_flat c;
     ivec_flat := ivec_flat c; jvec_flat := jvec_flat c;
     distances_flat := distances_flat c;
     Qp_water := Qp_water c; _dx := _dx c; _u0 := _u0 c; h0 := h0 c;
     _H_SL := _H_SL c; _S0 := _S0 c;
     dry_depth := dry_depth c; gamma := gamma c; _theta_water := _theta_water c;
     u_max := u_max c; qw0 := qw0 c;
     _omega_sfc := _omega_sfc c; _omega_flow := _omega_flow c;
     omega_flow_iter := omega_flow_iter c;
     _Nsmooth := _Nsmooth c; _Csmooth := _Csmooth c; _time_iter := _time_iter c |}.

(** A state of the basin model in which water flows. *)
Definition flowing_state : State :=
  set_qw (fun _ _ => 3%Q) (set_qx (fun _ _ => 3%Q) basin_state).

(** A ramp of nine cells, none of them a wall. *)
Definition ramp : grid Q := grid_of 0%Q [[1; 2; 3]; [4; 5; 6]; [7; 8; 9]]%Q.

Definition open_cells : grid Z := fun _ _ => 0.

End Examples.

(** * Properties *)

(** ** Comparisons of rationals *)

Lemma Qltb_spec (a b : Q) : reflect (a < b)%Q (Qltb a b).
Proof.
  unfold Qltb. destruct (Qle_bool b a) eqn:E; constructor.
  - apply Qle_bool_iff in E. lra.
  - apply Qnot_le_lt. intros H'. apply Qle_bool_iff in H'. congruence.
Qed.

Lemma Qltb_true (a b : Q) : Qltb a b = true <-> (a < b)%Q.
Proof. destruct (Qltb_spec a b); intuition congruence. Qed.

Lemma Qltb_false (a b : Q) : Qltb a b = false <-> (b <= a)%Q.
Proof. destruct (Qltb_spec a b); split; intros; try lra; congruence. Qed.

(** ** Lists *)

Lemma list_lookup_insert_same {A} (l : list A) (p : nat) (v : A) :
  <[p := v]> l !! p = (fun _ => v) <$> (l !! p).
Proof.
  destruct (l !! p) eqn:E; cbn.
  - apply list_lookup_insert_eq. eapply lookup_lt_Some; eauto.
  - rewrite list_insert_ge; [exact E|]. apply lookup_ge_None; exact E.
Qed.

Lemma remove_dups_length_le (l : list Z) : (length (remove_dups l) <= length l)%nat.
Proof.
  induction l as [|x l IH]; cbn; [lia|]. case_decide; cbn; lia.
Qed.

Lemma has_repeat_ind_false (l : list Z) : has_repeat_ind l = false <-> NoDup l.
Proof.
  unfold has_repeat_ind. rewrite negb_false_iff, Nat.eqb_eq.
  induction l as [|x l IH]; cbn.
  - split; [constructor | reflexivity].
  - pose proof (remove_dups_length_le l). case_decide as Hx; cbn.
    + split; [lia|]. intros Hn. apply list.NoDup_cons in Hn. tauto.
    + rewrite list.NoDup_cons. split.
      * intros E. split; [exact Hx | apply IH; lia].
      * intros [_ Hn]. f_equal. apply IH, Hn.
Qed.

(** ** Finalization of the water iteration *)

(** C1: after [finalize_water_iteration], at every cell the depth is
    [max (stage - eta) 0], the stage is at least the sea level [H_SL], and
    the depth is not negative. *)
Theorem finalize_water_iteration_depth_stage sq c s iteration i j :
  let s' := finalize_water_iteration sq c s iteration in
  depth s' i j = Qmax (stage s' i j - eta c i j) 0
  /\ (_H_SL c <= stage s' i j)%Q
  /\ (0 <= depth s' i j)%Q.
Proof.
  cbn. destruct (_time_iter c >? 0); cbn.
  all: repeat split; try apply Q.le_max_r.
Qed.

(** ** The velocity field *)

Lemma update_velocity_field_uw c s i j :
  uw (update_velocity_field c s) i j =
  if Qltb (dry_depth c) (depth s i j) && Qltb 0 (qw s i j)
  then Qmin (u_max c) (qw s i j / depth s i j) else 0%Q.
Proof.
  unfold update_velocity_field, where_set; cbn.
  destruct (Qltb (dry_depth c) (depth s i j) && Qltb 0 (qw s i j)); reflexivity.
Qed.

(** C10: with a maximum velocity and a dry depth that are not negative,
    [update_velocity_field] leaves [0 <= uw <= u_max] at every cell; the
    cells of the mask get the ratio [qw / depth] capped at [u_max], and the
    other cells, where [depth <= dry_depth] or [qw <= 0], get
    [uw = ux = uy = 0]. *)
Theorem update_velocity_field_bounds c s i j :
  (0 <= u_max c)%Q -> (0 <= dry_depth c)%Q ->
  let s' := update_velocity_field c s in
  (0 <= uw s' i j /\ uw s' i j <= u_max c)%Q
  /\ ((dry_depth c < depth s i j)%Q -> (0 < qw s i j)%Q ->
      uw s' i j = Qmin (u_max c) (qw s i j / depth s i j))
  /\ ((depth s i j <= dry_depth c)%Q \/ (qw s i j <= 0)%Q ->
      uw s' i j = 0%Q /\ ux s' i j = 0%Q /\ uy s' i j = 0%Q).
Proof.
  intros Hu Hd s'. subst s'. rewrite update_velocity_field_uw.
  unfold update_velocity_field, where_set; cbn.
  destruct (Qltb_spec (dry_depth c) (depth s i j)) as [Hw|Hw];
    destruct (Qltb_spec 0 (qw s i j)) as [Hq|Hq]; cbn.
  2-4: (split; [lra|]; split; [intros; lra | auto]).
  assert (0 < qw s i j / depth s i j)%Q as Hr.
  { apply Qlt_shift_div_l; lra. }
  split; [|split; [reflexivity | intros [?|?]; lra]].
  split.
  - apply Q.min_glb; lra.
  - apply Q.le_min_l.
Qed.

(** ** Routing of the parcels *)

Section Routing.

Context (np_sqrt : Q -> Q) {RNG : Type} (random_pick : list Q -> RNG -> Z * RNG).

Lemma _choose_next_direction_skip inds ww g p :
  inds !! p = Some 0 ->
  (_choose_next_direction RNG random_pick inds ww g).1 !! p = Some 4.
Proof.
  revert g p. induction inds as [|ind inds IH]; intros g p Hp; [discriminate|].
  cbn. destruct p as [|p]; cbn in Hp.
  - injection Hp as ->. cbn.
    destruct (_choose_next_direction RNG random_pick inds ww g); reflexivity.
  - destruct (if negb (ind =? 0) then random_pick (ww ind) g else (4, g))
      as [d g'].
    specialize (IH g' p Hp).
    destruct (_choose_next_direction RNG random_pick inds ww g'); exact IH.
Qed.

Lemma _calculate_new_ind_lookup indices new_cells iwalk jwalk shape p ind q :
  indices !! p = Some ind -> new_cells !! p = Some q ->
  _calculate_new_ind indices new_cells iwalk jwalk shape !! p =
  Some (if q =? 4 then 0
        else custom_ravel
               ((custom_unravel ind shape).1 + getZ jwalk (Z.to_nat q),
                (custom_unravel ind shape).2 + getZ iwalk (Z.to_nat q)) shape).
Proof.
  intros Hi Hq. unfold _calculate_new_ind.
  rewrite lookup_zip_with, Hi; cbn. rewrite Hq; cbn.
  destruct (q =? 4); reflexivity.
Qed.

Lemma check_parcel_same walks L0 shape CTR st p :
  entries (check_parcel np_sqrt walks L0 shape CTR st p) p =
  deflect_entries np_sqrt walks L0 shape CTR p (entries st p).
Proof.
  destruct st as [[ni lp] fl].
  unfold check_parcel, deflect_entries, triggers, positive_walk, entries, getZ.
  cbn. destruct (default 0 (ni !! p) >? 0) eqn:E1; cbn; [|reflexivity].
  destruct (has_repeat_ind _) eqn:E2; cbn; [|reflexivity].
  rewrite !list_lookup_insert_same.
  destruct (ni !! p), (lp !! p), (fl !! p); reflexivity.
Qed.

Lemma check_parcel_other walks L0 shape CTR st p q :
  p <> q ->
  entries (check_parcel np_sqrt walks L0 shape CTR st q) p = entries st p.
Proof.
  intros Hpq. destruct st as [[ni lp] fl]. unfold check_parcel, entries.
  destruct (getZ ni q >? 0); [|reflexivity].
  destruct (has_repeat_ind _); [|reflexivity].
  cbn. rewrite !list_lookup_insert_ne by congruence. reflexivity.
Qed.

Lemma fold_check_parcel_other walks L0 shape CTR ps st p :
  p ∉ ps ->
  entries (fold_left (check_parcel np_sqrt walks L0 shape CTR) ps st) p =
  entries st p.
Proof.
  revert st. induction ps as [|q ps IH]; intros st Hp; [reflexivity|].
  cbn. apply not_elem_of_cons in Hp as [Hq Hp].
  rewrite IH by exact Hp. apply check_parcel_other, Hq.
Qed.

Lemma _check_for_loops_entries walks new_indices _step L0 looped shape CTR flag p :
  entries (_check_for_loops np_sqrt walks new_indices _step L0 looped shape CTR
             flag) p =
  if (_step >? L0) && bool_decide (p < length walks)%nat
  then deflect_entries np_sqrt walks L0 shape CTR p
         (entries (new_indices, looped, flag) p)
  else entries (new_indices, looped, flag) p.
Proof.
  unfold _check_for_loops. destruct (_step >? L0); [|reflexivity].
  cbn [andb]. case_bool_decide as Hp.
  - replace (seq 0 (length walks))
      with (seq 0 p ++ p :: seq (S p) (length walks - S p)).
    2:{ change (p :: seq (S p) (length walks - S p))
          with (seq p (S (length walks - S p))).
        rewrite <- seq_app. f_equal. lia. }
    rewrite fold_left_app. cbn [fold_left].
    rewrite fold_check_parcel_other.
    2:{ rewrite elem_of_seq. lia. }
    rewrite check_parcel_same. f_equal.
    apply fold_check_parcel_other. rewrite elem_of_seq. lia.
  - apply fold_check_parcel_other. rewrite elem_of_seq. lia.
Qed.

Lemma custom_unravel_ravel px py L W :
  0 <= py < W -> custom_unravel (custom_ravel (px, py) (L, W)) (L, W) = (px, py).
Proof.
  intros Hpy. unfold custom_unravel, custom_ravel; cbn. f_equal.
  - rewrite Z.div_add_l by lia. rewrite Z.div_small by lia. lia.
  - rewrite Z.add_comm, Z.mod_add by lia. apply Z.mod_small; lia.
Qed.

Lemma deflect_inside new_ind L0 L W CTR :
  0 <= L0 <= L - 2 -> 3 <= W ->
  let nind := deflect np_sqrt new_ind L0 (L, W) CTR in
  let pxy := custom_unravel nind (L, W) in
  (L0 <= pxy.1 <= L - 2) /\ (1 <= pxy.2 <= W - 2) /\ nind <> 0.
Proof.
  intros HL HW. unfold deflect.
  destruct (custom_unravel new_ind (L, W)) as [px py].
  destruct (if negb (Qeq_bool _ 0) then _ else (px, py)) as [px' py'].
  cbn -[custom_unravel custom_ravel].
  rewrite custom_unravel_ravel by lia. cbn.
  repeat split; try lia. unfold custom_ravel; cbn. nia.
Qed.

(** C5: [_check_for_loops] leaves the new index, the loop counter and the
    free-surface flag of a parcel as they are unless the round [_step] is
    beyond the inlet length [L0], the new index of the parcel is positive
    and the positive entries of its recorded path hold a duplicate.  So a
    duplicate while [_step <= L0] deflects nothing, and a parcel whose
    path never revisits a cell is never deflected, whatever the step. *)
Theorem check_for_loops_unchanged
    walks new_indices _step L0 looped shape CTR flag p :
  let r := _check_for_loops np_sqrt walks new_indices _step L0 looped shape CTR flag in
  let unchanged := entries r p = entries (new_indices, looped, flag) p in
  (~ (L0 < _step /\ 0 < getZ new_indices p /\ ~ NoDup (positive_walk walks p)) ->
   unchanged)
  /\ (_step <= L0 -> unchanged)
  /\ (NoDup (positive_walk walks p) -> unchanged).
Proof.
  intros r unchanged. subst r unchanged.
  rewrite _check_for_loops_entries.
  assert (~ (L0 < _step /\ 0 < getZ new_indices p /\ ~ NoDup (positive_walk walks p)) ->
          (if (_step >? L0) && bool_decide (p < length walks)%nat
           then deflect_entries np_sqrt walks L0 shape CTR p
                  (entries (new_indices, looped, flag) p)
           else entries (new_indices, looped, flag) p)
          = entries (new_indices, looped, flag) p) as H.
  { intros Hn. destruct (Z.gtb_spec _step L0) as [Hs|Hs]; [|reflexivity].
    destruct (bool_decide _); [|reflexivity]. cbn [andb].
    unfold deflect_entries, triggers, entries; cbn.
    fold (getZ new_indices p).
    destruct (Z.gtb_spec (getZ new_indices p) 0) as [Hi|Hi]; [|reflexivity].
    destruct (has_repeat_ind _) eqn:Hr; [|reflexivity].
    exfalso. apply Hn. repeat split; try lia.
    intros Hd. apply has_repeat_ind_false in Hd. congruence. }
  split; [exact H|]. split; intros H'; apply H; intros (? & ? & ?); [lia | tauto].
Qed.

(** C6: on a domain with [0 <= L0 <= L - 2] and [3 <= W], a parcel that
    [_check_for_loops] deflects is sent to an index whose row lies in
    [[L0, L - 2]] and whose column lies in [[1, W - 2]]; that index is
    not 0. *)
Theorem check_for_loops_deflects_inside
    walks new_indices _step L0 looped L W CTR flag p x :
  0 <= L0 <= L - 2 -> 3 <= W ->
  L0 < _step -> new_indices !! p = Some x -> 0 < x ->
  (p < length walks)%nat -> ~ NoDup (positive_walk walks p) ->
  let r := _check_for_loops np_sqrt walks new_indices _step L0 looped (L, W) CTR flag in
  exists nind,
    r.1.1 !! p = Some nind
    /\ nind = deflect np_sqrt x L0 (L, W) CTR
    /\ (L0 <= (custom_unravel nind (L, W)).1 <= L - 2)
    /\ (1 <= (custom_unravel nind (L, W)).2 <= W - 2)
    /\ nind <> 0.
Proof.
  intros HL HW Hs Hx Hpos Hp Hd r.
  pose proof (_check_for_loops_entries walks new_indices _step L0 looped
                (L, W) CTR flag p) as E.
  fold r in E. unfold entries in E.
  replace (_step >? L0) with true in E by (symmetry; apply Z.gtb_lt; lia).
  rewrite bool_decide_eq_true_2 in E by exact Hp. cbn [andb] in E.
  unfold deflect_entries, triggers in E. cbn in E. rewrite Hx in E. cbn in E.
  replace (x >? 0) with true in E by (symmetry; apply Z.gtb_lt; lia).
  destruct (has_repeat_ind _) eqn:Hr.
  2:{ apply has_repeat_ind_false in Hr. contradiction. }
  cbn in E. injection E as E1 _ _.
  exists (deflect np_sqrt x L0 (L, W) CTR). split; [exact E1|]. split; [reflexivity|].
  apply deflect_inside; assumption.
Qed.

(** C7, amended: a parcel whose current index is 0 is given direction 4
    without a draw; the target of every parcel is its position moved by the
    entries of the tables [jwalk] (rows) and [iwalk] (columns) at its
    direction, except that direction 4 gives the index 0. *)
Theorem routing_round_direction_and_target
    inds water_weights g new_cells iwalk jwalk shape p ind q :
  (inds !! p = Some 0 ->
   (_choose_next_direction RNG random_pick inds water_weights g).1 !! p = Some 4)
  /\ (inds !! p = Some ind -> new_cells !! p = Some q ->
      _calculate_new_ind inds new_cells iwalk jwalk shape !! p =
      Some (if q =? 4 then 0
            else custom_ravel
                   ((custom_unravel ind shape).1 + getZ jwalk (Z.to_nat q),
                    (custom_unravel ind shape).2 + getZ iwalk (Z.to_nat q))
                   shape)).
Proof.
  split.
  - apply _choose_next_direction_skip.
  - apply _calculate_new_ind_lookup.
Qed.

End Routing.

(** ** The loop of [run_water_iteration] *)

Section Loop.
Context (np_sqrt : Q -> Q) {RNG : Type} (random_pick : list Q -> RNG -> Z * RNG)
  (get_start_indices : list Z -> list Z -> Z -> RNG -> list Z * RNG)
  (get_steps : list Z -> list Z -> list Z -> list Q * list Z * list Z * list bool)
  (get_weight_sfc_int :
     Q -> list Q -> Q -> Q -> list Q -> list Q -> list Q -> list Q * list Q)
  (get_weight_at_cell :
     Z * Z -> list Q -> list Q -> list Q -> list Z -> Q -> Q -> Q -> list Q).

Local Abbreviation round := (water_round np_sqrt RNG random_pick get_steps).
Local Abbreviation loop := (water_loop np_sqrt RNG random_pick get_steps).
Local Abbreviation runs := (while_run np_sqrt RNG random_pick get_steps).
Local Abbreviation cond := (loop_cond RNG).
Local Abbreviation init :=
  (water_loop_init RNG get_start_indices get_weight_sfc_int get_weight_at_cell).
Local Abbreviation run :=
  (run_water_iteration np_sqrt RNG random_pick get_start_indices get_steps
     get_weight_sfc_int get_weight_at_cell).

Lemma water_round_step c ls ls' :
  round c ls = Some ls' -> _step RNG ls' = _step RNG ls + 1.
Proof.
  unfold water_round.
  destruct (check_size_of_indices_matrix _ _ _) as [s0|]; [|discriminate]. cbn.
  destruct (_choose_next_direction _ _ _ _ _) as [new_direction g].
  destruct (get_steps _ _ _) as [[[dist istep] jstep] astep].
  destruct (_check_for_loops _ _ _ _ _ _ _ _ _) as [[cur lp] fl].
  destruct (check_for_boundary _ _ _) as [[cur' s']|]; [|discriminate]. cbn.
  destruct (set_column _ _ _); [|discriminate]. cbn.
  intros [= <-]. reflexivity.
Qed.

Lemma while_run_deterministic c ls r1 n1 r2 n2 :
  runs c ls r1 n1 -> runs c ls r2 n2 -> r1 = r2 /\ n1 = n2.
Proof.
  intros H1. revert r2 n2.
  induction H1 as [ls Hc|ls Hc Hr|ls ls' r n Hc Hr H1 IH]; intros r2 n2 H2;
    inversion H2 as [? Hc2|? Hc2 Hr2|? ls2 ? ? Hc2 Hr2 Hrest]; subst;
    try congruence; try (split; reflexivity).
  assert (ls2 = ls') as -> by congruence.
  destruct (IH _ _ Hrest) as [-> ->]. split; reflexivity.
Qed.

Lemma water_loop_runs c n ls :
  stepmax c - _step RNG ls <= Z.of_nat n ->
  runs c ls (loop c n ls).1 (loop c n ls).2
  /\ (Z.of_nat (loop c n ls).2 <= Z.max 0 (stepmax c - _step RNG ls)).
Proof.
  revert ls. induction n as [|n IH]; intros ls Hn; cbn.
  - split; [|lia]. apply while_exit. unfold loop_cond.
    replace (_step RNG ls <? stepmax c) with false by (symmetry; apply Z.ltb_ge; lia).
    apply andb_false_r.
  - destruct (cond c ls) eqn:Hc.
    + assert (_step RNG ls < stepmax c) as Hlt.
      { unfold loop_cond in Hc. apply andb_true_iff in Hc as [_ Hc].
        apply Z.ltb_lt in Hc. exact Hc. }
      destruct (round c ls) as [ls'|] eqn:Hr.
      * pose proof (water_round_step _ _ _ Hr) as Hs.
        destruct (IH ls') as [IH1 IH2]; [lia|].
        destruct (loop c n ls') as [r k]. cbn in *.
        split; [eapply while_next; eauto | lia].
      * cbn. split; [apply while_raise; assumption | lia].
    + cbn. split; [apply while_exit; assumption | lia].
Qed.

Lemma water_loop_init_step c s g ls : init c s g = Some ls -> _step RNG ls = 0.
Proof.
  unfold water_loop_init.
  destruct (get_start_indices _ _ _ _) as [start g'].
  destruct (flat_add c (qxn s) start 1); [|discriminate]. cbn.
  destruct (flat_add c _ start _); [|discriminate]. cbn.
  destruct (set_column _ _ _); [|discriminate]. cbn.
  intros [= <-]. reflexivity.
Qed.

(** C9: [run_water_iteration] always ends, by the exit of its loop or by
    an exception, after at most [stepmax] rounds; the outcome and the
    number of rounds are determined by the model, its state and the state
    of the random generator. *)
Theorem run_water_iteration_terminates c s g :
  let res :=
    run_water_iteration np_sqrt RNG random_pick get_start_indices get_steps
      get_weight_sfc_int get_weight_at_cell c s g in
  (res.2 <= Z.to_nat (stepmax c))%nat
  /\ match water_loop_init RNG get_start_indices get_weight_sfc_int
             get_weight_at_cell c s g with
     | Some ls =>
         while_run np_sqrt RNG random_pick get_steps c ls res.1 res.2
         /\ forall r n,
              while_run np_sqrt RNG random_pick get_steps c ls r n ->
              r = res.1 /\ n = res.2
     | None => res = (None, O)
     end.
Proof.
  unfold run_water_iteration.
  destruct (init c s g) as [ls|] eqn:Hi; cbn; [|split; [lia | reflexivity]].
  pose proof (water_loop_init_step _ _ _ _ Hi) as H0.
  destruct (water_loop_runs c (Z.to_nat (stepmax c)) ls) as [H1 H2]; [lia|].
  split; [lia|]. split; [exact H1|].
  intros r n Hr. eapply while_run_deterministic; eauto.
Qed.

End Loop.

(** ** Accumulation of the free surface *)

Section Walks.


Context (shape : Z * Z) (looped : list Z) (cell_type : grid Z)
  (uw ux uy depth : grid Q) (dx u0 h0 H_SL S0 : Q).

Lemma grid_set_eq {A} (g : grid A) i j v i' j' :
  grid_set g i j v i' j' = if bool_decide ((i', j') = (i, j)) then v else g i' j'.
Proof.
  unfold grid_set. case_bool_decide as H.
  - injection H as -> ->. rewrite !Z.eqb_refl. reflexivity.
  - destruct (Z.eqb_spec i' i), (Z.eqb_spec j' j); cbn; try reflexivity.
    subst. contradiction.
Qed.

Lemma visits_snoc cell l c :
  visits cell (l ++ [c]) = (visits cell l + if bool_decide (c = cell) then 1 else 0)%nat.
Proof.
  unfold visits. rewrite List.filter_app, length_app. cbn.
  destruct (bool_decide (c = cell)); reflexivity.
Qed.

Lemma visits_pos cell l : cell ∈ l -> (0 < visits cell l)%nat.
Proof.
  unfold visits. induction l as [|c l IH]; intros Hin.
  - apply elem_of_nil in Hin. contradiction.
  - cbn. case_bool_decide as E; cbn; [lia|].
    apply elem_of_cons in Hin as [->|Hin]; [contradiction | auto].
Qed.

Lemma reverse_seq_S k : reverse (seq 0 (S k)) = k :: reverse (seq 0 k).
Proof. rewrite seq_S, reverse_app. reflexivity. Qed.

Lemma walk_fold_visit (pts : list (Z * Z)) k st i j :
  (k < length pts)%nat ->
  let st' := fold_left (walk_step uw ux uy depth dx u0 h0 S0 (pts.*1) (pts.*2))
               (reverse (seq 0 k)) st in
  (ws_visit st' i j == ws_visit st i j + inject_Z (Z.of_nat (visits (i, j) (take k pts))))%Q
  /\ ((i, j) ∉ take k pts -> ws_sum st' i j = ws_sum st i j).
Proof.
  revert st. induction k as [|k IH]; intros st Hk st'; subst st'.
  - cbn. split; [change (inject_Z _) with 0%Q; lra | reflexivity].
  - rewrite reverse_seq_S. cbn [fold_left].
    destruct (lookup_lt_is_Some_2 pts k) as [[ci cj] Hc]; [lia|].
    destruct (IH (walk_step uw ux uy depth dx u0 h0 S0 (pts.*1) (pts.*2) st k))
      as [IH1 IH2]; [lia|].
    rewrite (take_S_r _ _ _ Hc), visits_snoc.
    assert (getZ (pts.*1) k = ci) as Hi.
    { unfold getZ. rewrite list_lookup_fmap, Hc. reflexivity. }
    assert (getZ (pts.*2) k = cj) as Hj.
    { unfold getZ. rewrite list_lookup_fmap, Hc. reflexivity. }
    split.
    + rewrite IH1. unfold walk_step. rewrite Hi, Hj.
      destruct (if negb _ || negb _ then _ else _) as [io dh]. cbn.
      rewrite grid_set_eq. rewrite Nat2Z.inj_add, inject_Z_plus.
      rewrite (bool_decide_ext ((i, j) = (ci, cj)) ((ci, cj) = (i, j))) by (split; congruence).
      case_bool_decide as E; cbn.
      * injection E as -> ->. change (inject_Z (Z.of_nat 1)) with 1%Q. lra.
      * change (inject_Z (Z.of_nat 0)) with 0%Q. lra.
    + intros Hn. rewrite not_elem_of_app, not_elem_of_cons in Hn.
      destruct Hn as [Hn1 [Hn2 _]]. rewrite IH2 by exact Hn1.
      unfold walk_step. rewrite Hi, Hj.
      destruct (if negb _ || negb _ then _ else _) as [io dh]. cbn.
      rewrite grid_set_eq. rewrite bool_decide_eq_false_2; [reflexivity|].
      congruence.
Qed.


Local Abbreviation levels := (path_levels uw ux uy depth dx u0 h0 H_SL S0).

Lemma last_getZ (xs : list Z) : List.last xs 0 = getZ xs (length xs - 1).
Proof.
  induction xs as [|x xs IH]; [done|].
  destruct xs as [|y xs]; [done|].
  change (List.last (x :: y :: xs) 0) with (List.last (y :: xs) 0). rewrite IH.
  cbn [length]. unfold getZ. replace (S (S (length xs)) - 1)%nat with (S (length xs)) by lia.
  cbn. by rewrite Nat.sub_0_r.
Qed.

Lemma path_levels_cons c c' rest :
  levels (c :: c' :: rest) =
  let r := levels (c' :: rest) in
  let st' := level_step uw ux uy depth dx u0 h0 S0 c c' r.1 in
  (st', (List.hd 0%Q r.2 + st'.2)%Q :: r.2).
Proof.
  change (levels (c :: c' :: rest)) with
    (let '(st, lv) := levels (c' :: rest) in
     let st' := level_step uw ux uy depth dx u0 h0 S0 c c' st in
     (st', (List.hd 0%Q lv + st'.2)%Q :: lv)).
  by destruct (levels (c' :: rest)).
Qed.

Lemma path_levels_length pts : length (levels pts).2 = length pts.
Proof.
  induction pts as [|c rest IH]; [done|].
  destruct rest as [|c' rest]; [done|].
  rewrite path_levels_cons. cbn zeta. cbn [snd length]. by rewrite IH.
Qed.

Lemma path_levels_drop pts k :
  (levels (drop k pts)).2 = drop k (levels pts).2.
Proof.
  revert pts. induction k as [|k IH]; intros pts; [by rewrite !drop_0|].
  destruct pts as [|c rest]; [done|].
  destruct rest as [|c' rest].
  - cbn. by rewrite !drop_nil.
  - rewrite path_levels_cons. cbn zeta. cbn [snd drop]. apply IH.
Qed.

(** The walk up the cells before position [k], from a state that holds
    what the walk down to position [k] leaves. *)
Lemma walk_fold_levels (pts : list (Z * Z)) k st i j :
  (k < length pts)%nat ->
  (in_ocean st, dH st) = (levels (drop k pts)).1 ->
  Hnew st (getZ (pts.*1) k) (getZ (pts.*2) k) = List.hd 0%Q (levels (drop k pts)).2 ->
  let st' := fold_left (walk_step uw ux uy depth dx u0 h0 S0 (pts.*1) (pts.*2))
               (reverse (seq 0 k)) st in
  (ws_sum st' i j ==
   ws_sum st i j
   + Qsum ((List.filter (fun x : Z * Z * Q => bool_decide (x.1 = (i, j)))
              (zip (take k pts) (levels pts).2)).*2))%Q.
Proof.
  revert st. induction k as [|k IH]; intros st Hk Hst Hh st'; subst st'.
  - rewrite take_0. cbn. lra.
  - rewrite reverse_seq_S. cbn [fold_left].
    destruct (lookup_lt_is_Some_2 pts k) as [[ci cj] Hc]; [lia|].
    destruct (lookup_lt_is_Some_2 pts (S k)) as [[ni nj] Hn]; [lia|].
    assert (getZ (pts.*1) k = ci) as Hi.
    { unfold getZ. rewrite list_lookup_fmap, Hc. reflexivity. }
    assert (getZ (pts.*2) k = cj) as Hj.
    { unfold getZ. rewrite list_lookup_fmap, Hc. reflexivity. }
    assert (getZ (pts.*1) (k + 1) = ni) as Hi'.
    { unfold getZ. rewrite Nat.add_1_r, list_lookup_fmap, Hn. reflexivity. }
    assert (getZ (pts.*2) (k + 1) = nj) as Hj'.
    { unfold getZ. rewrite Nat.add_1_r, list_lookup_fmap, Hn. reflexivity. }
    assert (Hdk : drop k pts = (ci, cj) :: drop (S k) pts) by (by apply drop_S).
    assert (HdS : exists rest, drop (S k) pts = (ni, nj) :: rest).
    { exists (drop (S (S k)) pts). by apply drop_S. }
    destruct HdS as (rest & HdS).
    assert (Hlev : levels (drop k pts) =
              let r := levels (drop (S k) pts) in
              let s1 := level_step uw ux uy depth dx u0 h0 S0 (ci, cj) (ni, nj) r.1 in
              (s1, (List.hd 0%Q r.2 + s1.2)%Q :: r.2)).
    { rewrite Hdk, HdS. apply path_levels_cons. }
    cbn zeta in Hlev.
    set (st1 := walk_step uw ux uy depth dx u0 h0 S0 (pts.*1) (pts.*2) st k).
    assert (Hio : (in_ocean st1, dH st1) =
                  level_step uw ux uy depth dx u0 h0 S0 (ci, cj) (ni, nj)
                    (levels (drop (S k) pts)).1).
    { rewrite <- Hst. unfold st1, walk_step, level_step.
      rewrite Hi, Hj, Hi', Hj'. cbn [fst snd].
      destruct (negb (ci =? ni) || negb (cj =? nj)); [|done].
      destruct (in_ocean st).
      - by destruct (_ || _).
      - by destruct (Qeq_bool (uw ci cj) 0). }
    assert (Hh1 : Hnew st1 ci cj = List.hd 0%Q (levels (drop k pts)).2).
    { rewrite Hlev. cbn [snd List.hd]. rewrite <- Hio. cbn [snd].
      unfold st1, walk_step. rewrite Hi, Hj, Hi', Hj'.
      rewrite <- Hh. rewrite <- !(Nat.add_1_r k), Hi', Hj'.
      destruct (if negb _ || negb _ then _ else _) as [io dh]. cbn.
      rewrite grid_set_eq. by rewrite bool_decide_eq_true_2. }
    rewrite (IH st1); [|lia|by rewrite Hio, Hlev|by rewrite Hi, Hj].
    assert (Hlk : (levels pts).2 !! k = Some (Hnew st1 ci cj)).
    { rewrite Hh1, path_levels_drop.
      destruct (lookup_lt_is_Some_2 (levels pts).2 k) as [h Hl].
      { rewrite path_levels_length. lia. }
      rewrite (drop_S _ _ _ Hl). cbn. done. }
    rewrite (take_S_r _ _ _ Hc).
    assert (Hzip : zip (take k pts ++ [(ci, cj)]) (levels pts).2 =
                   zip (take k pts) (levels pts).2 ++ [((ci, cj), Hnew st1 ci cj)]).
    { rewrite <- (take_drop k (levels pts).2) at 1.
      rewrite zip_with_app.
      2:{ rewrite !length_take, path_levels_length. lia. }
      rewrite (drop_S _ _ _ Hlk). cbn [zip_with].
      f_equal. apply zip_with_take_r'. rewrite length_take. lia. }
    rewrite Hzip, List.filter_app, fmap_app.
    assert (Happ : forall l1 l2, (Qsum (l1 ++ l2) == Qsum l1 + Qsum l2)%Q).
    { induction l1 as [|x l1 IHl]; intros l2; cbn; [ring|]. rewrite IHl. ring. }
    rewrite Happ. cbn [List.filter fst].
    assert (Hsum : ws_sum st1 i j =
              if bool_decide ((ci, cj) = (i, j))
              then (ws_sum st ci cj + Hnew st1 ci cj)%Q else ws_sum st i j).
    { unfold st1 at 1. unfold walk_step. rewrite Hi, Hj.
      destruct (if negb _ || negb _ then _ else _) as [io dh] eqn:E. cbn.
      rewrite grid_set_eq.
      rewrite (bool_decide_ext ((i, j) = (ci, cj)) ((ci, cj) = (i, j))) by (split; congruence).
      case_bool_decide as E1; [|done].
      f_equal. unfold st1, walk_step. rewrite Hi, Hj, E. cbn.
      rewrite grid_set_eq. by rewrite bool_decide_eq_true_2. }
    rewrite Hsum. case_bool_decide as E1.
    + injection E1 as -> ->. cbn. ring.
    + cbn. ring.
Qed.

Lemma drop_pred_length {A} (l : list A) :
  l <> [] -> exists c, drop (length l - 1) l = [c].
Proof.
  destruct l as [|x l] using rev_ind; [congruence|]. intros _. exists x.
  rewrite length_app. cbn [length].
  replace (length l + 1 - 1)%nat with (length l) by lia.
  rewrite drop_app_length. reflexivity.
Qed.

Local Abbreviation parcel :=
  (walk_parcel shape looped cell_type uw ux uy depth dx u0 h0 H_SL S0).
Local Abbreviation parcels :=
  (walk_parcels shape looped cell_type uw ux uy depth dx u0 h0 H_SL S0).

Lemma contributes_spec p inds last_ind lp :
  list.last (List.filter (fun x => 0 <? x) inds) = Some last_ind ->
  looped !! p = Some lp ->
  exists b,
    contributes cell_type looped p
      ((fun ind => (custom_unravel ind shape).1) <$> List.filter (fun x => 0 <? x) inds)
      ((fun ind => (custom_unravel ind shape).2) <$> List.filter (fun x => 0 <? x) inds)
    = Some b
    /\ (b = true <-> qualifies shape cell_type looped p inds).
Proof.
  intros Hl Hp. unfold contributes, qualifies. rewrite !fmap_last, Hl, Hp. cbn.
  destruct (Z.eqb_spec (cell_type (last_ind `div` shape.2) (last_ind `mod` shape.2))
              (-1)) as [Hc|Hc].
  - cbn. exists (lp =? 0). split; [reflexivity|]. rewrite Z.eqb_eq. split.
    + intros ->. exists last_ind. auto.
    + intros (l' & _ & _ & [= ->]). reflexivity.
  - exists false. split; [reflexivity|]. split; [discriminate|].
    intros (l' & [= <-] & Hc' & _). contradiction.
Qed.

Lemma walk_parcel_spec acc p inds last_ind lp :
  list.last (List.filter (fun x => 0 <? x) inds) = Some last_ind ->
  looped !! p = Some lp ->
  exists acc',
    parcel acc p inds = Some acc'
    /\ (~ qualifies shape cell_type looped p inds -> acc' = acc)
    /\ (qualifies shape cell_type looped p inds ->
        forall i j,
          (acc'.1 i j ==
             acc.1 i j + inject_Z (Z.of_nat (visits (i, j) (upstream_cells shape inds))))%Q
          /\ ((i, j) ∉ upstream_cells shape inds -> acc'.2 i j = acc.2 i j)
          /\ (acc'.2 i j ==
                acc.2 i j + level_sum (i, j) (path_cells shape inds)
                              (levels (path_cells shape inds)).2)%Q).
Proof.
  intros Hl Hp. destruct (contributes_spec p inds last_ind lp Hl Hp) as (b & Hb & Hq).
  unfold walk_parcel. rewrite Hb. cbn [mbind option_bind]. destruct b.
  - eexists. split; [reflexivity|]. split.
    + intros Hn. exfalso. apply Hn, Hq. reflexivity.
    + intros _ i j.
      set (pts := path_cells shape inds).
      assert (((fun ind => (custom_unravel ind shape).1)
                 <$> List.filter (fun x => 0 <? x) inds) = pts.*1) as ->.
      { unfold pts, path_cells. rewrite <- list_fmap_compose. reflexivity. }
      assert (((fun ind => (custom_unravel ind shape).2)
                 <$> List.filter (fun x => 0 <? x) inds) = pts.*2) as ->.
      { unfold pts, path_cells. rewrite <- list_fmap_compose. reflexivity. }
      rewrite length_fmap. unfold upstream_cells. fold pts.
      assert (length pts - 1 < length pts)%nat as Hk.
      { unfold pts, path_cells. rewrite length_fmap.
        destruct (List.filter _ inds); [discriminate|]. cbn. lia. }
      cbn [fst snd].
      match goal with
      | |- context [fold_left _ _ ?st] =>
          destruct (walk_fold_visit pts _ st i j Hk) as [Hv Hs];
          pose proof (walk_fold_levels pts _ st i j Hk) as Hlv
      end.
      split; [exact Hv|]. split; [exact Hs|].
      destruct (drop_pred_length pts) as (c & Hc).
      { intros E. rewrite E in Hk. cbn in Hk. lia. }
      apply Hlv.
      * rewrite Hc. reflexivity.
      * rewrite Hc. rewrite !last_getZ, !length_fmap. cbn [Hnew].
        rewrite grid_set_eq, bool_decide_eq_true_2; reflexivity.
  - exists acc. split; [reflexivity|]. split; [reflexivity|].
    intros Hn. apply Hq in Hn. discriminate.
Qed.

Lemma walk_parcels_app acc p l1 l2 :
  parcels acc p (l1 ++ l2) =
  parcels acc p l1 ≫= fun acc' => parcels acc' (p + length l1)%nat l2.
Proof.
  revert acc p. induction l1 as [|inds l1 IH]; intros acc p; cbn.
  - rewrite Nat.add_0_r. reflexivity.
  - destruct (parcel acc p inds) as [acc'|]; cbn; [|reflexivity].
    rewrite IH. replace (S p + length l1)%nat with (p + S (length l1))%nat by lia.
    reflexivity.
Qed.


End Walks.

(** ** The flooding correction *)

Ltac case_tests :=
  repeat match goal with
         | |- context [?a <=? ?b] =>
             destruct (Z.leb_spec a b); try (exfalso; lia); cbn [andb]
         | |- context [?a <? ?b] =>
             destruct (Z.ltb_spec a b); try (exfalso; lia); cbn [andb]
         end.

Lemma eight_cases (k : Z) :
  0 <= k < 8 -> k = 0 \/ k = 1 \/ k = 2 \/ k = 3 \/ k = 4 \/ k = 5 \/ k = 6 \/ k = 7.
Proof. lia. Qed.

Lemma build_weight_array_plain La Wa a k i j :
  0 <= k < 8 -> 0 <= i < La -> 0 <= j < Wa ->
  build_weight_array La Wa a false false k i j =
  let i' := i + (nbr k).1 in
  let j' := j + (nbr k).2 in
  if (0 <=? i') && (i' <? La) && (0 <=? j') && (j' <? Wa) then a i' j' else 0%Q.
Proof.
  intros Hk Hi Hj. unfold build_weight_array, set_block.
  destruct (eight_cases k Hk) as [->|[->|[->|[->|[->|[->|[->| ->]]]]]]]; cbn;
    case_tests; reflexivity || (f_equal; lia).
Qed.

Lemma copy_column_hit La k dst src w i :
  0 <= i < La -> copy_column La k dst src w k i dst = w k i src.
Proof.
  intros Hi. unfold copy_column, set_block. rewrite Z.eqb_refl.
  rewrite !(proj2 (Z.leb_le _ _)), !(proj2 (Z.ltb_lt _ _)) by lia. reflexivity.
Qed.

Lemma copy_column_miss La k dst src w k' i j :
  k' <> k \/ j <> dst -> copy_column La k dst src w k' i j = w k' i j.
Proof.
  intros Hn. unfold copy_column, set_block.
  destruct (Z.eqb_spec k' k), (Z.leb_spec 0 i), (Z.ltb_spec i La),
    (Z.leb_spec dst j), (Z.ltb_spec j (dst + 1)); cbn; try reflexivity. lia.
Qed.

Lemma copy_row_hit Wa k dst src w j :
  0 <= j < Wa -> copy_row Wa k dst src w k dst j = w k src j.
Proof.
  intros Hj. unfold copy_row, set_block. rewrite Z.eqb_refl.
  rewrite !(proj2 (Z.leb_le _ _)), !(proj2 (Z.ltb_lt _ _)) by lia. reflexivity.
Qed.

Lemma copy_row_miss Wa k dst src w k' i j :
  k' <> k \/ i <> dst -> copy_row Wa k dst src w k' i j = w k' i j.
Proof.
  intros Hn. unfold copy_row, set_block.
  destruct (Z.eqb_spec k' k), (Z.leb_spec dst i), (Z.ltb_spec i (dst + 1)),
    (Z.leb_spec 0 j), (Z.ltb_spec j Wa); cbn; try reflexivity. lia.
Qed.

Lemma three_cases n x :
  2 <= n -> 0 <= x < n -> x = 0 \/ 0 < x < n - 1 \/ x = n - 1.
Proof. lia. Qed.

Ltac copy_step :=
  first [ rewrite copy_row_miss by lia
        | rewrite copy_column_miss by lia
        | rewrite copy_row_hit by lia
        | rewrite copy_column_hit by lia ].

Lemma build_weight_array_fix La Wa a k i j :
  2 <= La -> 2 <= Wa -> 0 <= k < 8 -> 0 <= i < La -> 0 <= j < Wa ->
  build_weight_array La Wa a true false k i j =
  a (clamp 0 (La - 1) (i + (nbr k).1)) (clamp 0 (Wa - 1) (j + (nbr k).2)).
Proof.
  intros HL HW Hk Hi Hj.
  assert (forall i' j', 0 <= i' < La -> 0 <= j' < Wa ->
          build_weight_array La Wa a false false k i' j' =
          let i'' := i' + (nbr k).1 in
          let j'' := j' + (nbr k).2 in
          if (0 <=? i'') && (i'' <? La) && (0 <=? j'') && (j'' <? Wa)
          then a i'' j'' else 0%Q) as Hplain.
  { intros. apply build_weight_array_plain; assumption. }
  unfold build_weight_array in *. cbv zeta in *.
  destruct (eight_cases k Hk) as [->|[->|[->|[->|[->|[->|[->| ->]]]]]]];
    destruct (three_cases La i HL Hi) as [Ei|[Ei|Ei]];
    destruct (three_cases Wa j HW Hj) as [Ej|[Ej|Ej]];
    subst; repeat copy_step; rewrite Hplain by lia; cbn [nbr fst snd];
    unfold clamp; case_tests; f_equal; lia.
Qed.

Lemma elem_of_cells L W i j : (i, j) ∈ cells L W <-> 0 <= i < L /\ 0 <= j < W.
Proof.
  unfold cells. rewrite list_elem_of_bind. split.
  - intros (i' & Hj & Hi). apply list_elem_of_fmap in Hj as (j' & [= -> ->] & Hj).
    apply elem_of_seqZ in Hi, Hj. lia.
  - intros [Hi Hj]. exists i. split.
    + apply list_elem_of_fmap. exists j. split; [reflexivity|].
      apply elem_of_seqZ. lia.
    + apply elem_of_seqZ. lia.
Qed.

Lemma Qmaximum_ge x l :
  (x <= Qmaximum x l)%Q /\ Forall (fun y => (y <= Qmaximum x l)%Q) l.
Proof.
  revert x. induction l as [|y l IH]; intros x; cbn.
  - split; [lra | constructor].
  - destruct (Qltb_spec x y) as [H|H].
    + destruct (IH y) as [H1 H2]. split; [lra|]. constructor; assumption.
    + destruct (IH x) as [H1 H2]. split; [lra|]. constructor; [lra | assumption].
Qed.

Lemma Qmaximum_in x l : Qmaximum x l ∈ x :: l.
Proof.
  revert x. induction l as [|y l IH]; intros x; cbn.
  - apply list_elem_of_here.
  - destruct (Qltb x y).
    + apply list_elem_of_further, IH.
    + specialize (IH x). apply elem_of_cons in IH as [->|IH].
      * apply list_elem_of_here.
      * do 2 apply list_elem_of_further. exact IH.
Qed.

Lemma py_max_spec l :
  l <> [] -> py_max l ∈ l /\ forall y, y ∈ l -> (y <= py_max l)%Q.
Proof.
  destruct l as [|x l]; [congruence|]. intros _. cbn. split.
  - apply Qmaximum_in.
  - intros y Hy. destruct (Qmaximum_ge x l) as [H1 H2].
    apply elem_of_cons in Hy as [->|Hy]; [exact H1|].
    rewrite list.Forall_forall in H2. apply H2, Hy.
Qed.

Lemma existsb_elem_of {A} (f : A -> bool) l :
  existsb f l = true <-> exists x, x ∈ l /\ f x = true.
Proof.
  rewrite existsb_exists. split; intros (x & H1 & H2); exists x;
    (split; [apply list_elem_of_In; exact H1 | exact H2]).
Qed.

Lemma Qsum_nonneg l : Forall (fun x => (0 <= x)%Q) l -> (0 <= Qsum l)%Q.
Proof. induction 1; cbn; lra. Qed.

Lemma Qsum_pos_elem l :
  Forall (fun x => (0 <= x)%Q) l -> (0 < Qsum l)%Q -> exists x, x ∈ l /\ (0 < x)%Q.
Proof.
  induction 1 as [|x l Hx Hl IH]; cbn; intros Hs; [lra|].
  destruct (Qlt_le_dec 0 x) as [Hp|Hp].
  - exists x. split; [apply list_elem_of_here | exact Hp].
  - destruct IH as (y & Hy & Hy'); [lra|]. exists y.
    split; [apply list_elem_of_further, Hy | exact Hy'].
Qed.

Lemma Qsum_elem_pos l x :
  Forall (fun x => (0 <= x)%Q) l -> x ∈ l -> (0 < x)%Q -> (0 < Qsum l)%Q.
Proof.
  induction 1 as [|y l Hy Hl IH]; cbn; intros Hin Hx.
  - apply elem_of_nil in Hin. contradiction.
  - pose proof (Qsum_nonneg l Hl). apply elem_of_cons in Hin as [->|Hin]; [lra|].
    specialize (IH Hin Hx). lra.
Qed.

(** The stage after the flooding correction, cell by cell. *)
Lemma fold_set_stage (P : Z * Z -> bool) (V : Z * Z -> Q) l s i j :
  stage (fold_left
           (fun s ij => if P ij
                        then set_stage (grid_set (stage s) ij.1 ij.2 (V ij)) s
                        else s) l s) i j =
  if bool_decide ((i, j) ∈ l) && P (i, j) then V (i, j) else stage s i j.
Proof.
  revert s. induction l as [|[a b] l IH]; intros s; [reflexivity|].
  cbn [fold_left]. rewrite IH. clear IH.
  destruct (decide ((i, j) ∈ l)) as [Hin|Hin].
  - rewrite !bool_decide_eq_true_2; [|apply list_elem_of_further, Hin|exact Hin].
    cbn [andb]. destruct (P (i, j)) eqn:Hij; [reflexivity|].
    destruct (P (a, b)) eqn:Hab; [|reflexivity]. cbn.
    (* here (a, b) is not (i, j) since P differs *)
    unfold grid_set. destruct (Z.eqb_spec i a), (Z.eqb_spec j b); cbn; try reflexivity.
    subst. cbn in *. congruence.
  - rewrite (bool_decide_eq_false_2 _ Hin). cbn [andb].
    destruct (decide ((i, j) = (a, b))) as [[= -> ->]|Hne].
    + rewrite bool_decide_eq_true_2 by apply list_elem_of_here. cbn [andb].
      destruct (P (a, b)); [|reflexivity]. cbn. unfold grid_set.
      rewrite !Z.eqb_refl. reflexivity.
    + rewrite bool_decide_eq_false_2.
      2:{ intros H. apply elem_of_cons in H as [H|H]; contradiction. }
      cbn [andb]. destruct (P (a, b)); [|reflexivity]. cbn. unfold grid_set.
      destruct (Z.eqb_spec i a), (Z.eqb_spec j b); cbn; try reflexivity.
      subst. contradiction.
Qed.

Lemma flooding_correction_stage c s i j :
  stage (flooding_correction c s) i j =
  let nh := stage_nh (get_wet_mask_nh c s)
              (build_weight_array (L c) (W c) (stage s) false false) i j in
  if bool_decide ((i, j) ∈ shore_ind c s)
     && existsb (fun v => Qltb (eta c i j) v) nh
  then py_max nh else stage s i j.
Proof.
  unfold flooding_correction.
  exact (fold_set_stage
           (fun ij => existsb (fun v => Qltb (eta c ij.1 ij.2) v)
                        (stage_nh (get_wet_mask_nh c s)
                           (build_weight_array (L c) (W c) (stage s) false false)
                           ij.1 ij.2))
           (fun ij => py_max (stage_nh (get_wet_mask_nh c s)
                                (build_weight_array (L c) (W c) (stage s) false false)
                                ij.1 ij.2))
           (shore_ind c s) s i j).
Qed.

Section Flooding.

Context (c : Config) (s : State).
Hypothesis HL : 2 <= L c.
Hypothesis HW : 2 <= W c.

Local Abbreviation wetQ :=
  (fun i j => if wet_mask c s i j then 1%Q else 0%Q).
Local Abbreviation mask := (get_wet_mask_nh c s).
Local Abbreviation stage_nhs :=
  (build_weight_array (L c) (W c) (stage s) false false).

Lemma wet_mask_true i j : wet_mask c s i j = true <-> (dry_depth c < depth s i j)%Q.
Proof. apply Qltb_true. Qed.

Lemma mask_value k i j :
  0 <= k < 8 -> in_grid c i j ->
  mask k i j =
  wetQ (clamp 0 (L c - 1) (i + (nbr k).1)) (clamp 0 (W c - 1) (j + (nbr k).2)).
Proof.
  intros Hk [Hi Hj]. unfold get_wet_mask_nh.
  rewrite build_weight_array_fix by assumption. reflexivity.
Qed.

Lemma mask_nonneg k i j : 0 <= k < 8 -> in_grid c i j -> (0 <= mask k i j)%Q.
Proof.
  intros Hk Hg. rewrite mask_value by assumption.
  destruct (wet_mask c s _ _); lra.
Qed.

Lemma elem_of_planes (f : Z -> Q) v :
  v ∈ f <$> seqZ 0 8 <-> exists k, 0 <= k < 8 /\ v = f k.
Proof.
  rewrite list_elem_of_fmap. split; intros (k & H1 & H2); exists k.
  - apply elem_of_seqZ in H2. split; [lia | exact H1].
  - split; [exact H2 | apply elem_of_seqZ; lia].
Qed.

(** The entry of [stage_nh] for direction [k]: the stage of the neighbour
    when it is a wet cell of the grid, and zero otherwise. *)
Lemma stage_nh_entry k i j :
  0 <= k < 8 -> in_grid c i j ->
  let n := (i + (nbr k).1, j + (nbr k).2) in
  let v := (mask k i j * stage_nhs k i j)%Q in
  (in_grid c n.1 n.2 /\ (dry_depth c < depth s n.1 n.2)%Q /\ (v == stage s n.1 n.2)%Q)
  \/ (~ (in_grid c n.1 n.2 /\ (dry_depth c < depth s n.1 n.2)%Q) /\ (v == 0)%Q).
Proof.
  intros Hk Hg n v. subst v. destruct Hg as [Hi Hj].
  rewrite mask_value by (unfold in_grid; auto).
  rewrite build_weight_array_plain by assumption. cbn zeta.
  subst n. cbn [fst snd]. unfold in_grid.
  set (i' := i + (nbr k).1). set (j' := j + (nbr k).2).
  destruct (Z.leb_spec 0 i'), (Z.ltb_spec i' (L c)), (Z.leb_spec 0 j'),
    (Z.ltb_spec j' (W c)); cbn [andb].
  2-16: (right; split; [intros [? _]; lia | lra]).
  unfold clamp. rewrite !Z.max_r, !Z.min_r by lia.
  destruct (wet_mask c s i' j') eqn:E.
  - left. apply wet_mask_true in E. repeat split; try lia; try assumption. lra.
  - right. split; [|lra]. intros [_ Hw]. apply wet_mask_true in Hw. congruence.
Qed.

Lemma stage_nh_elem v i j :
  v ∈ stage_nh mask stage_nhs i j <->
  exists k, 0 <= k < 8 /\ v = (mask k i j * stage_nhs k i j)%Q.
Proof. unfold stage_nh. apply elem_of_planes. Qed.

Lemma wet_neighbour_entry i j n :
  in_grid c i j -> wet_neighbour c s i j n ->
  exists v, v ∈ stage_nh mask stage_nhs i j /\ (v == stage s n.1 n.2)%Q.
Proof.
  intros Hg ((k & Hk & ->) & Hn & Hw).
  exists (mask k i j * stage_nhs k i j)%Q. split.
  - apply stage_nh_elem. eauto.
  - destruct (stage_nh_entry k i j Hk Hg) as [(_ & _ & E)|[Hno _]]; [exact E|].
    exfalso. apply Hno. split; assumption.
Qed.

Lemma entry_cases v i j :
  in_grid c i j -> v ∈ stage_nh mask stage_nhs i j ->
  (exists n, wet_neighbour c s i j n /\ (v == stage s n.1 n.2)%Q) \/ (v == 0)%Q.
Proof.
  intros Hg Hv. apply stage_nh_elem in Hv as (k & Hk & ->).
  destruct (stage_nh_entry k i j Hk Hg) as [(Hn & Hw & E)|[_ E]]; [left|right; exact E].
  exists (i + (nbr k).1, j + (nbr k).2). split; [|exact E].
  split; [eauto|]. split; assumption.
Qed.

(** The test of the correction at a cell with a wet neighbour, when the bed
    of the cell or the stage of its wet neighbours is not below zero: some
    wet neighbour stands above the bed. *)
Lemma flood_test_iff i j :
  in_grid c i j -> (exists n, wet_neighbour c s i j n) ->
  (0 <= eta c i j)%Q
  \/ (forall n, wet_neighbour c s i j n -> (0 <= stage s n.1 n.2)%Q) ->
  existsb (fun v => Qltb (eta c i j) v) (stage_nh mask stage_nhs i j) = true <->
  exists n, wet_neighbour c s i j n /\ (eta c i j < stage s n.1 n.2)%Q.
Proof.
  intros Hg (n0 & Hn0) Hz. rewrite existsb_elem_of. split.
  - intros (v & Hv & Hlt). apply Qltb_true in Hlt.
    destruct (entry_cases v i j Hg Hv) as [(n & Hn & E)|E].
    + exists n. split; [exact Hn|]. rewrite <- E. exact Hlt.
    + rewrite E in Hlt. destruct Hz as [Hz|Hz]; [lra|].
      exists n0. split; [exact Hn0|]. specialize (Hz n0 Hn0). lra.
  - intros (n & Hn & Hlt). destruct (wet_neighbour_entry i j n Hg Hn) as (v & Hv & E).
    exists v. split; [exact Hv|]. apply Qltb_true. rewrite E. exact Hlt.
Qed.

(** The value assigned by the correction, when its test holds. *)
Lemma flood_value i j :
  in_grid c i j ->
  (0 <= eta c i j)%Q
  \/ (forall n, wet_neighbour c s i j n -> (0 <= stage s n.1 n.2)%Q) ->
  (exists n, wet_neighbour c s i j n /\ (eta c i j < stage s n.1 n.2)%Q) ->
  let m := py_max (stage_nh mask stage_nhs i j) in
  (exists n, wet_neighbour c s i j n /\ (m == stage s n.1 n.2)%Q)
  /\ (forall n, wet_neighbour c s i j n -> (stage s n.1 n.2 <= m)%Q)
  /\ (eta c i j < m)%Q.
Proof.
  intros Hg Hz (n0 & Hn0 & Hlt) m.
  destruct (py_max_spec (stage_nh mask stage_nhs i j)) as [Hin Hmax].
  { unfold stage_nh. discriminate. }
  fold m in Hin, Hmax.
  assert (forall n, wet_neighbour c s i j n -> (stage s n.1 n.2 <= m)%Q) as Hub.
  { intros n Hn. destruct (wet_neighbour_entry i j n Hg Hn) as (v & Hv & E).
    rewrite <- E. apply Hmax, Hv. }
  assert (eta c i j < m)%Q as Hm by (specialize (Hub n0 Hn0); lra).
  split; [|split; assumption].
  destruct (entry_cases m i j Hg Hin) as [H|E]; [exact H|].
  destruct Hz as [Hz|Hz]; [rewrite E in Hm; lra|].
  exists n0. split; [exact Hn0|].
  specialize (Hz n0 Hn0). specialize (Hub n0 Hn0). rewrite E in *. lra.
Qed.

Lemma mask_sum_elems i j :
  in_grid c i j ->
  Forall (fun x => (0 <= x)%Q) ((fun k => mask k i j) <$> seqZ 0 8).
Proof.
  intros Hg. apply list.Forall_forall. intros x Hx.
  apply elem_of_planes in Hx as (k & Hk & ->). apply mask_nonneg; assumption.
Qed.

Lemma elem_of_shore_ind i j :
  (i, j) ∈ shore_ind c s <->
  in_grid c i j /\ wet_mask c s i j = false
  /\ (0 < Qsum ((fun k => mask k i j) <$> seqZ 0 8))%Q.
Proof.
  unfold shore_ind. rewrite list_elem_of_In, List.filter_In, <- list_elem_of_In.
  rewrite elem_of_cells. unfold where_set, in_grid. cbn [fst snd].
  destruct (wet_mask c s i j).
  - split; [intros [_ H]; discriminate | intros (_ & H & _); discriminate].
  - rewrite Qltb_true. tauto.
Qed.

Lemma shore_has_wet_neighbour i j :
  (i, j) ∈ shore_ind c s -> exists n, wet_neighbour c s i j n.
Proof.
  intros (Hg & Hdry & Hsum)%elem_of_shore_ind.
  apply Qsum_pos_elem in Hsum as (x & Hx & Hpos); [|apply mask_sum_elems, Hg].
  apply elem_of_planes in Hx as (k & Hk & ->).
  rewrite mask_value in Hpos by assumption.
  set (i' := clamp 0 (L c - 1) (i + (nbr k).1)) in *.
  set (j' := clamp 0 (W c - 1) (j + (nbr k).2)) in *.
  destruct (wet_mask c s i' j') eqn:Hw; [|lra].
  assert ((i', j') <> (i, j)) as Hne by (intros [= E1 E2]; congruence).
  destruct Hg as [Hi Hj].
  assert (i - 1 <= i' <= i + 1 /\ j - 1 <= j' <= j + 1 /\ 0 <= i' < L c /\ 0 <= j' < W c)
    as (Hi1 & Hj1 & Hi2 & Hj2).
  { subst i' j'. unfold clamp.
    destruct (eight_cases k Hk) as [->|[->|[->|[->|[->|[->|[->| ->]]]]]]]; cbn; lia. }
  exists (i', j'). split; [|split; [split; assumption | apply wet_mask_true, Hw]].
  clearbody i' j'.
  assert (i' = i - 1 \/ i' = i \/ i' = i + 1) as Hci by lia.
  assert (j' = j - 1 \/ j' = j \/ j' = j + 1) as Hcj by lia.
  destruct Hci as [->|[->| ->]], Hcj as [->|[->| ->]].
  - exists 3. split; [lia|]. cbn. f_equal; lia.
  - exists 2. split; [lia|]. cbn. f_equal; lia.
  - exists 1. split; [lia|]. cbn. f_equal; lia.
  - exists 4. split; [lia|]. cbn. f_equal; lia.
  - contradiction.
  - exists 0. split; [lia|]. cbn. f_equal; lia.
  - exists 5. split; [lia|]. cbn. f_equal; lia.
  - exists 6. split; [lia|]. cbn. f_equal; lia.
  - exists 7. split; [lia|]. cbn. f_equal; lia.
Qed.

Lemma wet_neighbour_shore i j n :
  in_grid c i j -> (depth s i j <= dry_depth c)%Q -> wet_neighbour c s i j n ->
  (i, j) ∈ shore_ind c s.
Proof.
  intros Hg Hdry ((k & Hk & ->) & [Hn1 Hn2] & Hw). cbn [fst snd] in *.
  apply elem_of_shore_ind. split; [exact Hg|]. split.
  - apply Qltb_false, Hdry.
  - apply (Qsum_elem_pos _ (mask k i j)).
    + apply mask_sum_elems, Hg.
    + apply elem_of_planes. eauto.
    + rewrite mask_value by assumption. unfold clamp.
      rewrite !Z.max_r, !Z.min_r by lia.
      apply wet_mask_true in Hw. rewrite Hw. lra.
Qed.

End Flooding.


(** C3, amended: on a grid of at least two rows and two columns,
    [flooding_correction] changes the stage of a cell only when the cell is
    dry and has a wet neighbour.  At a dry cell of the grid whose bed is
    not below zero, or whose wet neighbours do not stand below zero, the
    stage is reassigned exactly when the stage of some wet neighbour
    exceeds the bed elevation; it then becomes the maximum of the stages
    of the wet neighbours, which lies above the bed elevation.  The stage
    of such a cell is not lowered when it did not exceed the bed
    elevation. *)
Theorem flooding_correction_effect c s i j :
  2 <= L c -> 2 <= W c ->
  let s' := flooding_correction c s in
  let floods :=
    exists n, wet_neighbour c s i j n /\ (eta c i j < stage s n.1 n.2)%Q in
  (stage s' i j <> stage s i j ->
   in_grid c i j /\ (depth s i j <= dry_depth c)%Q
   /\ exists n, wet_neighbour c s i j n)
  /\ (in_grid c i j -> (depth s i j <= dry_depth c)%Q ->
      (0 <= eta c i j)%Q
      \/ (forall n, wet_neighbour c s i j n -> (0 <= stage s n.1 n.2)%Q) ->
      (floods ->
       (exists n, wet_neighbour c s i j n /\ (stage s' i j == stage s n.1 n.2)%Q)
       /\ (forall n, wet_neighbour c s i j n -> (stage s n.1 n.2 <= stage s' i j)%Q)
       /\ (eta c i j < stage s' i j)%Q)
      /\ (~ floods -> stage s' i j = stage s i j)
      /\ ((stage s i j <= eta c i j)%Q -> (stage s i j <= stage s' i j)%Q)).
Proof.
  intros HL HW s' floods. subst s' floods.
  rewrite flooding_correction_stage. cbn zeta.
  split.
  - destruct (bool_decide_reflect ((i, j) ∈ shore_ind c s)) as [Hin|Hin];
      [|intros H; contradiction].
    intros _. pose proof (shore_has_wet_neighbour c s HL HW i j Hin) as Hn.
    apply elem_of_shore_ind in Hin as (Hg & Hdry & _); [|assumption..].
    split; [exact Hg|]. split; [apply Qltb_false, Hdry | exact Hn].
  - intros Hg Hdry Hz.
    destruct (bool_decide_reflect ((i, j) ∈ shore_ind c s)) as [Hin|Hin].
    + pose proof (shore_has_wet_neighbour c s HL HW i j Hin) as Hn.
      pose proof (flood_test_iff c s HL HW i j Hg Hn Hz) as Ht.
      cbn [andb]. destruct (existsb _ _).
      * assert (exists n, wet_neighbour c s i j n
                          /\ (eta c i j < stage s n.1 n.2)%Q) as Hf
          by (apply Ht; reflexivity).
        pose proof (flood_value c s HL HW i j Hg Hz Hf) as (H1 & H2 & H3).
        split; [intros _; auto|]. split; [intros Hno; contradiction|].
        intros Hle. lra.
      * split; [|split; [reflexivity | intros _; lra]].
        intros Hf. apply Ht in Hf. discriminate.
    + cbn [andb]. split; [|split; [reflexivity | intros _; lra]].
      intros (n & Hn & _). exfalso. apply Hin.
      eapply wet_neighbour_shore; eauto.
Qed.

(** Below zero the test of the correction can pass on the zeros that stand
    for the neighbours that are dry or outside of the grid: the dry cell of
    the sunken model, with its bed at -1/2 and its three wet neighbours at
    -1, is set to 0. *)
Lemma flooding_correction_zero_entry :
  let c := Examples.sunken_config in
  let s := Examples.sunken_state in
  Qeq (stage (flooding_correction c s) 0 0) 0
  /\ Qlt (eta c 0 0) 0
  /\ Forall (fun n => Qlt (stage s n.1 n.2) (eta c 0 0)) [(0, 1); (1, 0); (1, 1)].
Proof.
  vm_compute. repeat constructor.
Qed.

(** The correction lowers the stage of the dry cell of the shore model. *)
Lemma flooding_correction_lowers_a_stage :
  Qlt (stage (flooding_correction Examples.shore_config Examples.shore_state) 0 0)
      (stage Examples.shore_state 0 0).
Proof. vm_compute. reflexivity. Qed.

(** ** Finalization of the free surface *)

(** C2, amended: on the first iteration [finalize_free_surface] skips the
    relaxation.  The smoothed surface [Hsmth] is not stored: the call is
    the flooding correction of the stage it was given, so that every cell
    but the dry cells with a wet neighbour keeps its stage. *)
Theorem finalize_free_surface_first_iteration c s :
  _time_iter c = 0 ->
  finalize_free_surface c s = flooding_correction c s
  /\ forall i j, (i, j) ∉ shore_ind c s ->
       stage (finalize_free_surface c s) i j = stage s i j.
Proof.
  intros H0. unfold finalize_free_surface. rewrite H0. cbn.
  split; [reflexivity|]. intros i j Hn.
  rewrite flooding_correction_stage. cbn zeta.
  rewrite bool_decide_eq_false_2 by exact Hn. reflexivity.
Qed.

(** On the first iteration of the basin model the stage of cell [(0, 0)]
    after the call is not the smoothed surface. *)
Lemma first_iteration_stage_is_not_Hsmth :
  _time_iter Examples.basin_config = 0
  /\ ~ Qeq (stage (finalize_free_surface Examples.basin_config
                     Examples.basin_state) 0 0)
           (smoothed_surface Examples.basin_config Examples.basin_state 0 0).
Proof.
  split; [reflexivity|]. vm_compute. discriminate.
Qed.

(** ** Smoothing of the free surface *)

Lemma smooth_cell_Csmooth_1 ct pct st ij i j :
  ((smooth_cell ct pct 1 st ij).1 i j == st.1 i j)%Q.
Proof.
  destruct st as [Htemp Hpad], ij as [a b]. unfold smooth_cell.
  destruct (ct a b >? -2); [|reflexivity].
  cbv zeta. destruct (_ >? 0); [|reflexivity].
  cbn [fst]. rewrite grid_set_eq. case_bool_decide as E; [|reflexivity].
  injection E as -> ->. unfold Qdiv. ring.
Qed.

Lemma smooth_pass_Csmooth_1 Ls Ws ct pct st i j :
  ((smooth_pass Ls Ws ct pct 1 st).1 i j == st.1 i j)%Q.
Proof.
  unfold smooth_pass. generalize (cells Ls Ws) as l. intros l. revert st.
  induction l as [|ij l IH]; intros st; [reflexivity|].
  cbn [fold_left]. rewrite IH. apply smooth_cell_Csmooth_1.
Qed.

(** With [Csmooth = 1] no number of passes changes the value of a cell. *)
Lemma _smooth_free_surface_Csmooth_1 Ls Ws Hnew Hnew_pad ct pct Nsmooth i j :
  (_smooth_free_surface Ls Ws Hnew Hnew_pad ct pct Nsmooth 1 i j == Hnew i j)%Q.
Proof.
  unfold _smooth_free_surface.
  induction (Z.to_nat Nsmooth) as [|n IH]; [reflexivity|].
  cbn [Nat.iter]. eapply Qeq_trans; [apply smooth_pass_Csmooth_1 | exact IH].
Qed.

Lemma filter_nonpositive l :
  Forall (fun v => (v <= 0)%Q) l -> List.filter (Qltb 0) l = [].
Proof.
  induction 1 as [|v l Hv _ IH]; [reflexivity|]. cbn.
  rewrite (proj2 (Qltb_false 0 v) Hv). exact IH.
Qed.

Section NoNeighbour.

Context (ct pct : grid Z) (Csmooth : Q) (Hpad0 : grid Q) (i j : Z).

(** Every neighbour of the cell [(i, j)] in the padded arrays is a deep
    wall or holds no positive value. *)
Hypothesis Hnone :
  forall p q, 0 <= p <= 2 -> 0 <= q <= 2 -> (p, q) <> (1, 1) ->
    pct (i + p) (j + q) = -2 \/ Qle (Hpad0 (i + p) (j + q)) 0.

Lemma smooth_cell_faded st ab :
  faded Hpad0 st.2 -> faded Hpad0 (smooth_cell ct pct Csmooth st ab).2.
Proof.
  destruct st as [Htemp Hpad], ab as [a b]. cbn [snd]. intros Hf.
  unfold smooth_cell. destruct (ct a b >? -2); [|exact Hf].
  cbv zeta.
  assert (faded Hpad0 (grid_set Hpad (a + 1) (b + 1) 0%Q)) as Hf'.
  { intros x y. rewrite grid_set_eq. case_bool_decide; [right; reflexivity | apply Hf]. }
  destruct (_ >? 0); exact Hf'.
Qed.

Lemma smooth_cell_keeps st ab :
  faded Hpad0 st.2 -> (smooth_cell ct pct Csmooth st ab).1 i j = st.1 i j.
Proof.
  destruct st as [Htemp Hpad], ab as [a b]. cbn [fst snd]. intros Hf.
  unfold smooth_cell. destruct (ct a b >? -2); [|reflexivity].
  cbv zeta.
  destruct (decide ((a, b) = (i, j))) as [[= -> ->]|Hne].
  - rewrite filter_nonpositive; [reflexivity|].
    assert (forall p q, 0 <= p <= 2 -> 0 <= q <= 2 ->
              Qle (if pct (i + p) (j + q) =? -2 then 0%Q
                   else grid_set Hpad (i + 1) (j + 1) 0%Q (i + p) (j + q)) 0) as He.
    { intros p q Hp Hq. destruct (Z.eqb_spec (pct (i + p) (j + q)) (-2)); [lra|].
      rewrite grid_set_eq. case_bool_decide as E; [lra|].
      destruct (Hnone p q Hp Hq) as [Hw|Hz]; [|congruence|].
      { intros [= -> ->]. contradiction. }
      destruct (Hf (i + p) (j + q)) as [-> | ->]; [exact Hz | lra]. }
    unfold window. cbn.
    repeat (constructor; [apply He; lia|]). constructor.
  - destruct (_ >? 0); [|reflexivity]. cbn [fst].
    rewrite grid_set_eq. rewrite bool_decide_eq_false_2; [reflexivity|]. congruence.
Qed.

Lemma smooth_pass_keeps Ls Ws st :
  faded Hpad0 st.2 ->
  faded Hpad0 (smooth_pass Ls Ws ct pct Csmooth st).2
  /\ (smooth_pass Ls Ws ct pct Csmooth st).1 i j = st.1 i j.
Proof.
  unfold smooth_pass. generalize (cells Ls Ws) as l. intros l. revert st.
  induction l as [|ab l IH]; intros st Hf; [split; [exact Hf | reflexivity]|].
  cbn [fold_left].
  destruct (IH (smooth_cell ct pct Csmooth st ab)) as [H1 H2];
    [apply smooth_cell_faded, Hf|].
  split; [exact H1|]. rewrite H2. apply smooth_cell_keeps, Hf.
Qed.

(** A cell without a qualifying neighbour keeps its value, whatever the
    number of passes. *)
Lemma _smooth_free_surface_no_neighbour Ls Ws Hnew Nsmooth :
  _smooth_free_surface Ls Ws Hnew Hpad0 ct pct Nsmooth Csmooth i j = Hnew i j.
Proof.
  unfold _smooth_free_surface.
  induction (Z.to_nat Nsmooth) as [|n IH]; [reflexivity|].
  assert (faded Hpad0
            (Nat.iter n (smooth_pass Ls Ws ct pct Csmooth) (Hnew, Hpad0)).2) as Hf.
  { clear IH. induction n as [|n IHn]; [intros x y; left; reflexivity|].
    exact (proj1 (smooth_pass_keeps Ls Ws _ IHn)). }
  destruct (smooth_pass_keeps Ls Ws _ Hf) as [_ H2].
  etransitivity; [exact H2 | exact IH].
Qed.

End NoNeighbour.

(** C4, on the ramp of nine cells with [Csmooth = 0]: the eight neighbours
    of the centre all qualify and their mean is 5, but one pass leaves
    15/2 there, the mean of the four neighbours that the scan has not yet
    reached; the write [Hnew_ind[1, 1] = 0] has set the other four to zero
    in [Hnew_pad].  A second pass finds every neighbour at zero and leaves
    the centre as it is. *)
Theorem smooth_free_surface_is_not_the_neighbour_mean :
  let ramp := Examples.ramp in
  let open_cells := Examples.open_cells in
  let pad := np_pad_edge 3 3 ramp in
  length (qualifying_neighbours 3 3 ramp open_cells 1 1) = 8%nat
  /\ Qeq (neighbour_mean 3 3 ramp open_cells 1 1) 5
  /\ Qeq (_smooth_free_surface 3 3 ramp pad open_cells open_cells 1 0 1 1) (15 # 2)
  /\ Qeq (_smooth_free_surface 3 3 ramp pad open_cells open_cells 2 0 1 1) (15 # 2)
  /\ ~ Qeq (_smooth_free_surface 3 3 ramp pad open_cells open_cells 1 0 1 1)
           (neighbour_mean 3 3 ramp open_cells 1 1).
Proof. vm_compute. repeat split. discriminate. Qed.

(** ** The theorems at work on the small models *)

Section Witnesses.

Import Examples.

Ltac run := vm_compute; first [reflexivity | discriminate | intros ?; discriminate].

(** The basin model is at its first iteration. *)
Lemma finalize_free_surface_first_iteration_witness :
  _time_iter basin_config = 0
  /\ finalize_free_surface basin_config basin_state
     = flooding_correction basin_config basin_state.
Proof.
  split; [reflexivity|].
  apply (finalize_free_surface_first_iteration basin_config basin_state).
  reflexivity.
Defined.

(** The flow of the basin model is capped at [u_max]. *)
Lemma update_velocity_field_bounds_witness :
  (0 <= u_max basin_config)%Q /\ (0 <= dry_depth basin_config)%Q
  /\ Qle 0 (uw (update_velocity_field basin_config flowing_state) 0 0)
  /\ Qle (uw (update_velocity_field basin_config flowing_state) 0 0)
         (u_max basin_config).
Proof.
  assert (0 <= u_max basin_config)%Q as Hu by run.
  assert (0 <= dry_depth basin_config)%Q as Hd by run.
  split; [exact Hu|]. split; [exact Hd|].
  apply (update_velocity_field_bounds basin_config flowing_state 0 0 Hu Hd).
Defined.

(** The dry cell of the shore model is flooded above its bed. *)
Lemma flooding_correction_effect_witness :
  2 <= L shore_config /\ 2 <= W shore_config
  /\ Qlt (eta shore_config 0 0)
         (stage (flooding_correction shore_config shore_state) 0 0).
Proof.
  assert (2 <= L shore_config) as HL by (vm_compute; discriminate).
  assert (2 <= W shore_config) as HW by (vm_compute; discriminate).
  split; [exact HL|]. split; [exact HW|].
  destruct (flooding_correction_effect shore_config shore_state 0 0 HL HW)
    as [_ H].
  destruct H as [H _].
  - split; vm_compute; split; discriminate || reflexivity.
  - run.
  - left. run.
  - apply H. exists (0, 1). split.
    + split; [exists 0; split; [lia | reflexivity]|].
      split; [split; vm_compute; split; discriminate || reflexivity | run].
    + run.
Defined.

(** A path with a duplicate, checked in round 1 of an inlet of length 3. *)
Lemma check_for_loops_unchanged_witness :
  1 <= 3
  /\ entries (_check_for_loops isqrt [[7; 8; 7]] [8] 1 3 [0] (6, 5) 2 [0]) 0
     = entries ([8], [0], [0]) 0.
Proof.
  split; [lia|].
  destruct (check_for_loops_unchanged isqrt [[7; 8; 7]] [8] 1 3 [0] (6, 5) 2
              [0] 0) as (_ & H & _).
  apply H. lia.
Defined.

(** The same path in round 4 of an inlet of length 1, on a domain of six
    rows and five columns. *)
Lemma check_for_loops_deflects_inside_witness :
  (0 <= 1 <= 6 - 2) /\ 3 <= 5 /\ 1 < 4 /\ [8] !! 0%nat = Some 8 /\ 0 < 8
  /\ (0 < length [[7; 8; 7]])%nat /\ ~ NoDup (positive_walk [[7; 8; 7]] 0)
  /\ exists nind,
       (_check_for_loops isqrt [[7; 8; 7]] [8] 4 1 [0] (6, 5) 2 [0]).1.1 !! 0%nat
       = Some nind
       /\ nind = deflect isqrt 8 1 (6, 5) 2
       /\ (1 <= (custom_unravel nind (6, 5)).1 <= 6 - 2)
       /\ (1 <= (custom_unravel nind (6, 5)).2 <= 5 - 2)
       /\ nind <> 0.
Proof.
  assert (~ NoDup (positive_walk [[7; 8; 7]] 0)) as Hd.
  { intros H. apply has_repeat_ind_false in H. vm_compute in H. discriminate. }
  repeat (split; [first [lia | reflexivity | exact Hd | cbn; lia]|]).
  apply (check_for_loops_deflects_inside isqrt [[7; 8; 7]] [8] 4 1 [0] 6 5 2 [0]
           0%nat 8); first [lia | reflexivity | exact Hd | cbn; lia].
Defined.

(** Two parcels, the first of them inactive. *)
Lemma routing_round_direction_and_target_witness :
  [0; 7] !! 0%nat = Some 0
  /\ (_choose_next_direction unit pick7 [0; 7] (fun _ => []) tt).1 !! 0%nat = Some 4
  /\ [0; 7] !! 1%nat = Some 7 /\ [4; 5] !! 1%nat = Some 5
  /\ _calculate_new_ind [0; 7] [4; 5] iwalk jwalk (3, 5) !! 1%nat = Some 8.
Proof.
  destruct (routing_round_direction_and_target pick7 [0; 7] (fun _ => []) tt
              [4; 5] iwalk jwalk (3, 5) 0%nat 0 4) as [H1 _].
  destruct (routing_round_direction_and_target pick7 [0; 7] (fun _ => []) tt
              [4; 5] iwalk jwalk (3, 5) 1%nat 7 5) as [_ H2].
  split; [reflexivity|]. split; [apply H1; reflexivity|].
  split; [reflexivity|]. split; [reflexivity|].
  apply H2; reflexivity.
Defined.


(** The channel model runs for three rounds. *)
Lemma run_water_iteration_terminates_witness :
  let res :=
    run_water_iteration isqrt unit pick7 start1 steps no_weights flat_weights
      channel_config channel_state tt in
  (res.2 <= Z.to_nat (stepmax channel_config))%nat /\ res.2 = 3%nat.
Proof.
  split.
  - apply (proj1 (run_water_iteration_terminates isqrt pick7 start1 steps
                    no_weights flat_weights channel_config channel_state tt)).
  - vm_compute. reflexivity.
Defined.

(** The run of the channel model: the parcel walks down the middle column
    and stops on the ocean edge, which raises its flag. *)
Lemma channel_run :
  match (run_water_iteration isqrt unit pick7 start1 steps no_weights
           flat_weights channel_config channel_state tt).1 with
  | Some ls =>
      free_surf_walk_indices (ls_self unit ls) = [[1; 4; 7; 10; 0; 0; 0]]
      /\ current_inds unit ls = [0]
      /\ free_surf_flag (ls_self unit ls) = [1]
      /\ looped (ls_self unit ls) = [0]
  | None => False
  end.
Proof. vm_compute. repeat split. Qed.

(** The free surface of the channel model after its run: the three cells
    upstream of the ocean edge are visited once, the edge cell is not. *)
Lemma channel_free_surface :
  match (run_water_iteration isqrt unit pick7 start1 steps no_weights
           flat_weights channel_config channel_state tt).1 with
  | Some ls =>
      let s := ls_self unit ls in
      match _accumulate_free_surface_walks (4, 3) (free_surf_walk_indices s)
              (looped s) (cell_type channel_config) (uw s) (ux s) (uy s)
              (depth s) 1 1 1 0 (1 # 1000) with
      | Some (v, _) =>
          (fun ij => Qred (v ij.1 ij.2)) <$> [(0, 1); (1, 1); (2, 1); (3, 1)]
          = [1; 1; 1; 0]%Q
      | None => False
      end
  | None => False
  end.
Proof. vm_compute. reflexivity. Qed.

(** A parcel at index 7 that draws the direction 4 is sent to index 0,
    not to its own cell. *)
Lemma stay_direction_gives_index_zero :
  _calculate_new_ind [7] [4] iwalk jwalk (3, 5) <> [7].
Proof. vm_compute. discriminate. Qed.

End Witnesses.

(** * Further properties of the routines *)

(** ** Directions and loops *)

Section RoutingSteps.

Context (np_sqrt : Q -> Q) {RNG : Type} (random_pick : list Q -> RNG -> Z * RNG).

Lemma _choose_next_direction_length inds ww g :
  length (_choose_next_direction RNG random_pick inds ww g).1 = length inds.
Proof.
  revert g. induction inds as [|ind inds IH]; intros g; [reflexivity|].
  cbn [_choose_next_direction].
  destruct (if negb (ind =? 0) then _ else _) as [d g1].
  specialize (IH g1).
  destruct (_choose_next_direction RNG random_pick inds ww g1) as [nc g2].
  cbn in *. by rewrite IH.
Qed.

Lemma _choose_next_direction_cons ind inds ww g :
  _choose_next_direction RNG random_pick (ind :: inds) ww g =
  let dg := if active ind then random_pick (ww ind) g else (4, g) in
  let r := _choose_next_direction RNG random_pick inds ww dg.2 in
  (dg.1 :: r.1, r.2).
Proof.
  cbn [_choose_next_direction]. unfold active.
  destruct (if negb (ind =? 0) then _ else _) as [d g1]. cbn zeta. cbn [fst snd].
  by destruct (_choose_next_direction RNG random_pick inds ww g1).
Qed.

(** X1: [_choose_next_direction] returns one direction for each parcel and
    draws a random number for the active parcels only: the generator ends in
    the state it would reach on the list of the active parcels alone, and
    the directions of the active parcels are those drawn on that list. *)
Theorem choose_next_direction_draws inds ww g :
  let r := _choose_next_direction RNG random_pick inds ww g in
  let r' := _choose_next_direction RNG random_pick (List.filter active inds) ww g in
  length r.1 = length inds
  /\ r.2 = r'.2
  /\ (List.filter (fun x => active x.1) (zip inds r.1)).*2 = r'.1.
Proof.
  cbn zeta. split; [apply _choose_next_direction_length|].
  revert g. induction inds as [|ind inds IH]; intros g; [by split|].
  rewrite _choose_next_direction_cons. cbn zeta. cbn [List.filter fst snd zip zip_with].
  destruct (active ind) eqn:E.
  - rewrite _choose_next_direction_cons. cbn zeta. rewrite E. cbn [fst snd fmap list_fmap].
    destruct (IH (random_pick (ww ind) g).2) as [-> ->]. by split.
  - cbn [fst snd]. apply IH.
Qed.
Lemma check_parcel_lengths walks L0 shape CTR st p :
  let r := check_parcel np_sqrt walks L0 shape CTR st p in
  length r.1.1 = length st.1.1 /\ length r.1.2 = length st.1.2
  /\ length r.2 = length st.2.
Proof.
  destruct st as [[ni lp] fl]. unfold check_parcel. cbn zeta.
  destruct (_ >? 0); [|done].
  destruct (has_repeat_ind _); [|done].
  cbn [fst snd]. by rewrite !length_insert.
Qed.

Lemma fold_check_parcel_lengths walks L0 shape CTR ps st :
  let r := fold_left (check_parcel np_sqrt walks L0 shape CTR) ps st in
  length r.1.1 = length st.1.1 /\ length r.1.2 = length st.1.2
  /\ length r.2 = length st.2.
Proof.
  cbn zeta. revert st. induction ps as [|q ps IH]; intros st; [done|].
  cbn [fold_left].
  destruct (IH (check_parcel np_sqrt walks L0 shape CTR st q)) as (-> & -> & ->).
  apply check_parcel_lengths.
Qed.

Lemma _check_for_loops_lengths walks new_indices _step L0 looped shape CTR flag :
  let r := _check_for_loops np_sqrt walks new_indices _step L0 looped shape CTR flag in
  length r.1.1 = length new_indices /\ length r.1.2 = length looped
  /\ length r.2 = length flag.
Proof.
  cbn zeta. unfold _check_for_loops. destruct (_step >? L0); [|done].
  apply (fold_check_parcel_lengths walks L0 shape CTR _ (new_indices, looped, flag)).
Qed.

(** X2: when [_check_for_loops] deflects a parcel (the step number is past
    [L0], the new index is positive and the positive part of the recorded
    path repeats an index), the loop counter of the parcel rises by one and
    its flag becomes -1. *)
Theorem check_for_loops_counts_the_deflection
    walks new_indices _step L0 looped shape CTR flag p x lp f :
  L0 < _step -> (p < length walks)%nat ->
  new_indices !! p = Some x -> 0 < x ->
  ~ NoDup (positive_walk walks p) ->
  looped !! p = Some lp -> flag !! p = Some f ->
  let r := _check_for_loops np_sqrt walks new_indices _step L0 looped shape CTR flag in
  r.1.2 !! p = Some (lp + 1) /\ r.2 !! p = Some (-1).
Proof.
  intros Hs Hp Hx Hpos Hdup Hlp Hf r.
  pose proof (_check_for_loops_entries np_sqrt walks new_indices _step L0 looped
                shape CTR flag p) as He.
  fold r in He.
  replace (_step >? L0) with true in He by (symmetry; apply Z.gtb_lt; lia).
  rewrite bool_decide_eq_true_2 in He by done. cbn [andb] in He.
  unfold deflect_entries, entries, triggers in He. cbn [fst snd] in He.
  rewrite Hx, Hlp, Hf in He.
  assert (Hg : (x >? 0) = true) by (apply Z.gtb_lt; lia).
  destruct (has_repeat_ind (positive_walk walks p)) eqn:Er.
  - cbn [default from_option id fmap option_fmap option_map] in He.
    rewrite Hg in He. cbn [andb] in He. by inversion He.
  - apply has_repeat_ind_false in Er. done.
Qed.
End RoutingSteps.

(** ** The boundary check and the rounds of the routing *)

Lemma flat_read_is_Some {A} c (a : grid A) k :
  is_Some (flat_read c a k) <-> - (L c * W c) <= k < L c * W c.
Proof.
  unfold flat_read.
  destruct (Z.leb_spec (- (L c * W c)) k), (Z.ltb_spec k (L c * W c)); cbn [andb];
    split; try (intros [? ?]; discriminate); try lia; by eauto.
Qed.

(** X3: on a vector of indices that has one entry for each flag of the
    model, [check_for_boundary] raises exactly when an index lies outside
    of [-L*W, L*W), so that [cell_type.flat] cannot be read there. *)
Theorem check_for_boundary_raises c s inds :
  length inds = length (free_surf_flag s) ->
  (check_for_boundary c s inds = None <->
   ~ Forall (fun k => - (L c * W c) <= k < L c * W c) inds).
Proof.
  intros Hlen. unfold check_for_boundary.
  destruct (mapM (flat_read c (cell_type c)) inds) as [ct|] eqn:Em; cbn.
  - assert (Hall : Forall (fun k => - (L c * W c) <= k < L c * W c) inds).
    { assert (Hs : is_Some (mapM (flat_read c (cell_type c)) inds)) by eauto.
      apply mapM_is_Some in Hs.
      eapply list.Forall_impl; [exact Hs|]. intros k Hk. by apply flat_read_is_Some in Hk. }
    rewrite Hlen, Nat.eqb_refl. cbn [negb].
    split; [discriminate|]. intros Hn. by destruct Hn.
  - split; [|done]. intros _ Hall.
    assert (Hs : is_Some (mapM (flat_read c (cell_type c)) inds)).
    { apply mapM_is_Some. eapply list.Forall_impl; [exact Hall|].
      intros k Hk. by apply flat_read_is_Some. }
    rewrite Em in Hs. by destruct Hs.
Qed.

Lemma check_for_boundary_Some c s inds inds' s' :
  check_for_boundary c s inds = Some (inds', s') ->
  length inds = length (free_surf_flag s)
  /\ length inds' = length inds
  /\ length (free_surf_flag s') = length inds
  /\ s' = set_free_surf_flag (free_surf_flag s') s
  /\ forall p i f,
       inds !! p = Some i -> free_surf_flag s !! p = Some f ->
       exists t,
         flat_read c (cell_type c) i = Some t
         /\ free_surf_flag s' !! p = Some (boundary_flag t f)
         /\ inds' !! p = Some (if boundary_flag t f =? 2 then 0 else i).
Proof.
  unfold check_for_boundary.
  destruct (mapM (flat_read c (cell_type c)) inds) as [ct|] eqn:Em; [|discriminate].
  cbn [mbind option_bind].
  destruct (Nat.eqb_spec (length inds) (length (free_surf_flag s))) as [El|]; [|discriminate].
  cbn [negb]. intros [= <- <-].
  apply mapM_Some in Em. pose proof (list.Forall2_length _ _ _ Em) as Elc.
  cbn [free_surf_flag set_free_surf_flag].
  split; [done|]. split; [rewrite !length_zip_with; lia|].
  split; [rewrite !length_zip_with; lia|]. split; [done|].
  intros p i f Hi Hf.
  destruct (list.Forall2_lookup_l _ _ _ _ _ Em Hi) as (t & Ht & Hr).
  exists t. split; [done|].
  assert (Hfl : zip_with (fun t f => if (t =? -1) && (f =? -1) then 2 else f) ct
            (zip_with (fun t f => if (t =? -1) && (f =? 0) then 1 else f) ct
               (free_surf_flag s)) !! p = Some (boundary_flag t f)).
  { rewrite lookup_zip_with, Ht. cbn. rewrite lookup_zip_with, Ht. cbn. rewrite Hf. cbn.
    f_equal. unfold boundary_flag.
    destruct (t =? -1); cbn [andb]; [|done].
    destruct (Z.eqb_spec f 0) as [->|]; [done|].
    destruct (Z.eqb_spec f (-1)) as [->|]; done. }
  split; [done|].
  rewrite lookup_zip_with, Hi. cbn. rewrite Hfl. done.
Qed.

(** X4: what [check_for_boundary] does to a parcel at index [i] with flag
    [f], when it does not raise: on a cell of type -1 the flag 0 becomes 1
    and the flag -1 becomes 2, any other flag is kept, as is every flag off
    such cells; the index becomes 0 when the flag ends at 2, and is kept
    otherwise.  Nothing but the flags is assigned. *)
Theorem check_for_boundary_effect c s inds inds' s' p i f :
  check_for_boundary c s inds = Some (inds', s') ->
  inds !! p = Some i -> free_surf_flag s !! p = Some f ->
  exists t,
    flat_read c (cell_type c) i = Some t
    /\ free_surf_flag s' !! p = Some (boundary_flag t f)
    /\ inds' !! p = Some (if boundary_flag t f =? 2 then 0 else i)
    /\ s' = set_free_surf_flag (free_surf_flag s') s.
Proof.
  intros Hb Hi Hf.
  destruct (check_for_boundary_Some _ _ _ _ _ Hb) as (_ & _ & _ & Hs & Hpar).
  destruct (Hpar p i f Hi Hf) as (t & Ht & Hf' & Hi').
  exists t. done.
Qed.

Lemma boundary_flag_cases t f :
  (boundary_flag t f = f \/ (f = 0 /\ boundary_flag t f = 1)
   \/ (f = -1 /\ boundary_flag t f = 2)).
Proof.
  unfold boundary_flag. destruct (t =? -1); [|by left].
  destruct (Z.eqb_spec f 0); [right; left; done|].
  destruct (Z.eqb_spec f (-1)); [right; right; done|by left].
Qed.

Lemma boundary_flag_keeps t f : f <> 0 -> f <> -1 -> boundary_flag t f = f.
Proof. intros. destruct (boundary_flag_cases t f) as [?|[[? ?]|[? ?]]]; done. Qed.

Lemma check_size_of_indices_matrix_frame c s it s' :
  check_size_of_indices_matrix c s it = Some s' ->
  free_surf_flag s' = free_surf_flag s /\ looped s' = looped s
  /\ length (free_surf_walk_indices s') = length (free_surf_walk_indices s)
  /\ forall p row, free_surf_walk_indices s !! p = Some row ->
       exists blank, free_surf_walk_indices s' !! p = Some (row ++ blank).
Proof.
  unfold check_size_of_indices_matrix.
  destruct (it >=? ncols (free_surf_walk_indices s)).
  - destruct (_ || _); [discriminate|]. destruct (negb _); [discriminate|].
    intros [= <-]. cbn. rewrite length_fmap. repeat split. intros p row Hp.
    eexists. rewrite list_lookup_fmap, Hp. reflexivity.
  - intros [= <-]. repeat split. intros p row Hp. exists []. by rewrite app_nil_r.
Qed.

Section Rounds.
Context (np_sqrt : Q -> Q) {RNG : Type} (random_pick : list Q -> RNG -> Z * RNG)
  (get_start_indices : list Z -> list Z -> Z -> RNG -> list Z * RNG)
  (get_steps : list Z -> list Z -> list Z -> list Q * list Z * list Z * list bool)
  (get_weight_sfc_int :
     Q -> list Q -> Q -> Q -> list Q -> list Q -> list Q -> list Q * list Q)
  (get_weight_at_cell :
     Z * Z -> list Q -> list Q -> list Q -> list Z -> Q -> Q -> Q -> list Q).

Lemma update_Q_frame c s dist cur next astep jstep istep :
  let s' := update_Q c s dist cur next astep jstep istep in
  free_surf_walk_indices s' = free_surf_walk_indices s
  /\ looped s' = looped s /\ free_surf_flag s' = free_surf_flag s
  /\ stage s' = stage s /\ depth s' = depth s
  /\ qx s' = qx s /\ qy s' = qy s /\ qw s' = qw s
  /\ water_weights s' = water_weights s.
Proof. cbn zeta. repeat split. Qed.

Lemma water_round_inv c ls ls' :
  water_round np_sqrt RNG random_pick get_steps c ls = Some ls' ->
  let k := _step RNG ls + 1 in
  exists s0,
  check_size_of_indices_matrix c (ls_self RNG ls) k = Some s0 /\
  let nd := _choose_next_direction RNG random_pick (current_inds RNG ls)
              (flat_of (W c) (water_weights s0)) (ls_rng RNG ls) in
  let ni := _calculate_new_ind (current_inds RNG ls) nd.1
              (iwalk_flat c) (jwalk_flat c) (L c, W c) in
  let r := _check_for_loops np_sqrt (free_surf_walk_indices s0) ni k (L0 c)
             (looped s0) (L c, W c) (CTR c) (free_surf_flag s0) in
  exists sq cur s1 walks,
    free_surf_flag sq = r.2
    /\ check_for_boundary c sq r.1.1 = Some (cur, s1)
    /\ set_column (free_surf_walk_indices s0) k cur = Some walks
    /\ free_surf_walk_indices (ls_self RNG ls') = walks
    /\ free_surf_flag (ls_self RNG ls') = free_surf_flag s1
    /\ looped (ls_self RNG ls') = r.1.2
    /\ current_inds RNG ls' =
       zip_with (fun i f => if f >? 0 then 0 else i) cur (free_surf_flag s1)
    /\ ls_rng RNG ls' = nd.2 /\ _step RNG ls' = k.
Proof.
  unfold water_round. cbn zeta.
  set (k := _step RNG ls + 1).
  destruct (check_size_of_indices_matrix c (ls_self RNG ls) k) as [s0|] eqn:Es0;
    [|discriminate].
  cbn [mbind option_bind]. intros Hr. exists s0. split; [reflexivity|]. revert Hr.
  destruct (_choose_next_direction RNG random_pick (current_inds RNG ls)
              (flat_of (W c) (water_weights s0)) (ls_rng RNG ls)) as [nd g].
  cbn [fst snd].
  set (ni := _calculate_new_ind _ _ _ _ _).
  destruct (get_steps nd (iwalk_flat c) (jwalk_flat c)) as [[[dist istep] jstep] astep].
  set (sq0 := update_Q c s0 dist (current_inds RNG ls) ni astep jstep istep).
  change (free_surf_walk_indices sq0) with (free_surf_walk_indices s0).
  change (looped sq0) with (looped s0).
  change (free_surf_flag sq0) with (free_surf_flag s0).
  destruct (_check_for_loops np_sqrt (free_surf_walk_indices s0) ni k (L0 c)
              (looped s0) (L c, W c) (CTR c) (free_surf_flag s0))
    as [[cur0 lp] fl].
  cbn [fst snd].
  set (sq := set_free_surf_flag fl (set_looped lp sq0)).
  destruct (check_for_boundary c sq cur0) as [[cur s1]|] eqn:Eb; [|discriminate].
  cbn [mbind option_bind].
  pose proof (check_for_boundary_Some _ _ _ _ _ Eb) as (_ & _ & _ & Hs1 & _).
  assert (Hw : free_surf_walk_indices s1 = free_surf_walk_indices s0).
  { rewrite Hs1. reflexivity. }
  assert (Hl : looped s1 = lp).
  { rewrite Hs1. reflexivity. }
  rewrite Hw.
  destruct (set_column (free_surf_walk_indices s0) k cur) as [walks|] eqn:Ec;
    [|discriminate].
  cbn [mbind option_bind]. intros [= <-].
  exists sq, cur, s1, walks. cbn.
  repeat split; try done.
Qed.
(** A round that does not raise has one index, one flag and one row of
    the path matrix for each parcel, before and after. *)
Lemma water_round_lengths c ls ls' :
  water_round np_sqrt RNG random_pick get_steps c ls = Some ls' ->
  let n := length (current_inds RNG ls) in
  length (free_surf_flag (ls_self RNG ls)) = n
  /\ length (free_surf_walk_indices (ls_self RNG ls)) = n
  /\ length (current_inds RNG ls') = n
  /\ length (free_surf_flag (ls_self RNG ls')) = n
  /\ length (free_surf_walk_indices (ls_self RNG ls')) = n.
Proof.
  intros Hr n.
  pose proof (water_round_inv c ls ls' Hr) as Hinv. cbn zeta in Hinv.
  destruct Hinv
    as (s0 & Hs0 & sq & cur & s1 & walks & Hfq & Hb & Hc & Hw & Hf' & _ & Hcur & _ & _).
  set (k := _step RNG ls + 1) in *.
  set (nd := _choose_next_direction RNG random_pick (current_inds RNG ls)
               (flat_of (W c) (water_weights s0)) (ls_rng RNG ls)) in *.
  set (ni := _calculate_new_ind (current_inds RNG ls) nd.1
               (iwalk_flat c) (jwalk_flat c) (L c, W c)) in *.
  set (r := _check_for_loops np_sqrt (free_surf_walk_indices s0) ni k (L0 c)
              (looped s0) (L c, W c) (CTR c) (free_surf_flag s0)) in *.
  destruct (check_size_of_indices_matrix_frame c (ls_self RNG ls) k s0 Hs0)
    as (Hf0 & _ & Hlw0 & _).
  assert (Hlnd : length nd.1 = n) by apply _choose_next_direction_length.
  assert (Hlni : length ni = n).
  { unfold ni, _calculate_new_ind. rewrite length_zip_with. lia. }
  destruct (_check_for_loops_lengths np_sqrt (free_surf_walk_indices s0) ni k (L0 c)
              (looped s0) (L c, W c) (CTR c) (free_surf_flag s0))
    as (Hl1 & _ & Hl3).
  fold r in Hl1, Hl3.
  destruct (check_for_boundary_Some _ _ _ _ _ Hb) as (Hlb & Hlcur & Hlf1 & _ & _).
  rewrite Hfq in Hlb.
  assert (Hcol : length cur = length (free_surf_walk_indices s0)
                 /\ walks = zip_with (fun row v => <[Z.to_nat k := v]> row)
                              (free_surf_walk_indices s0) cur).
  { unfold set_column in Hc.
    destruct ((0 <=? k) && (k <? ncols (free_surf_walk_indices s0))); [|discriminate].
    destruct (Nat.eqb_spec (length cur) (length (free_surf_walk_indices s0)));
      [|discriminate].
    cbn in Hc. by inversion Hc. }
  destruct Hcol as (Hlcol & Hwalks).
  rewrite Hcur, Hf', Hw, Hwalks, !length_zip_with, <- Hf0. lia.
Qed.

(** What a round that does not raise does to parcel [p]. *)
Lemma water_round_parcel c ls ls' p i :
  water_round np_sqrt RNG random_pick get_steps c ls = Some ls' ->
  current_inds RNG ls !! p = Some i ->
  let k := _step RNG ls + 1 in
  exists s0 f f' rec row,
    check_size_of_indices_matrix c (ls_self RNG ls) k = Some s0
    /\ free_surf_flag (ls_self RNG ls) !! p = Some f
    /\ free_surf_flag (ls_self RNG ls') !! p = Some f'
    /\ current_inds RNG ls' !! p = Some (if f' >? 0 then 0 else rec)
    /\ free_surf_walk_indices s0 !! p = Some row
    /\ free_surf_walk_indices (ls_self RNG ls') !! p = Some (<[Z.to_nat k := rec]> row)
    /\ (flag_ok f -> flag_ok f')
    /\ (i = 0 -> rec = 0 /\ (f <> 0 -> f <> -1 -> f' = f)).
Proof.
  intros Hr Hi k.
  destruct (water_round_lengths c ls ls' Hr) as (Hlflag & Hlw & _).
  pose proof (water_round_inv c ls ls' Hr) as Hinv. cbn zeta in Hinv.
  destruct Hinv
    as (s0 & Hs0 & sq & cur & s1 & walks & Hfq & Hb & Hc & Hw & Hf' & _ & Hcur & _ & _).
  fold k in Hs0, Hfq, Hb, Hc.
  set (nd := _choose_next_direction RNG random_pick (current_inds RNG ls)
               (flat_of (W c) (water_weights s0)) (ls_rng RNG ls)) in *.
  set (ni := _calculate_new_ind (current_inds RNG ls) nd.1
               (iwalk_flat c) (jwalk_flat c) (L c, W c)) in *.
  set (r := _check_for_loops np_sqrt (free_surf_walk_indices s0) ni k (L0 c)
              (looped s0) (L c, W c) (CTR c) (free_surf_flag s0)) in *.
  destruct (check_size_of_indices_matrix_frame c (ls_self RNG ls) k s0 Hs0)
    as (Hf0 & _ & Hlw0 & _).
  assert (Hlnd : length nd.1 = length (current_inds RNG ls))
    by apply _choose_next_direction_length.
  destruct (check_for_boundary_Some _ _ _ _ _ Hb) as (_ & _ & _ & _ & Hpar).
  assert (Hwalks : walks = zip_with (fun row v => <[Z.to_nat k := v]> row)
                             (free_surf_walk_indices s0) cur).
  { unfold set_column in Hc.
    destruct ((0 <=? k) && (k <? ncols (free_surf_walk_indices s0))); [|discriminate].
    destruct (Nat.eqb_spec (length cur) (length (free_surf_walk_indices s0)));
      [|discriminate].
    cbn in Hc. by inversion Hc. }
  (* the entries of the parcel *)
  destruct (lookup_lt_is_Some_2 (free_surf_flag (ls_self RNG ls)) p) as [f Hf].
  { rewrite Hlflag. eapply lookup_lt_Some, Hi. }
  destruct (lookup_lt_is_Some_2 nd.1 p) as [q Hq].
  { rewrite Hlnd. eapply lookup_lt_Some, Hi. }
  pose proof (_calculate_new_ind_lookup _ _ (iwalk_flat c) (jwalk_flat c) (L c, W c)
                _ _ _ Hi Hq) as Hni.
  fold ni in Hni. set (x := if q =? 4 then 0 else _) in Hni.
  pose proof (_check_for_loops_entries np_sqrt (free_surf_walk_indices s0) ni k (L0 c)
                (looped s0) (L c, W c) (CTR c) (free_surf_flag s0) p) as He.
  fold r in He. unfold entries in He. cbn [fst snd] in He.
  rewrite Hni, Hf0, Hf in He.
  assert (Hent : exists x' f'',
             r.1.1 !! p = Some x' /\ r.2 !! p = Some f''
             /\ (f'' = f \/ f'' = -1) /\ (x = 0 -> x' = 0 /\ f'' = f)).
  { assert (Hsame : (r.1.1 !! p, r.1.2 !! p, r.2 !! p)
                     = (Some x, looped s0 !! p, Some f) ->
             exists x' f'',
               r.1.1 !! p = Some x' /\ r.2 !! p = Some f''
               /\ (f'' = f \/ f'' = -1) /\ (x = 0 -> x' = 0 /\ f'' = f)).
    { intros [= H1 _ H3]. exists x, f.
      split; [done|]. split; [done|]. split; [by left|]. done. }
    destruct ((k >? L0 c) && bool_decide (p < length (free_surf_walk_indices s0))%nat);
      [|by apply Hsame].
    unfold deflect_entries, triggers in He. cbn [fst snd default from_option id] in He.
    destruct (Z.gtb_spec x 0) as [Hx|Hx]; cbn [andb] in He; [|by apply Hsame].
    destruct (has_repeat_ind _); [|by apply Hsame].
    cbn in He. inversion He as [[H1 H2 H3]].
    eexists _, (-1). split; [done|]. split; [done|]. split; [by right|]. lia. }
  destruct Hent as (x' & f'' & Hx' & Hf'' & Hfc & Hzero).
  rewrite <- Hfq in Hf''.
  destruct (Hpar p x' f'' Hx' Hf'') as (t & _ & Hf1 & Hcurp).
  set (f' := boundary_flag t f'') in *.
  set (rec := if f' =? 2 then 0 else x') in *.
  destruct (lookup_lt_is_Some_2 (free_surf_walk_indices s0) p) as [row Hrow].
  { rewrite Hlw0, Hlw. eapply lookup_lt_Some, Hi. }
  exists s0, f, f', rec, row.
  split; [done|]. split; [done|]. split; [by rewrite Hf'|].
  split. { rewrite Hcur, lookup_zip_with, Hcurp. cbn. by rewrite Hf1. }
  split; [done|].
  split. { rewrite Hw, Hwalks, lookup_zip_with, Hrow. cbn. by rewrite Hcurp. }
  split.
  { intros Hok. unfold flag_ok in *. subst f'.
    destruct (boundary_flag_cases t f'') as [->|[[-> ->]|[-> ->]]]; lia. }
  intros ->.
  { assert (Hx0 : x = 0).
    { subst x. pose proof (_choose_next_direction_skip random_pick
        (current_inds RNG ls) (flat_of (W c) (water_weights s0)) (ls_rng RNG ls) p Hi) as H4.
      fold nd in H4. rewrite H4 in Hq. inversion Hq. done. }
    destruct (Hzero Hx0) as [-> ->]. split.
    - subst rec. by destruct (f' =? 2).
    - intros. subst f'. by apply boundary_flag_keeps. }
Qed.
End Rounds.

Section RoundProperties.

Context (np_sqrt : Q -> Q) {RNG : Type} (random_pick : list Q -> RNG -> Z * RNG)
  (get_start_indices : list Z -> list Z -> Z -> RNG -> list Z * RNG)
  (get_steps : list Z -> list Z -> list Z -> list Q * list Z * list Z * list bool)
  (get_weight_sfc_int :
     Q -> list Q -> Q -> Q -> list Q -> list Q -> list Q -> list Q * list Q)
  (get_weight_at_cell :
     Z * Z -> list Q -> list Q -> list Q -> list Z -> Q -> Q -> Q -> list Q).

(** X5: in a round that does not raise, a parcel at index 0 stays at index
    0, the round records 0 for it in the path matrix, and a flag of 1 or 2
    is kept: a parcel that has left the routing never comes back. *)
Theorem water_round_inactive_parcel c ls ls' p :
  water_round np_sqrt RNG random_pick get_steps c ls = Some ls' ->
  current_inds RNG ls !! p = Some 0 ->
  current_inds RNG ls' !! p = Some 0
  /\ (exists row,
        free_surf_walk_indices (ls_self RNG ls') !! p = Some row
        /\ (row !! Z.to_nat (_step RNG ls + 1) = Some 0
            \/ (length row <= Z.to_nat (_step RNG ls + 1))%nat))
  /\ (forall f, free_surf_flag (ls_self RNG ls) !! p = Some f -> 0 < f ->
        free_surf_flag (ls_self RNG ls') !! p = Some f).
Proof.
  intros Hr Hi.
  destruct (water_round_parcel np_sqrt random_pick get_steps c ls ls' p 0 Hr Hi)
    as (s0 & f & f' & rec & row & _ & Hf & Hf' & Hcur & _ & Hrow & _ & Hz).
  destruct (Hz eq_refl) as [-> Hkeep].
  split. { rewrite Hcur. by destruct (f' >? 0). }
  split.
  - eexists. split; [exact Hrow|].
    destruct (decide (Z.to_nat (_step RNG ls + 1) < length row)%nat).
    + left. by apply list_lookup_insert_eq.
    + right. rewrite length_insert. lia.
  - intros f0 Hf0 Hpos. rewrite Hf in Hf0. inversion Hf0; subst f0.
    rewrite Hf', Hkeep; [done|lia|lia].
Qed.

(** X6: a round that does not raise writes one column of the path matrix
    and keeps the others: the row of a parcel keeps its entries outside of
    column [_step], holds in column [_step] the index that the boundary
    check returned, and that index is the next index of the parcel unless
    the parcel is flagged 1 or 2, which puts it at index 0. *)
Theorem water_round_records_the_path c ls ls' p row :
  water_round np_sqrt RNG random_pick get_steps c ls = Some ls' ->
  free_surf_walk_indices (ls_self RNG ls) !! p = Some row ->
  let k := Z.to_nat (_step RNG ls + 1) in
  exists row' rec f',
    free_surf_walk_indices (ls_self RNG ls') !! p = Some row'
    /\ (length row <= length row')%nat
    /\ (forall j, (j < length row)%nat -> j <> k -> row' !! j = row !! j)
    /\ ((k < length row')%nat -> row' !! k = Some rec)
    /\ free_surf_flag (ls_self RNG ls') !! p = Some f'
    /\ current_inds RNG ls' !! p = Some (if f' >? 0 then 0 else rec).
Proof.
  intros Hr Hrow k.
  destruct (water_round_lengths np_sqrt random_pick get_steps c ls ls' Hr)
    as (_ & Hlw & _).
  destruct (lookup_lt_is_Some_2 (current_inds RNG ls) p) as [i Hi].
  { rewrite <- Hlw. eapply lookup_lt_Some, Hrow. }
  destruct (water_round_parcel np_sqrt random_pick get_steps c ls ls' p i Hr Hi)
    as (s0 & f & f' & rec & row0 & Hs0 & Hf & Hf' & Hcur & Hrow0 & Hrow' & _).
  destruct (check_size_of_indices_matrix_frame c (ls_self RNG ls) (_step RNG ls + 1)
              s0 Hs0) as (_ & _ & _ & Hgrow).
  destruct (Hgrow p row Hrow) as (blank & Hb).
  rewrite Hb in Hrow0. inversion Hrow0; subst row0.
  exists (<[k := rec]> (row ++ blank)), rec, f'.
  split; [done|]. split. { rewrite length_insert, length_app. lia. }
  split. { intros j Hj Hne. rewrite list_lookup_insert_ne by done.
           by apply lookup_app_l. }
  split. { rewrite length_insert. intros Hk. by apply list_lookup_insert_eq. }
  done.
Qed.
Lemma water_round_flags_consistent c ls ls' :
  water_round np_sqrt RNG random_pick get_steps c ls = Some ls' ->
  flags_consistent RNG ls -> flags_consistent RNG ls'.
Proof.
  intros Hr [_ Hok].
  destruct (water_round_lengths np_sqrt random_pick get_steps c ls ls' Hr)
    as (_ & _ & Hl1 & Hl2 & _).
  split; [lia|]. intros p f' Hf'.
  destruct (lookup_lt_is_Some_2 (current_inds RNG ls) p) as [i Hi].
  { rewrite <- Hl2. eapply lookup_lt_Some, Hf'. }
  destruct (water_round_parcel np_sqrt random_pick get_steps c ls ls' p i Hr Hi)
    as (s0 & f & f1 & rec & row & _ & Hf & Hf1 & Hcur & _ & _ & Hfo & _).
  rewrite Hf' in Hf1. inversion Hf1; subst f1.
  split; [apply Hfo; by apply (Hok p f)|].
  intros Hpos. rewrite Hcur.
  by replace (f' >? 0) with true by (symmetry; apply Z.gtb_lt; lia).
Qed.

Lemma while_run_flags_consistent c ls ls' n :
  while_run np_sqrt RNG random_pick get_steps c ls (Some ls') n ->
  flags_consistent RNG ls -> flags_consistent RNG ls'.
Proof.
  intros Hrun. remember (Some ls') as r eqn:Er. revert Er.
  induction Hrun as [ls0 Hc|ls0 Hc Hn|ls0 ls1 r n Hc Hr Hrun IH]; intros Er Hinv.
  - by inversion Er; subst.
  - discriminate.
  - apply IH; [done|]. by eapply water_round_flags_consistent.
Qed.

Lemma while_run_steps c ls ls' n :
  while_run np_sqrt RNG random_pick get_steps c ls (Some ls') n ->
  _step RNG ls' = _step RNG ls + Z.of_nat n /\ loop_cond RNG c ls' = false.
Proof.
  intros Hrun. remember (Some ls') as r eqn:Er. revert Er.
  induction Hrun as [ls0 Hc|ls0 Hc Hn|ls0 ls1 r n Hc Hr Hrun IH]; intros Er.
  - inversion Er; subst. split; [lia|done].
  - discriminate.
  - destruct (IH Er) as [Hs Hc']. split; [|done].
    rewrite Hs, (water_round_step np_sqrt random_pick get_steps c ls0 ls1 Hr). lia.
Qed.

Lemma run_water_iteration_while c s g ls :
  water_loop_init RNG get_start_indices get_weight_sfc_int get_weight_at_cell c s g
  = Some ls ->
  let res := run_water_iteration np_sqrt RNG random_pick get_start_indices get_steps
               get_weight_sfc_int get_weight_at_cell c s g in
  while_run np_sqrt RNG random_pick get_steps c ls res.1 res.2.
Proof.
  intros Hi res. subst res. unfold run_water_iteration. rewrite Hi.
  apply water_loop_runs.
  rewrite (water_loop_init_step get_start_indices get_weight_sfc_int
             get_weight_at_cell c s g ls Hi). lia.
Qed.

(** X7: when [run_water_iteration] ends without raising after [n] rounds,
    the step counter stands at [n], and either the indices of the parcels
    no longer sum to a positive number or [stepmax] rounds were made. *)
Theorem run_water_iteration_rounds c s g ls' n :
  run_water_iteration np_sqrt RNG random_pick get_start_indices get_steps
    get_weight_sfc_int get_weight_at_cell c s g = (Some ls', n) ->
  _step RNG ls' = Z.of_nat n
  /\ (foldr Z.add 0 (current_inds RNG ls') <= 0 \/ stepmax c <= Z.of_nat n).
Proof.
  intros Hrun.
  destruct (water_loop_init RNG get_start_indices get_weight_sfc_int
              get_weight_at_cell c s g) as [ls|] eqn:Hi.
  - pose proof (run_water_iteration_while c s g ls Hi) as Hw.
    cbn zeta in Hw. rewrite Hrun in Hw. cbn [fst snd] in Hw.
    destruct (while_run_steps c ls ls' n Hw) as [Hs Hc].
    rewrite (water_loop_init_step get_start_indices get_weight_sfc_int
               get_weight_at_cell c s g ls Hi) in Hs.
    split; [lia|]. unfold loop_cond in Hc. apply andb_false_iff in Hc.
    destruct Hc as [Hc|Hc].
    + left. destruct (Z.gtb_spec (foldr Z.add 0 (current_inds RNG ls')) 0); [done|lia].
    + right. apply Z.ltb_ge in Hc. lia.
  - unfold run_water_iteration in Hrun. rewrite Hi in Hrun. discriminate.
Qed.

Lemma water_loop_init_flags c s g ls :
  water_loop_init RNG get_start_indices get_weight_sfc_int get_weight_at_cell c s g
  = Some ls ->
  free_surf_flag (ls_self RNG ls) = free_surf_flag s
  /\ length (current_inds RNG ls) = length (free_surf_walk_indices s).
Proof.
  unfold water_loop_init.
  destruct (get_start_indices _ _ _ _) as [start g'].
  destruct (flat_add c (qxn s) start 1) as [qxn'|]; [|discriminate].
  cbn [mbind option_bind].
  destruct (flat_add c _ start _) as [qwn'|]; [|discriminate].
  cbn [mbind option_bind].
  destruct (set_column _ 0 start) as [walks|] eqn:Ec; [|discriminate].
  cbn [mbind option_bind]. intros [= <-]. cbn. split; [done|].
  unfold set_column in Ec. cbn in Ec.
  destruct (0 <? _); [|discriminate]. cbn [andb] in Ec.
  destruct (Nat.eqb_spec (length start) (length (free_surf_walk_indices s)));
    [done|discriminate].
Qed.

(** X8: a routing that starts from [init_water_iteration] and does not
    raise ends with one flag for each parcel, each flag one of -1, 0, 1 and
    2, and with every parcel that is flagged 1 or 2 at index 0.  The flags
    and the path matrix are taken to have one entry and one row for each
    parcel at the start. *)
Theorem run_water_iteration_flags c s g ls' n :
  length (free_surf_flag s) = length (free_surf_walk_indices s) ->
  run_water_iteration np_sqrt RNG random_pick get_start_indices get_steps
    get_weight_sfc_int get_weight_at_cell c (init_water_iteration c s) g
  = (Some ls', n) ->
  length (free_surf_flag (ls_self RNG ls')) = length (current_inds RNG ls')
  /\ forall p f, free_surf_flag (ls_self RNG ls') !! p = Some f ->
       (f = -1 \/ f = 0 \/ f = 1 \/ f = 2)
       /\ (0 < f -> current_inds RNG ls' !! p = Some 0).
Proof.
  intros Hlen Hrun.
  destruct (water_loop_init RNG get_start_indices get_weight_sfc_int
              get_weight_at_cell c (init_water_iteration c s) g) as [ls|] eqn:Hi.
  - pose proof (run_water_iteration_while c _ g ls Hi) as Hw.
    cbn zeta in Hw. rewrite Hrun in Hw. cbn [fst snd] in Hw.
    apply (while_run_flags_consistent c ls ls' n Hw).
    destruct (water_loop_init_flags c _ g ls Hi) as [Hf Hl].
    split.
    + rewrite Hf, Hl. cbn. rewrite !length_fmap. done.
    + intros p f Hp. rewrite Hf in Hp. cbn in Hp.
      rewrite list_lookup_fmap in Hp.
      destruct (free_surf_flag s !! p); [|discriminate].
      inversion Hp; subst f. split; [right; by left|lia].
  - unfold run_water_iteration in Hrun. rewrite Hi in Hrun. discriminate.
Qed.

Lemma ncols_grown (rows : list (list Z)) (blank : list Z) :
  rows <> [] ->
  ncols ((fun row => row ++ blank) <$> rows) = ncols rows + Z.of_nat (length blank).
Proof.
  destruct rows as [|r rows]; [done|]. intros _. cbn. rewrite length_app. lia.
Qed.

(** X9: [check_size_of_indices_matrix] raises exactly when the path matrix
    has no column for round [it] and the block of zeros cannot be built or
    appended: [_Np_water] is negative, [stepmax] is -4 or less, or the
    matrix has not [_Np_water] rows.  When it returns, it has kept the rows
    of the path matrix and what they record, and appended zeros only; when
    [stepmax] is at least 4 and the matrix has a column for every round
    before round [it], it has one for round [it] afterwards; a matrix that
    has that column already is left as it is. *)
Theorem check_size_of_indices_matrix_grows c s it :
  (free_surf_walk_indices s <> [] ->
   (check_size_of_indices_matrix c s it = None <->
    ncols (free_surf_walk_indices s) <= it
    /\ (_Np_water c < 0 \/ stepmax c <= -4
        \/ Z.of_nat (length (free_surf_walk_indices s)) <> _Np_water c)))
  /\ forall s', check_size_of_indices_matrix c s it = Some s' ->
       length (free_surf_walk_indices s') = length (free_surf_walk_indices s)
       /\ (forall p row, free_surf_walk_indices s !! p = Some row ->
             exists blank,
               free_surf_walk_indices s' !! p = Some (row ++ blank)
               /\ Forall (fun x => x = 0) blank)
       /\ (4 <= stepmax c -> free_surf_walk_indices s <> [] ->
           it <= ncols (free_surf_walk_indices s) ->
           it < ncols (free_surf_walk_indices s'))
       /\ (it < ncols (free_surf_walk_indices s) -> s' = s).
Proof.
  assert (Hq : stepmax c `quot` 4 < 0 <-> stepmax c <= -4).
  { split; intros H.
    - destruct (Z_le_gt_dec (stepmax c) (-4)) as [|Hgt]; [done|].
      assert (-1 < stepmax c `quot` 4); [|lia].
      destruct (Z_le_gt_dec 0 (stepmax c)) as [Hp|Hn].
      + pose proof (Z.quot_pos (stepmax c) 4 Hp ltac:(lia)). lia.
      + assert (stepmax c `quot` 4 = 0) by (apply Z.quot_small_iff; lia). lia.
    - assert (stepmax c `quot` 4 <= (-4) `quot` 4)
        by (apply Z.quot_le_mono; lia).
      change ((-4) `quot` 4) with (-1) in *. lia. }
  unfold check_size_of_indices_matrix. split.
  - intros _.
    destruct (Z.geb_spec it (ncols (free_surf_walk_indices s))) as [Hge|Hlt].
    + destruct (Z.ltb_spec (_Np_water c) 0) as [Hn|Hn]; cbn [orb].
      { split; [intros _; split; [lia|by left] | done]. }
      destruct (Z.ltb_spec (stepmax c `quot` 4) 0) as [Hs|Hs].
      { split; [intros _; split; [lia|right; left; by apply Hq] | done]. }
      destruct (Z.eqb_spec (Z.of_nat (length (free_surf_walk_indices s))) (_Np_water c))
        as [He|He]; cbn [negb].
      * split; [discriminate|]. intros [_ [?|[?|?]]]; [lia| |done].
        apply Hq in H. lia.
      * split; [intros _; split; [lia|by right; right] | done].
    + split; [discriminate|]. intros [? _]. lia.
  - intros s'.
    destruct (Z.geb_spec it (ncols (free_surf_walk_indices s))) as [Hge|Hlt].
    + destruct (_ || _); [discriminate|]. destruct (negb _); [discriminate|].
      intros [= <-].
      cbn [free_surf_walk_indices set_free_surf_walk_indices].
      split; [by rewrite length_fmap|]. split.
      { intros p row Hp. eexists. rewrite list_lookup_fmap, Hp. split; [reflexivity|].
        apply Forall_replicate. done. }
      split; [|lia].
      intros H4 Hne Hle. rewrite ncols_grown by done. rewrite length_replicate.
      assert (1 <= stepmax c `quot` 4) by (apply Z.quot_le_lower_bound; lia). lia.
    + intros [= <-]. split; [done|]. split.
      { intros p row Hp. exists []. rewrite app_nil_r. done. }
      split; [lia|done].
Qed.

(** X10: with [stepmax] below 4 the block that is appended has no column,
    so that a round whose number reaches the number of columns of the path
    matrix raises: the column it is to record does not exist. *)
Theorem water_round_raises_when_the_matrix_is_full c ls :
  -4 < stepmax c < 4 ->
  ncols (free_surf_walk_indices (ls_self RNG ls)) <= _step RNG ls + 1 ->
  water_round np_sqrt RNG random_pick get_steps c ls = None.
Proof.
  intros Hs Hfull.
  destruct (water_round np_sqrt RNG random_pick get_steps c ls) as [ls'|] eqn:Hr;
    [exfalso|done].
  pose proof (water_round_inv np_sqrt random_pick get_steps c ls ls' Hr) as Hinv.
  cbn zeta in Hinv.
  destruct Hinv as (s0 & Hs0 & sq & cur & s1 & walks & _ & _ & Hc & _).
  unfold set_column in Hc.
  destruct (Z.ltb_spec (_step RNG ls + 1) (ncols (free_surf_walk_indices s0)))
    as [Hlt|Hge]; [|by rewrite andb_false_r in Hc].
  unfold check_size_of_indices_matrix in Hs0.
  destruct (Z.geb_spec (_step RNG ls + 1) (ncols (free_surf_walk_indices (ls_self RNG ls))));
    [|lia].
  destruct (_ || _); [discriminate|]. destruct (negb _); [discriminate|].
  injection Hs0 as <-.
  cbn [free_surf_walk_indices set_free_surf_walk_indices] in Hlt.
  assert (Hq : stepmax c `quot` 4 = 0) by (apply Z.quot_small_iff; lia).
  rewrite Hq in Hlt. cbn in Hlt.
  destruct (free_surf_walk_indices (ls_self RNG ls)) as [|r rows]; cbn in *; [lia|].
  rewrite app_nil_r in Hlt. lia.
Qed.
End RoundProperties.

(** ** Fluxes *)

Lemma fold_absQ (n : Z) (astep : list bool) (v : Q) (l : list (nat * Z)) (q : Z -> Q) k :
  Forall (fun x : nat * Z => 0 <= x.2) l ->
  (fold_left
     (fun qfield '(i, ii) =>
        if default false (astep !! i) then
          let ii := (if ii <? 0 then ii + n else ii)%Z in
          flat_upd qfield ii (qfield ii + v)%Q
        else qfield) l q k
   == q k + inject_Z (Z.of_nat (length
        (List.filter (fun x : nat * Z => (x.2 =? k) && default false (astep !! x.1)) l)))
      * v)%Q.
Proof.
  intros Hl. revert q. induction Hl as [|[i ii] l Hii Hl IH]; intros q.
  - cbn. ring.
  - cbn [fold_left List.filter fst snd]. rewrite IH. cbn [snd] in Hii.
    destruct (default false (astep !! i)) eqn:Ea.
    + cbn zeta. rewrite (proj2 (Z.ltb_ge ii 0)) by lia.
      unfold flat_upd. rewrite (Z.eqb_sym k ii).
      destruct (ii =? k) eqn:Ek; cbn [andb].
      * apply Z.eqb_eq in Ek. subst ii. cbn [length].
        rewrite Nat2Z.inj_succ, <- Z.add_1_r, inject_Z_plus. ring.
      * reflexivity.
    + rewrite andb_false_r. reflexivity.
Qed.

Lemma _update_absQfield_count n q dist inds astep Qp dx k :
  Forall (fun ii => 0 <= ii) inds ->
  (_update_absQfield n q dist inds astep Qp dx k
   == q k + inject_Z (Z.of_nat (moving_at inds astep k)) * (Qp / dx / 2))%Q.
Proof.
  intros Hi. apply fold_absQ. apply list.Forall_forall. intros x Hx.
  apply elem_of_lookup_imap in Hx as (i & ii & -> & Hii).
  rewrite list.Forall_forall in Hi. apply Hi.
  eapply list_elem_of_lookup_2, Hii.
Qed.

Lemma reshape_flat_of {A} Wd (f : Z -> A) k :
  Wd <> 0 -> flat_of Wd (reshape Wd f) k = f k.
Proof.
  intros HW. unfold flat_of, reshape. f_equal.
  rewrite Z.mul_comm. symmetry. by apply Z.div_mod.
Qed.

Lemma flat_of_cell {A} Wd (a : grid A) i j :
  0 <= j < Wd -> flat_of Wd a (i * Wd + j) = a i j.
Proof.
  intros Hj. unfold flat_of.
  rewrite Z.div_add_l, Z.div_small, Z.add_0_r by lia.
  rewrite Z.add_comm, Z.mod_add, Z.mod_small by lia. done.
Qed.

(** X11: [update_Q] raises the norm of the flux, [qwn], by [Qp_water / dx / 2]
    at a cell once for each parcel that steps off the cell and once for
    each parcel that steps onto it, in exact arithmetic.  The indices are
    taken inside the grid, where the flat view has one position for each
    cell. *)
Theorem update_Q_counts_the_steps c s dist current_inds next_index astep jstep istep i j :
  in_grid c i j ->
  Forall (fun ii => 0 <= ii < L c * W c) current_inds ->
  Forall (fun ii => 0 <= ii < L c * W c) next_index ->
  let s' := update_Q c s dist current_inds next_index astep jstep istep in
  let k := i * W c + j in
  (qwn s' i j ==
   qwn s i j
   + inject_Z (Z.of_nat (moving_at current_inds astep k + moving_at next_index astep k))
     * (Qp_water c / _dx c / 2))%Q.
Proof.
  intros [_ Hj] Hc Hn. cbn zeta. unfold update_Q.
  assert (Hc' : Forall (fun ii => 0 <= ii) current_inds)
    by (eapply list.Forall_impl; [exact Hc|]; cbn; lia).
  assert (Hn' : Forall (fun ii => 0 <= ii) next_index)
    by (eapply list.Forall_impl; [exact Hn|]; cbn; lia).
  cbn [qwn set_qwn set_qxn set_qyn]. unfold reshape at 1.
  rewrite _update_absQfield_count by exact Hn'.
  rewrite reshape_flat_of by lia.
  rewrite _update_absQfield_count by exact Hc'.
  rewrite flat_of_cell by done.
  rewrite Nat2Z.inj_add, inject_Z_plus. ring.
Qed.

(** ** Neighbour arrays and flooding *)

(** X12: plane [k] of [build_weight_array] holds at each cell the value
    of the array at the neighbour in direction [k]; without [fix_edges] a
    neighbour outside of the array reads 0, with [fix_edges] it reads the
    nearest cell of the array. *)
Theorem build_weight_array_neighbours La Wa a k i j :
  0 <= k < 8 -> 0 <= i < La -> 0 <= j < Wa ->
  let i' := i + (nbr k).1 in
  let j' := j + (nbr k).2 in
  build_weight_array La Wa a false false k i j =
    (if (0 <=? i') && (i' <? La) && (0 <=? j') && (j' <? Wa) then a i' j' else 0%Q)
  /\ (2 <= La -> 2 <= Wa ->
      build_weight_array La Wa a true false k i j =
        a (clamp 0 (La - 1) i') (clamp 0 (Wa - 1) j')).
Proof.
  intros Hk Hi Hj i' j'. split.
  - by apply build_weight_array_plain.
  - intros HL HW. by apply build_weight_array_fix.
Qed.

Lemma build_weight_array_normalize La Wa a fix_edges k i j :
  build_weight_array La Wa a fix_edges true k i j =
  let w := build_weight_array La Wa a fix_edges false in
  let a_sum := Qsum ((fun k' => w k' i j) <$> seqZ 0 8) in
  if Qeq_bool a_sum 0 then w k i j else (w k i j / a_sum)%Q.
Proof. reflexivity. Qed.

Lemma Qsum_div (f : Z -> Q) (d : Q) (l : list Z) :
  (Qsum ((fun k => f k / d) <$> l) == Qsum (f <$> l) / d)%Q.
Proof.
  induction l as [|x l IH]; cbn.
  - unfold Qdiv. ring.
  - rewrite IH. unfold Qdiv. ring.
Qed.


(** X14: the cells that [flooding_correction] examines are the cells of
    the grid that are dry, their depth at most [dry_depth], and have a wet
    neighbour inside the grid. *)
Theorem shore_ind_cells c s i j :
  2 <= L c -> 2 <= W c ->
  (i, j) ∈ shore_ind c s <->
  in_grid c i j /\ (depth s i j <= dry_depth c)%Q
  /\ exists n, wet_neighbour c s i j n.
Proof.
  intros HL HW. split.
  - intros Hin. pose proof Hin as Hin'. apply elem_of_shore_ind in Hin' as (Hg & Hd & _).
    split; [done|]. split.
    + by apply Qltb_false.
    + by eapply shore_has_wet_neighbour.
  - intros (Hg & Hd & n & Hn). by eapply wet_neighbour_shore.
Qed.

Lemma set_stage_same s : set_stage (stage s) s = s.
Proof. by destruct s. Qed.

Lemma fold_set_stage_frame (P : Z * Z -> bool) (V : Z * Z -> Q) l s :
  let s' := fold_left
              (fun s ij => if P ij
                           then set_stage (grid_set (stage s) ij.1 ij.2 (V ij)) s
                           else s) l s in
  s' = set_stage (stage s') s.
Proof.
  cbn zeta. revert s. induction l as [|ij l IH]; intros s.
  - cbn. by rewrite set_stage_same.
  - cbn [fold_left]. rewrite IH at 1. by destruct (P ij).
Qed.

Lemma flooding_correction_frame c s :
  flooding_correction c s = set_stage (stage (flooding_correction c s)) s.
Proof.
  unfold flooding_correction.
  exact (fold_set_stage_frame
           (fun ij => existsb (fun v => Qltb (eta c ij.1 ij.2) v)
                        (stage_nh (get_wet_mask_nh c s)
                           (build_weight_array (L c) (W c) (stage s) false false)
                           ij.1 ij.2))
           (fun ij => py_max (stage_nh (get_wet_mask_nh c s)
                                (build_weight_array (L c) (W c) (stage s) false false)
                                ij.1 ij.2))
           (shore_ind c s) s).
Qed.

Lemma Qltb_Qeq e v v' : (v == v')%Q -> Qltb e v = Qltb e v'.
Proof.
  intros H. destruct (Qltb e v') eqn:E.
  - apply Qltb_true. apply Qltb_true in E. by rewrite H.
  - apply Qltb_false. apply Qltb_false in E. by rewrite H.
Qed.

Lemma existsb_Qltb_Qeq e l l' :
  Forall2 Qeq l l' ->
  existsb (fun v => Qltb e v) l = existsb (fun v => Qltb e v) l'.
Proof.
  induction 1 as [|v v' l l' Hv _ IH]; [done|].
  cbn. by rewrite (Qltb_Qeq e v v' Hv), IH.
Qed.

Lemma Qmaximum_Qeq x x' l l' :
  (x == x')%Q -> Forall2 Qeq l l' -> (Qmaximum x l == Qmaximum x' l')%Q.
Proof.
  intros Hx Hl. revert x x' Hx. induction Hl as [|v v' l l' Hv _ IH]; intros x x' Hx.
  - done.
  - cbn. apply IH.
    assert (E : Qltb x v = Qltb x' v').
    { destruct (Qltb x' v') eqn:E.
      - apply Qltb_true. apply Qltb_true in E. by rewrite Hx, Hv.
      - apply Qltb_false. apply Qltb_false in E. by rewrite Hx, Hv. }
    rewrite E. by destruct (Qltb x' v').
Qed.

Lemma py_max_Qeq l l' : Forall2 Qeq l l' -> (py_max l == py_max l')%Q.
Proof.
  destruct 1 as [|v v' l l' Hv Hl]; [done|]. cbn. by apply Qmaximum_Qeq.
Qed.

Lemma stage_nh_again c s i j :
  2 <= L c -> 2 <= W c -> in_grid c i j ->
  let s' := flooding_correction c s in
  Forall2 Qeq
    (stage_nh (get_wet_mask_nh c s')
       (build_weight_array (L c) (W c) (stage s') false false) i j)
    (stage_nh (get_wet_mask_nh c s)
       (build_weight_array (L c) (W c) (stage s) false false) i j).
Proof.
  intros HL HW Hg s'.
  assert (Hd : depth s' = depth s).
  { unfold s'. by rewrite flooding_correction_frame. }
  unfold stage_nh. apply Forall2_fmap, Forall_Forall2_diag, list.Forall_forall.
  intros k Hk. apply elem_of_seqZ in Hk.
  pose proof (stage_nh_entry c s HL HW k i j ltac:(lia) Hg) as H1.
  pose proof (stage_nh_entry c s' HL HW k i j ltac:(lia) Hg) as H2.
  cbn zeta in H1, H2. cbn [fst snd] in H1, H2. rewrite Hd in H2.
  destruct H1 as [(Hn & Hw & H1)|(Hn & H1)], H2 as [(Hn' & Hw' & H2)|(Hn' & H2)].
  - rewrite H1, H2.
    apply eq_subrelation; [apply _|]. unfold s'.
    rewrite flooding_correction_stage. cbn zeta.
    rewrite bool_decide_eq_false_2; [done|].
    intros Hin. apply elem_of_shore_ind in Hin as (_ & Hdry & _).
    apply Qltb_false in Hdry. lra.
  - exfalso. by apply Hn'.
  - exfalso. by apply Hn.
  - by rewrite H1, H2.
Qed.

(** X15: [flooding_correction] assigns nothing but the stage, and a second
    application changes nothing: the stage it leaves is a fixed point, up
    to the equality of the rationals. *)
Theorem flooding_correction_idempotent c s i j :
  2 <= L c -> 2 <= W c ->
  let s' := flooding_correction c s in
  s' = set_stage (stage s') s
  /\ (stage (flooding_correction c s') i j == stage s' i j)%Q.
Proof.
  intros HL HW s'. split; [apply flooding_correction_frame|].
  rewrite (flooding_correction_stage c s'). cbn zeta.
  assert (Hsh : shore_ind c s' = shore_ind c s).
  { unfold s'. by rewrite flooding_correction_frame. }
  rewrite Hsh.
  destruct (decide ((i, j) ∈ shore_ind c s)) as [Hin|Hin].
  - rewrite bool_decide_eq_true_2 by done. cbn [andb].
    pose proof Hin as Hg. apply elem_of_shore_ind in Hg as (Hg & _).
    pose proof (stage_nh_again c s i j HL HW Hg) as Hnh. cbn zeta in Hnh. fold s' in Hnh.
    rewrite (existsb_Qltb_Qeq _ _ _ Hnh).
    assert (Hst : stage s' i j =
              let nh := stage_nh (get_wet_mask_nh c s)
                          (build_weight_array (L c) (W c) (stage s) false false) i j in
              if existsb (fun v => Qltb (eta c i j) v) nh
              then py_max nh else stage s i j).
    { unfold s'. rewrite (flooding_correction_stage c s). cbn zeta.
      by rewrite bool_decide_eq_true_2 by done. }
    cbn zeta in Hst.
    destruct (existsb _ _); [|reflexivity].
    rewrite Hst. by apply py_max_Qeq.
  - rewrite bool_decide_eq_false_2 by done. reflexivity.
Qed.

(** ** Smoothing *)

Lemma smooth_cell_other ct pct C st ab i j :
  ab <> (i, j) \/ ct i j <= -2 ->
  (smooth_cell ct pct C st ab).1 i j = st.1 i j.
Proof.
  destruct st as [Htemp Hpad], ab as [a b]. intros Hab. unfold smooth_cell.
  destruct (Z.gtb_spec (ct a b) (-2)) as [Hct|Hct]; [|reflexivity].
  cbv zeta. destruct (_ >? 0); [|reflexivity]. cbn [fst].
  rewrite grid_set_eq. rewrite bool_decide_eq_false_2; [reflexivity|].
  intros [= -> ->]. destruct Hab as [Hab|Hab]; [done|lia].
Qed.

(** X16: the smoothing never changes a cell of type -2 or below, whatever
    the number of passes. *)
Theorem smooth_free_surface_keeps_walls Ls Ws Hnew Hnew_pad ct pct Nsmooth Csmooth i j :
  (0 <= i < Ls -> 0 <= j < Ws -> ct i j <= -2) ->
  _smooth_free_surface Ls Ws Hnew Hnew_pad ct pct Nsmooth Csmooth i j = Hnew i j.
Proof.
  intros Hwall. unfold _smooth_free_surface.
  induction (Z.to_nat Nsmooth) as [|n IH]; [reflexivity|].
  rewrite Nat.iter_succ, <- IH.
  generalize (Nat.iter n (smooth_pass Ls Ws ct pct Csmooth) (Hnew, Hnew_pad)).
  intros st. unfold smooth_pass.
  assert (Hall : Forall (fun ab => ab <> (i, j) \/ ct i j <= -2) (cells Ls Ws)).
  { apply list.Forall_forall. intros [a b] Hab. apply elem_of_cells in Hab.
    destruct (decide ((a, b) = (i, j))) as [[= -> ->]|]; [right|by left].
    apply Hwall; lia. }
  revert st. induction Hall as [|ab l Hab _ IHl]; intros st; [reflexivity|].
  cbn [fold_left]. rewrite IHl. by apply smooth_cell_other.
Qed.

Lemma smooth_cell_Csmooth_one ct pct C st ij i j :
  (C == 1)%Q -> ((smooth_cell ct pct C st ij).1 i j == st.1 i j)%Q.
Proof.
  intros HC. destruct st as [Htemp Hpad], ij as [a b]. unfold smooth_cell.
  destruct (ct a b >? -2); [|reflexivity].
  cbv zeta. destruct (_ >? 0); [|reflexivity].
  cbn [fst]. rewrite grid_set_eq. case_bool_decide as E; [|reflexivity].
  injection E as -> ->. rewrite HC. unfold Qdiv. ring.
Qed.

(** X17: with [Csmooth] equal to 1 the smoothing returns the surface it
    was given, whatever the number of passes. *)
Theorem smooth_free_surface_Csmooth_one Ls Ws Hnew Hnew_pad ct pct Nsmooth Csmooth i j :
  (Csmooth == 1)%Q ->
  (_smooth_free_surface Ls Ws Hnew Hnew_pad ct pct Nsmooth Csmooth i j == Hnew i j)%Q.
Proof.
  intros HC. unfold _smooth_free_surface.
  induction (Z.to_nat Nsmooth) as [|n IH]; [reflexivity|].
  rewrite Nat.iter_succ. eapply Qeq_trans; [|exact IH].
  generalize (Nat.iter n (smooth_pass Ls Ws ct pct Csmooth) (Hnew, Hnew_pad)).
  intros st. unfold smooth_pass. generalize (cells Ls Ws) as l. intros l. revert st.
  induction l as [|ab l IHl]; intros st; [reflexivity|].
  cbn [fold_left]. rewrite IHl. by apply smooth_cell_Csmooth_one.
Qed.

(** X18: a cell keeps its value through every pass when each of its eight
    neighbours in the padded arrays is a cell of type -2 or holds a value
    that is not positive: the count of its neighbours is then zero. *)
Theorem smooth_free_surface_isolated_cell
    Ls Ws Hnew Hnew_pad ct pct Nsmooth Csmooth i j :
  (forall p q, 0 <= p <= 2 -> 0 <= q <= 2 -> (p, q) <> (1, 1) ->
     pct (i + p) (j + q) = -2 \/ Qle (Hnew_pad (i + p) (j + q)) 0) ->
  _smooth_free_surface Ls Ws Hnew Hnew_pad ct pct Nsmooth Csmooth i j = Hnew i j.
Proof. intros Hnone. by apply _smooth_free_surface_no_neighbour. Qed.

Lemma smooth_cell_zero ct pct C st ab x y :
  st.2 x y = 0%Q -> (smooth_cell ct pct C st ab).2 x y = 0%Q.
Proof.
  destruct st as [Htemp Hpad], ab as [a b]. cbn [snd]. intros Hz.
  unfold smooth_cell. destruct (ct a b >? -2); [|exact Hz].
  cbv zeta.
  assert (grid_set Hpad (a + 1) (b + 1) 0%Q x y = 0%Q) as Hz'.
  { rewrite grid_set_eq. by case_bool_decide. }
  destruct (_ >? 0); exact Hz'.
Qed.

Lemma smooth_cell_zeroes ct pct C st a b :
  ct a b > -2 -> (smooth_cell ct pct C st (a, b)).2 (a + 1) (b + 1) = 0%Q.
Proof.
  destruct st as [Htemp Hpad]. intros Hct. unfold smooth_cell.
  replace (ct a b >? -2) with true by (symmetry; apply Z.gtb_lt; lia).
  cbv zeta.
  assert (grid_set Hpad (a + 1) (b + 1) 0%Q (a + 1) (b + 1) = 0%Q) as Hz'.
  { rewrite grid_set_eq. by rewrite bool_decide_eq_true_2. }
  destruct (_ >? 0); exact Hz'.
Qed.

Lemma fold_smooth_cell_zero ct pct C l st x y :
  st.2 x y = 0%Q -> (fold_left (smooth_cell ct pct C) l st).2 x y = 0%Q.
Proof.
  revert st. induction l as [|ab l IH]; intros st Hz; [done|].
  cbn [fold_left]. apply IH. by apply smooth_cell_zero.
Qed.

Lemma smooth_pass_zeroes Ls Ws ct pct C st a b :
  0 <= a < Ls -> 0 <= b < Ws -> ct a b > -2 ->
  (smooth_pass Ls Ws ct pct C st).2 (a + 1) (b + 1) = 0%Q.
Proof.
  intros Ha Hb Hct. unfold smooth_pass.
  assert (Hin : (a, b) ∈ cells Ls Ws) by (by apply elem_of_cells).
  revert st Hin. generalize (cells Ls Ws) as l.
  induction l as [|ab l IH]; intros st Hin; [by apply elem_of_nil in Hin|].
  cbn [fold_left]. apply elem_of_cons in Hin as [<-|Hin].
  - apply fold_smooth_cell_zero. by apply smooth_cell_zeroes.
  - by apply IH.
Qed.

(** X19: a pass sets to zero the entry of the padded surface under every
    cell it visits, so that from the second pass on a cell away from the
    border of the grid finds no neighbour to count: for such a cell any
    number of passes gives what the first pass gives.  The padded cell types
    are taken to hold the cell types, none of which is below -2. *)
Theorem smooth_free_surface_later_passes
    Ls Ws Hnew Hnew_pad ct pct Nsmooth Csmooth i j :
  (forall x y, 0 <= x < Ls -> 0 <= y < Ws ->
     -2 <= ct x y /\ pct (x + 1) (y + 1) = ct x y) ->
  1 <= i <= Ls - 2 -> 1 <= j <= Ws - 2 -> 1 <= Nsmooth ->
  _smooth_free_surface Ls Ws Hnew Hnew_pad ct pct Nsmooth Csmooth i j =
  _smooth_free_surface Ls Ws Hnew Hnew_pad ct pct 1 Csmooth i j.
Proof.
  intros Hct Hi Hj HN. unfold _smooth_free_surface.
  destruct (Z.to_nat Nsmooth) as [|n] eqn:En; [lia|].
  rewrite Nat.iter_succ_r. change (Z.to_nat 1) with 1%nat.
  change (Nat.iter 1 ?f ?x) with (f x).
  set (st1 := smooth_pass Ls Ws ct pct Csmooth (Hnew, Hnew_pad)).
  pose proof (_smooth_free_surface_no_neighbour ct pct Csmooth st1.2 i j) as Hk.
  unfold _smooth_free_surface in Hk.
  specialize (fun H => Hk H Ls Ws st1.1 (Z.of_nat n)).
  rewrite Nat2Z.id, <- surjective_pairing in Hk. apply Hk.
  intros p q Hp Hq _.
  destruct (Hct (i + p - 1) (j + q - 1) ltac:(lia) ltac:(lia)) as [Hge Hpct].
  replace (i + p - 1 + 1) with (i + p) in Hpct by lia.
  replace (j + q - 1 + 1) with (j + q) in Hpct by lia.
  destruct (decide (ct (i + p - 1) (j + q - 1) = -2)) as [E|E].
  - left. by rewrite Hpct.
  - right. unfold st1.
    pose proof (smooth_pass_zeroes Ls Ws ct pct Csmooth (Hnew, Hnew_pad)
                  (i + p - 1) (j + q - 1) ltac:(lia) ltac:(lia) ltac:(lia)) as Hz.
    replace (i + p - 1 + 1) with (i + p) in Hz by lia.
    replace (j + q - 1 + 1) with (j + q) in Hz by lia.
    rewrite Hz. lra.
Qed.

Lemma Qsum_positive_bound l M :
  Forall (fun v => (0 <= v <= M)%Q) l ->
  (0 <= Qsum l
   /\ Qsum l <= inject_Z (Z.of_nat (length (List.filter (Qltb 0) l))) * M)%Q.
Proof.
  induction 1 as [|v l [Hv0 HvM] _ [IH0 IHM]]; cbn [Qsum List.filter length].
  - change (inject_Z (Z.of_nat 0)) with 0%Q. lra.
  - destruct (Qltb 0 v) eqn:E.
    + cbn [length]. rewrite Nat2Z.inj_succ, <- Z.add_1_r, inject_Z_plus.
      change (inject_Z 1) with 1%Q. lra.
    + apply Qltb_false in E. lra.
Qed.

Section Bounds.

Context (Ls Ws : Z) (ct pct : grid Z) (C M : Q).
Hypothesis HC : (0 <= C <= 1)%Q.

Lemma smooth_cell_within st a b :
  0 <= a < Ls -> 0 <= b < Ws ->
  within Ls Ws M st -> within Ls Ws M (smooth_cell ct pct C st (a, b)).
Proof.
  destruct st as [Htemp Hpad]. intros Ha Hb [H1 H2]. cbn [fst snd] in H1, H2.
  assert (HM : (0 <= M)%Q) by (specialize (H1 a b Ha Hb); lra).
  unfold smooth_cell. destruct (ct a b >? -2); [|by split].
  cbv zeta.
  set (Hpad' := grid_set Hpad (a + 1) (b + 1) 0%Q).
  assert (H2' : forall x y, 0 <= x < Ls + 2 -> 0 <= y < Ws + 2 ->
                  (0 <= Hpad' x y <= M)%Q).
  { intros x y Hx Hy. unfold Hpad'. rewrite grid_set_eq.
    case_bool_decide; [lra|by apply H2]. }
  set (l := zip_with _ _ _).
  destruct (Z.gtb_spec (Z.of_nat (length (List.filter (Qltb 0) l))) 0) as [Hn|Hn];
    [|by split].
  split; [|exact H2'].
  cbn [fst]. intros x y Hx Hy. rewrite grid_set_eq.
  case_bool_decide as E; [|by apply H1].
  assert (Hl : Forall (fun v => (0 <= v <= M)%Q) l).
  { assert (He : forall p q, 0 <= p <= 2 -> 0 <= q <= 2 ->
              Qle 0 (if pct (a + p) (b + q) =? -2 then 0%Q else Hpad' (a + p) (b + q))
              /\ Qle (if pct (a + p) (b + q) =? -2 then 0%Q
                      else Hpad' (a + p) (b + q)) M).
    { intros p q Hp Hq. destruct (_ =? -2); [lra|]. apply H2'; lia. }
    unfold l, window. cbn.
    repeat (constructor; [apply He; lia|]). constructor. }
  destruct (Qsum_positive_bound l M Hl) as [HS0 HSn].
  set (n := inject_Z (Z.of_nat (length (List.filter (Qltb 0) l)))) in *.
  assert (Hnpos : (0 < n)%Q).
  { unfold n. rewrite <- (Zlt_Qlt 0). exact Hn. }
  set (r := (Qsum l / n)%Q).
  assert (Hr : (0 <= r <= M)%Q).
  { unfold r. split.
    - apply Qle_shift_div_l; [done|]. lra.
    - apply Qle_shift_div_r; [done|]. lra. }
  specialize (H1 a b Ha Hb).
  assert (Heq : (C * Htemp a b + (1 - C) * Qsum l / n == C * Htemp a b + (1 - C) * r)%Q).
  { unfold r. field. lra. }
  rewrite Heq. nra.
Qed.

Lemma smooth_pass_within st :
  within Ls Ws M st -> within Ls Ws M (smooth_pass Ls Ws ct pct C st).
Proof.
  unfold smooth_pass.
  assert (Hall : Forall (fun ab => 0 <= ab.1 < Ls /\ 0 <= ab.2 < Ws) (cells Ls Ws)).
  { apply list.Forall_forall. intros [a b] Hab. by apply elem_of_cells in Hab. }
  revert st. induction Hall as [|[a b] l [Ha Hb] _ IH]; intros st Hst; [done|].
  cbn [fold_left]. apply IH. by apply smooth_cell_within.
Qed.

End Bounds.


(** ** The free surface along the paths *)

Section WalkProperties.

Context (shape : Z * Z) (looped : list Z) (cell_type : grid Z)
  (uw ux uy depth : grid Q) (dx u0 h0 H_SL S0 : Q).

Lemma visits_zero cell l : visits cell l = 0%nat -> cell ∉ l.
Proof. intros Hz Hin. apply visits_pos in Hin. lia. Qed.

Lemma walk_parcel_visits acc acc' p inds i j :
  walk_parcel shape looped cell_type uw ux uy depth dx u0 h0 H_SL S0 acc p inds
  = Some acc' ->
  let n := if path_contributes shape cell_type looped p inds
           then visits (i, j) (upstream_cells shape inds) else 0%nat in
  (acc'.1 i j == acc.1 i j + inject_Z (Z.of_nat n))%Q
  /\ (n = 0%nat -> acc'.2 i j = acc.2 i j).
Proof.
  unfold walk_parcel, path_contributes. cbn zeta.
  set (pts := path_cells shape inds).
  assert (((fun ind => (custom_unravel ind shape).1)
             <$> List.filter (fun x => 0 <? x) inds) = pts.*1) as ->.
  { unfold pts, path_cells. rewrite <- list_fmap_compose. reflexivity. }
  assert (((fun ind => (custom_unravel ind shape).2)
             <$> List.filter (fun x => 0 <? x) inds) = pts.*2) as ->.
  { unfold pts, path_cells. rewrite <- list_fmap_compose. reflexivity. }
  destruct (contributes cell_type looped p (pts.*1) (pts.*2)) as [[|]|] eqn:Ec;
    cbn [mbind option_bind]; [| |discriminate].
  - intros [= <-]. cbn [fst snd].
    assert (length pts - 1 < length pts)%nat as Hk.
    { unfold contributes in Ec. destruct pts; [discriminate|]. cbn. lia. }
    rewrite length_fmap. unfold upstream_cells. fold pts.
    match goal with
    | |- context [fold_left _ _ ?st] =>
        pose proof (walk_fold_visit uw ux uy depth dx u0 h0 S0 pts _ st i j Hk) as [H1 H2]
    end.
    split; [exact H1|]. intros Hz. apply H2. by apply visits_zero.
  - intros [= <-]. split; [|done]. change (inject_Z (Z.of_nat 0)) with 0%Q. lra.
Qed.

Lemma walk_parcels_visits paths acc acc' p i j :
  walk_parcels shape looped cell_type uw ux uy depth dx u0 h0 H_SL S0 acc p paths
  = Some acc' ->
  let n := visit_count shape cell_type looped p paths (i, j) in
  (acc'.1 i j == acc.1 i j + inject_Z (Z.of_nat n))%Q
  /\ (n = 0%nat -> acc'.2 i j = acc.2 i j).
Proof.
  revert acc p. induction paths as [|inds paths IH]; intros acc p; cbn zeta.
  - intros [= <-]. cbn [visit_count]. split; [|done].
    change (inject_Z (Z.of_nat 0)) with 0%Q. lra.
  - cbn [walk_parcels visit_count].
    destruct (walk_parcel _ _ _ _ _ _ _ _ _ _ _ _ acc p inds) as [acc1|] eqn:E1;
      [|discriminate].
    cbn [mbind option_bind]. intros E2.
    destruct (walk_parcel_visits acc acc1 p inds i j E1) as [H1 H1'].
    destruct (IH acc1 (S p) E2) as [H2 H2']. cbn zeta in *.
    split.
    + rewrite H2, H1, Nat2Z.inj_add, inject_Z_plus. ring.
    + intros Hz. rewrite H2', H1' by lia. done.
Qed.

(** X21: what [_accumulate_free_surface_walks] returns as [sfc_visit]: at
    each cell, the number of times the walked paths pass through the cell
    upstream of their last cell.  A cell that no walked path passes through
    has [sfc_visit] and [sfc_sum] at zero. *)
Theorem accumulate_free_surface_walks_visits paths acc i j :
  _accumulate_free_surface_walks shape paths looped cell_type
    uw ux uy depth dx u0 h0 H_SL S0 = Some acc ->
  let n := visit_count shape cell_type looped 0 paths (i, j) in
  (acc.1 i j == inject_Z (Z.of_nat n))%Q
  /\ (n = 0%nat -> acc.2 i j = 0%Q).
Proof.
  unfold _accumulate_free_surface_walks. intros Ha.
  destruct (walk_parcels_visits paths _ acc 0%nat i j Ha) as [H1 H2].
  cbn zeta in *. cbn [fst snd] in *. split; [rewrite H1; ring|exact H2].
Qed.

Lemma walk_step_offshore (pts : list (Z * Z)) st k :
  (k < length pts)%nat ->
  (forall cell, pts !! k = Some cell -> offshore uw depth u0 h0 cell) ->
  in_ocean st = true -> (dH st == 0)%Q ->
  (Hnew st (getZ (pts.*1) (k + 1)) (getZ (pts.*2) (k + 1)) == H_SL)%Q ->
  at_sea_level H_SL st ->
  let st' := walk_step uw ux uy depth dx u0 h0 S0 (pts.*1) (pts.*2) st k in
  in_ocean st' = true /\ (dH st' == 0)%Q
  /\ (Hnew st' (getZ (pts.*1) k) (getZ (pts.*2) k) == H_SL)%Q
  /\ at_sea_level H_SL st'.
Proof.
  intros Hk Hoff Hio Hd Hn Hsl.
  destruct (lookup_lt_is_Some_2 pts k) as [[ci cj] Hc]; [lia|].
  destruct (Hoff _ Hc) as [Hu Hdp]. cbn [fst snd] in Hu, Hdp.
  assert (getZ (pts.*1) k = ci) as Hi.
  { unfold getZ. rewrite list_lookup_fmap, Hc. reflexivity. }
  assert (getZ (pts.*2) k = cj) as Hj.
  { unfold getZ. rewrite list_lookup_fmap, Hc. reflexivity. }
  cbn zeta. unfold walk_step. rewrite Hi, Hj, Hio.
  rewrite (proj2 (Qltb_false _ _) Hu), (proj2 (Qltb_false _ _) Hdp). cbn [orb].
  assert (Hpair : (if negb (ci =? getZ (pts.*1) (k + 1)) || negb (cj =? getZ (pts.*2) (k + 1))
                   then (true, dH st) else (true, dH st)) = (true, dH st))
    by (by destruct (_ || _)).
  rewrite Hpair. cbn [in_ocean dH Hnew ws_visit ws_sum].
  split; [done|]. split; [done|].
  assert (Hv : (Hnew st (getZ (pts.*1) (k + 1)) (getZ (pts.*2) (k + 1)) + dH st == H_SL)%Q)
    by (rewrite Hn, Hd; ring).
  split.
  - rewrite grid_set_eq, bool_decide_eq_true_2 by done. exact Hv.
  - intros i j. cbn [ws_sum ws_visit]. rewrite !grid_set_eq.
    case_bool_decide as E.
    + injection E as -> ->. rewrite bool_decide_eq_true_2 by done.
      rewrite Hv, (Hsl ci cj). ring.
    + apply Hsl.
Qed.

Lemma walk_fold_offshore (pts : list (Z * Z)) k st :
  (k < length pts)%nat ->
  (forall cell, cell ∈ pts -> offshore uw depth u0 h0 cell) ->
  in_ocean st = true -> (dH st == 0)%Q ->
  (Hnew st (getZ (pts.*1) k) (getZ (pts.*2) k) == H_SL)%Q ->
  at_sea_level H_SL st ->
  at_sea_level H_SL (fold_left (walk_step uw ux uy depth dx u0 h0 S0 (pts.*1) (pts.*2))
                  (reverse (seq 0 k)) st).
Proof.
  intros Hk Hoff. revert st. induction k as [|k IH]; intros st Hio Hd Hn Hsl.
  - exact Hsl.
  - rewrite reverse_seq_S. cbn [fold_left].
    replace (S k) with (k + 1)%nat in Hn by lia.
    destruct (walk_step_offshore pts st k) as (H1 & H2 & H3 & H4); try done; [lia| |].
    { intros cell Hc. apply Hoff. by eapply list_elem_of_lookup_2. }
    apply IH; [lia|done..].
Qed.

Lemma walk_parcel_offshore acc acc' p inds :
  walk_parcel shape looped cell_type uw ux uy depth dx u0 h0 H_SL S0 acc p inds
  = Some acc' ->
  (forall cell, cell ∈ path_cells shape inds -> offshore uw depth u0 h0 cell) ->
  (forall i j, (acc.2 i j == H_SL * acc.1 i j)%Q) ->
  forall i j, (acc'.2 i j == H_SL * acc'.1 i j)%Q.
Proof.
  unfold walk_parcel. cbn zeta.
  set (pts := path_cells shape inds).
  assert (((fun ind => (custom_unravel ind shape).1)
             <$> List.filter (fun x => 0 <? x) inds) = pts.*1) as ->.
  { unfold pts, path_cells. rewrite <- list_fmap_compose. reflexivity. }
  assert (((fun ind => (custom_unravel ind shape).2)
             <$> List.filter (fun x => 0 <? x) inds) = pts.*2) as ->.
  { unfold pts, path_cells. rewrite <- list_fmap_compose. reflexivity. }
  destruct (contributes cell_type looped p (pts.*1) (pts.*2)) as [[|]|] eqn:Ec;
    cbn [mbind option_bind]; [| |discriminate].
  - intros [= <-] Hoff Hacc. cbn [fst snd].
    assert (length pts - 1 < length pts)%nat as Hk.
    { unfold contributes in Ec. destruct pts; [discriminate|]. cbn. lia. }
    rewrite length_fmap.
    apply (walk_fold_offshore pts (length pts - 1)); try done.
    cbn [Hnew]. rewrite !last_getZ, !length_fmap, grid_set_eq.
    by rewrite bool_decide_eq_true_2.
  - by intros [= <-] _ Hacc.
Qed.

Lemma walk_parcels_offshore paths acc acc' p :
  walk_parcels shape looped cell_type uw ux uy depth dx u0 h0 H_SL S0 acc p paths
  = Some acc' ->
  (forall inds cell, inds ∈ paths -> cell ∈ path_cells shape inds ->
     offshore uw depth u0 h0 cell) ->
  (forall i j, (acc.2 i j == H_SL * acc.1 i j)%Q) ->
  forall i j, (acc'.2 i j == H_SL * acc'.1 i j)%Q.
Proof.
  revert acc p. induction paths as [|inds paths IH]; intros acc p.
  - by intros [= <-] _ Hacc.
  - cbn [walk_parcels].
    destruct (walk_parcel _ _ _ _ _ _ _ _ _ _ _ _ acc p inds) as [acc1|] eqn:E1;
      [|discriminate].
    cbn [mbind option_bind]. intros E2 Hoff Hacc.
    apply (IH acc1 (S p) E2).
    + intros inds' cell Hin. apply Hoff. by apply list_elem_of_further.
    + apply (walk_parcel_offshore acc acc1 p inds E1); [|done].
      intros cell. apply Hoff. apply list_elem_of_here.
Qed.


End WalkProperties.

(** ** Flow fields *)



Lemma flooding_correction_stage_of c s s0 i j :
  stage s = stage s0 -> depth s = depth s0 ->
  stage (flooding_correction c s) i j = stage (flooding_correction c s0) i j.
Proof.
  intros Hs Hd. rewrite !flooding_correction_stage. cbn zeta.
  unfold shore_ind, get_wet_mask_nh, wet_mask. by rewrite Hs, Hd.
Qed.

(** X25: on a first iteration, [_time_iter] at 0, the stage that
    [compute_free_surface] leaves does not depend on the walks of the
    parcels: it is the stage that [flooding_correction] alone gives, and the
    depth is kept. *)
Theorem compute_free_surface_first_iteration c s s' :
  _time_iter c <= 0 ->
  compute_free_surface c s = Some s' ->
  (forall i j, stage s' i j = stage (flooding_correction c s) i j)
  /\ depth s' = depth s.
Proof.
  intros Ht. unfold compute_free_surface.
  destruct (_accumulate_free_surface_walks _ _ _ _ _ _ _ _ _ _ _ _ _) as [[v m]|];
    [|discriminate].
  cbn [mbind option_bind]. intros [= <-].
  unfold finalize_free_surface. cbn zeta.
  replace (_time_iter c >? 0) with false
    by (symmetry; rewrite Z.gtb_ltb; apply Z.ltb_ge; lia).
  split.
  - intros i j. by apply flooding_correction_stage_of.
  - by rewrite flooding_correction_frame.
Qed.

(** ** The seeding of the inlet and the relaxation of the stage *)

Section Seeding.
Context {RNG : Type}
  (get_start_indices : list Z -> list Z -> Z -> RNG -> list Z * RNG)
  (get_weight_sfc_int :
     Q -> list Q -> Q -> Q -> list Q -> list Q -> list Q -> list Q * list Q)
  (get_weight_at_cell :
     Z * Z -> list Q -> list Q -> list Q -> list Z -> Q -> Q -> Q -> list Q).

Lemma flat_add_cell c a inds v a' i j :
  flat_add c a inds v = Some a' ->
  in_grid c i j -> Forall (fun k => 0 <= k) inds ->
  a' i j = if bool_decide (i * W c + j ∈ inds) then (a i j + v)%Q else a i j.
Proof.
  unfold flat_add. destruct (mapM _ inds); [|discriminate]. cbn [mbind option_bind].
  intros [= <-] [_ Hj] Hpos. unfold reshape.
  rewrite flat_of_cell by done.
  assert (Hid : ((fun k => if k <? 0 then k + L c * W c else k) <$> inds) = inds).
  { induction Hpos as [|k inds0 Hk _ IH]; [done|]. cbn. rewrite IH. f_equal.
    destruct (Z.ltb_spec k 0); [lia|done]. }
  by rewrite Hid.
Qed.

(** X29: the seeding of the inlet at the start of [run_water_iteration]
    raises [qxn] by 1 and [qwn] by [Qp_water / dx / 2] once at each cell on
    which parcels start, however many start there, and touches no other
    cell: [a.flat[inds] += v] applies once to an index that is named more
    than once.  The start indices are taken not to be negative. *)
Theorem run_water_iteration_seeds_once c s g ls i j :
  water_loop_init RNG get_start_indices get_weight_sfc_int get_weight_at_cell c s g
  = Some ls ->
  let start :=
    (get_start_indices (inlet c) (replicate (length (inlet c)) 1) (_Np_water c) g).1 in
  in_grid c i j -> Forall (fun k => 0 <= k) start ->
  current_inds RNG ls = start
  /\ qxn (ls_self RNG ls) i j =
     (if bool_decide (i * W c + j ∈ start) then (qxn s i j + 1)%Q else qxn s i j)
  /\ qwn (ls_self RNG ls) i j =
     (if bool_decide (i * W c + j ∈ start)
      then (qwn s i j + Qp_water c / _dx c / 2)%Q else qwn s i j).
Proof.
  unfold water_loop_init.
  destruct (get_start_indices _ _ _ _) as [start g'] eqn:Eg. cbn [fst].
  destruct (flat_add c (qxn s) start 1) as [qxn'|] eqn:E1; [|discriminate].
  cbn [mbind option_bind qwn set_qxn].
  destruct (flat_add c (qwn s) start (Qp_water c / _dx c / 2)) as [qwn'|] eqn:E2;
    [|discriminate].
  cbn [mbind option_bind].
  destruct (set_column _ 0 start) as [walks|]; [|discriminate].
  cbn [mbind option_bind]. intros [= <-] Hg Hpos. cbn.
  split; [done|]. split.
  - by apply (flat_add_cell c (qxn s) start 1).
  - by apply (flat_add_cell c (qwn s) start (Qp_water c / _dx c / 2)).
Qed.
End Seeding.

Lemma shore_ind_set_stage c s v : shore_ind c (set_stage v s) = shore_ind c s.
Proof. reflexivity. Qed.

(** X30: after the first iteration, [_time_iter] above 0, the stage that
    [finalize_free_surface] leaves at a cell that the flooding correction
    does not examine is the stage relaxed towards the smoothed surface,
    [(1 - omega_sfc) * stage + omega_sfc * Hsmth]. *)
Theorem finalize_free_surface_relaxes c s i j :
  0 < _time_iter c -> (i, j) ∉ shore_ind c s ->
  stage (finalize_free_surface c s) i j =
  ((1 - _omega_sfc c) * stage s i j + _omega_sfc c * smoothed_surface c s i j)%Q.
Proof.
  intros Ht Hns. unfold finalize_free_surface. cbn zeta.
  replace (_time_iter c >? 0) with true by (symmetry; apply Z.gtb_lt; lia).
  rewrite flooding_correction_stage. cbn zeta.
  rewrite shore_ind_set_stage, bool_decide_eq_false_2 by done. reflexivity.
Qed.

(** ** The preprocessor *)

Section PreprocessorProperties.

Import Preprocessor.

Context {Path Model : Type} (path_given : Path -> bool)
  (yaml_load : Path -> UserDict) (DeltaModel : option Path -> Model).

(** The constructor, step by step. *)
Lemma Preprocessor_outcome (file : option Path) (steps : option Z) :
  let given := match file with Some p => path_given p | None => false end in
  let d := match file with
           | Some p => if path_given p then yaml_load p else empty_dict
           | None => empty_dict
           end in
  let y := default None (timesteps_entry d) in
  Preprocessor.Preprocessor Path path_given yaml_load Model DeltaModel file steps =
  if negb (is_dict d) then inl AttributeError
  else if given && has_matrix_key d then inl NotImplementedError
  else
    match _Job Path Model DeltaModel (if given then file else None) y
            (if truthy steps then steps else None) with
    | inl e => inl e
    | inr job =>
        inr {| input_file := Some (if given then file else None);
               user_dict := Some d; _has_matrix := Some false;
               arg_timesteps := Some (if truthy steps then steps else None);
               yaml_timesteps := Some y;
               timesteps := Some (if truthy steps then steps else None);
               job_list := Some [job] |}
    end.
Proof.
  cbn zeta. unfold Preprocessor.Preprocessor.
  destruct file as [p|]; [destruct (path_given p) eqn:Eg|].
  - cbn. unfold keys. destruct (is_dict (yaml_load p)) eqn:Ed; cbn; [|done].
    destruct (has_matrix_key (yaml_load p)); cbn; [done|].
    rewrite ?Ed. cbn. unfold _Job.
    destruct (truthy (default None (timesteps_entry (yaml_load p)))); cbn; [done|].
    destruct (truthy steps) eqn:Es; cbn; rewrite ?Es; done.
  - cbn. unfold _Job. destruct (truthy steps) eqn:Es; cbn; rewrite ?Es; done.
  - cbn. unfold _Job. destruct (truthy steps) eqn:Es; cbn; rewrite ?Es; done.
Qed.

(** X26: the constructor of [Preprocessor] raises an [AttributeError]
    exactly when an input file is given whose YAML is no dictionary, as that
    of an empty file, which has no method [keys]; [NotImplementedError]
    exactly when an input file is given whose YAML is a dictionary with a
    key [matrix]; and a [ValueError] exactly when the YAML, if one is given,
    is a dictionary without such a key and neither it nor the argument gives
    a number of timesteps other than zero.  It raises no [TypeError]. *)
Theorem Preprocessor_raises (file : option Path) (steps : option Z) :
  let given := match file with Some p => path_given p | None => false end in
  let d := match file with
           | Some p => if path_given p then yaml_load p else empty_dict
           | None => empty_dict
           end in
  let r := Preprocessor.Preprocessor Path path_given yaml_load Model DeltaModel
             file steps in
  (r = inl AttributeError <-> given = true /\ is_dict d = false)
  /\ (r = inl NotImplementedError <->
      given = true /\ is_dict d = true /\ has_matrix_key d = true)
  /\ (r = inl ValueError <->
      is_dict d = true
      /\ has_matrix_key d = false
      /\ truthy (default None (timesteps_entry d)) = false
      /\ truthy steps = false)
  /\ r <> inl TypeError.
Proof.
  intros given d r. subst r. rewrite Preprocessor_outcome. cbn zeta. fold given d.
  assert (Hd : given = false -> has_matrix_key d = false /\ is_dict d = true).
  { unfold given, d. destruct file as [p|]; [|done]. by intros ->. }
  assert (Ha : truthy (if truthy steps then steps else None) = truthy steps)
    by (by destruct (truthy steps) eqn:E).
  unfold _Job. rewrite Ha. clear Ha.
  destruct given, (is_dict d), (has_matrix_key d),
    (truthy (default None (timesteps_entry d))), (truthy steps); cbn [andb negb];
    try (destruct (Hd eq_refl)); intuition congruence.
Qed.

(** X27: a preprocessor that is constructed holds one job, not completed,
    on a model made from the input file.  The job takes its number of
    timesteps, which is not zero, from the YAML file when the file gives one
    other than zero, whatever the argument, and from the argument otherwise;
    the attribute [timesteps] of the preprocessor holds the argument. *)
Theorem Preprocessor_timesteps (file : option Path) (steps : option Z) self :
  Preprocessor.Preprocessor Path path_given yaml_load Model DeltaModel file steps
  = inr self ->
  let given := match file with Some p => path_given p | None => false end in
  let d := match file with
           | Some p => if path_given p then yaml_load p else empty_dict
           | None => empty_dict
           end in
  let y := default None (timesteps_entry d) in
  exists job,
    job_list Path Model self = Some [job]
    /\ job_timesteps Model job = (if truthy y then default 0 y else default 0 steps)
    /\ job_timesteps Model job <> 0
    /\ deltamodel Model job = DeltaModel (if given then file else None)
    /\ _is_completed Model job = false
    /\ timesteps Path Model self = Some (if truthy steps then steps else None).
Proof.
  intros Hr given d y. rewrite Preprocessor_outcome in Hr. cbn zeta in Hr.
  fold given d y in Hr.
  destruct (negb (is_dict d)); [discriminate|].
  destruct (given && has_matrix_key d); [discriminate|].
  unfold _Job in Hr.
  destruct (truthy y) eqn:Ey.
  - inversion Hr; subst self. eexists. cbn. repeat split.
    destruct y as [n|]; [|done]. cbn in *. by destruct (Z.eqb_spec n 0).
  - destruct (truthy steps) eqn:Es; [|discriminate].
    rewrite Es in Hr. inversion Hr; subst self. eexists. cbn. repeat split.
    destruct steps as [n|]; [|done]. cbn in *. by destruct (Z.eqb_spec n 0).
Qed.

Context (update finalize : Model -> Model).


End PreprocessorProperties.

(** ** Instances of the further properties *)

(** A closed term of an option type that computes to a value is that
    value, and a pair is the pair of its parts. *)
Lemma some_default {A} (x : option A) (d : A) :
  match x with Some _ => true | None => false end = true -> x = Some (default d x).
Proof. by destruct x. Qed.

Lemma pair_parts {A B} (p : A * B) (a : A) (b : B) : p.1 = a -> p.2 = b -> p = (a, b).
Proof. destruct p. cbn. by intros -> ->. Qed.

Section MoreWitnesses.

Import Examples.

Ltac run := vm_compute; first [reflexivity | discriminate | intros ?; discriminate].

(** A closed term of an option type that computes to a value. *)
Ltac is_some := apply some_default; vm_compute; reflexivity.

(** The looping parcel of the deflection example. *)
Lemma check_for_loops_counts_the_deflection_witness :
  1 < 4 /\ (0 < length [[7; 8; 7]])%nat /\ [8] !! 0%nat = Some 8 /\ 0 < 8
  /\ ~ NoDup (positive_walk [[7; 8; 7]] 0)
  /\ [0] !! 0%nat = Some 0 /\ [0] !! 0%nat = Some 0
  /\ (_check_for_loops isqrt [[7; 8; 7]] [8] 4 1 [0] (6, 5) 2 [0]).1.2 !! 0%nat
     = Some (0 + 1)
  /\ (_check_for_loops isqrt [[7; 8; 7]] [8] 4 1 [0] (6, 5) 2 [0]).2 !! 0%nat
     = Some (-1).
Proof.
  assert (~ NoDup (positive_walk [[7; 8; 7]] 0)) as Hd.
  { intros H. apply has_repeat_ind_false in H. vm_compute in H. discriminate. }
  repeat (split; [first [lia | reflexivity | exact Hd | cbn; lia]|]).
  apply (check_for_loops_counts_the_deflection isqrt [[7; 8; 7]] [8] 4 1 [0]
           (6, 5) 2 [0] 0%nat 8 0 0); first [lia | reflexivity | exact Hd | cbn; lia].
Defined.

(** The channel has twelve cells: an index of 12 cannot be read. *)
Lemma check_for_boundary_raises_witness :
  length [12] = length (free_surf_flag channel_state)
  /\ ~ Forall (fun k => - (L channel_config * W channel_config) <= k
                        < L channel_config * W channel_config) [12]
  /\ check_for_boundary channel_config channel_state [12] = None.
Proof.
  assert (length [12] = length (free_surf_flag channel_state)) as Hl by reflexivity.
  assert (~ Forall (fun k => - (L channel_config * W channel_config) <= k
                             < L channel_config * W channel_config) [12]) as Hn.
  { intros H. apply list.Forall_cons in H as [[_ H] _]. vm_compute in H. discriminate. }
  split; [exact Hl|]. split; [exact Hn|].
  apply (proj2 (check_for_boundary_raises channel_config channel_state [12] Hl) Hn).
Defined.

(** A parcel of the channel model that reaches the ocean edge. *)
Lemma check_for_boundary_effect_witness :
  check_for_boundary channel_config channel_state [10]
  = Some ([10], set_free_surf_flag [1] channel_state)
  /\ [10] !! 0%nat = Some 10
  /\ free_surf_flag channel_state !! 0%nat = Some 0
  /\ exists t,
       flat_read channel_config (cell_type channel_config) 10 = Some t
       /\ free_surf_flag (set_free_surf_flag [1] channel_state) !! 0%nat
          = Some (boundary_flag t 0).
Proof.
  assert (check_for_boundary channel_config channel_state [10]
          = Some ([10], set_free_surf_flag [1] channel_state)) as Hb by reflexivity.
  split; [exact Hb|]. split; [reflexivity|]. split; [reflexivity|].
  destruct (check_for_boundary_effect channel_config channel_state [10] [10]
              (set_free_surf_flag [1] channel_state) 0%nat 10 0 Hb eq_refl eq_refl)
    as (t & Ht & Hf & _).
  exists t. split; [exact Ht | exact Hf].
Defined.

(** A round of the channel model with its parcel at rest. *)
Lemma water_round_inactive_parcel_witness :
  let ls := {| ls_self := channel_state; current_inds := [0]; _step := 3;
               ls_rng := tt |} in
  let ls' := default ls (water_round isqrt unit pick7 steps channel_config ls) in
  water_round isqrt unit pick7 steps channel_config ls = Some ls'
  /\ current_inds unit ls !! 0%nat = Some 0
  /\ current_inds unit ls' !! 0%nat = Some 0.
Proof.
  intros ls ls'.
  assert (water_round isqrt unit pick7 steps channel_config ls = Some ls') as Hr
    by (unfold ls'; is_some).
  split; [exact Hr|]. split; [reflexivity|].
  destruct (water_round_inactive_parcel isqrt pick7 steps channel_config ls ls'
              0%nat Hr eq_refl) as (H & _).
  exact H.
Defined.

(** The first round of the channel model. *)
Lemma water_round_records_the_path_witness :
  let ls := {| ls_self := channel_state; current_inds := [1]; _step := 0;
               ls_rng := tt |} in
  let ls' := default ls (water_round isqrt unit pick7 steps channel_config ls) in
  water_round isqrt unit pick7 steps channel_config ls = Some ls'
  /\ free_surf_walk_indices (ls_self unit ls) !! 0%nat = Some (replicate 7 0)
  /\ exists row',
       free_surf_walk_indices (ls_self unit ls') !! 0%nat = Some row'
       /\ (length (replicate 7 0) <= length row')%nat.
Proof.
  intros ls ls'.
  assert (water_round isqrt unit pick7 steps channel_config ls = Some ls') as Hr
    by (unfold ls'; is_some).
  split; [exact Hr|]. split; [reflexivity|].
  destruct (water_round_records_the_path isqrt pick7 steps channel_config ls ls'
              0%nat (replicate 7 0) Hr eq_refl) as (row' & rec & f' & H1 & H2 & _).
  exists row'. split; [exact H1 | exact H2].
Defined.

(** The run of the channel model ends after three rounds. *)
Lemma run_water_iteration_rounds_witness :
  let res :=
    run_water_iteration isqrt unit pick7 start1 steps no_weights flat_weights
      channel_config channel_state tt in
  let ls0 := {| ls_self := channel_state; current_inds := []; _step := 0;
                ls_rng := tt |} in
  let ls' := default ls0 res.1 in
  res = (Some ls', 3%nat) /\ _step unit ls' = Z.of_nat 3.
Proof.
  intros res ls0 ls'.
  assert (res = (Some ls', 3%nat)) as Hr.
  { apply pair_parts; [unfold ls'; is_some | run]. }
  split; [exact Hr|].
  destruct (run_water_iteration_rounds isqrt pick7 start1 steps no_weights
              flat_weights channel_config channel_state tt ls' 3%nat Hr) as (H & _).
  exact H.
Defined.

(** The same run, from the start of a water iteration. *)
Lemma run_water_iteration_flags_witness :
  let res :=
    run_water_iteration isqrt unit pick7 start1 steps no_weights flat_weights
      channel_config (init_water_iteration channel_config channel_state) tt in
  let ls0 := {| ls_self := channel_state; current_inds := []; _step := 0;
                ls_rng := tt |} in
  let ls' := default ls0 res.1 in
  length (free_surf_flag channel_state)
  = length (free_surf_walk_indices channel_state)
  /\ res = (Some ls', res.2)
  /\ length (free_surf_flag (ls_self unit ls')) = length (current_inds unit ls').
Proof.
  intros res ls0 ls'.
  assert (res = (Some ls', res.2)) as Hr.
  { apply pair_parts; [unfold ls'; is_some | reflexivity]. }
  split; [reflexivity|]. split; [exact Hr|].
  destruct (run_water_iteration_flags isqrt pick7 start1 steps no_weights
              flat_weights channel_config channel_state tt ls' res.2 eq_refl Hr)
    as (H & _).
  exact H.
Defined.

(** The channel with [stepmax] at 2 and its parcel on cell 1, in the first
    round: with a path matrix of one column the round raises, with one of
    two columns it records the step of the parcel to cell 4. *)
Lemma water_round_raises_when_the_matrix_is_full_witness :
  let ls := {| ls_self := set_free_surf_walk_indices [[1]] channel_state;
               current_inds := [1]; _step := 0; ls_rng := tt |} in
  let wide := {| ls_self := set_free_surf_walk_indices [[1; 0]] channel_state;
                 current_inds := [1]; _step := 0; ls_rng := tt |} in
  -4 < stepmax short_config < 4
  /\ ncols (free_surf_walk_indices (ls_self unit ls)) <= _step unit ls + 1
  /\ water_round isqrt unit pick7 steps short_config ls = None
  /\ (free_surf_walk_indices
        <$> (ls_self unit <$> water_round isqrt unit pick7 steps short_config wide))
     = Some [[1; 4]].
Proof.
  intros ls wide.
  assert (-4 < stepmax short_config < 4) as Hs by (vm_compute; split; reflexivity).
  assert (ncols (free_surf_walk_indices (ls_self unit ls)) <= _step unit ls + 1)
    as Hn by (vm_compute; discriminate).
  split; [exact Hs|]. split; [exact Hn|].
  split; [|vm_compute; reflexivity].
  apply (water_round_raises_when_the_matrix_is_full isqrt pick7 steps short_config ls
           Hs Hn).
Defined.

(** A parcel of the basin model steps from cell 0 to cell 1. *)
Lemma update_Q_counts_the_steps_witness :
  in_grid basin_config 0 1
  /\ Forall (fun ii => 0 <= ii < L basin_config * W basin_config) [0]
  /\ Forall (fun ii => 0 <= ii < L basin_config * W basin_config) [1]
  /\ Qeq (qwn (update_Q basin_config basin_state [1%Q] [0] [1] [true] [1] [0]) 0 1)
         (qwn basin_state 0 1
          + inject_Z (Z.of_nat (moving_at [0] [true] (0 * W basin_config + 1)
                                + moving_at [1] [true] (0 * W basin_config + 1)))
            * (Qp_water basin_config / _dx basin_config / 2)).
Proof.
  assert (in_grid basin_config 0 1) as Hg by (vm_compute; repeat split; discriminate).
  assert (Forall (fun ii => 0 <= ii < L basin_config * W basin_config) [0]) as H0.
  { repeat constructor; vm_compute; discriminate || reflexivity. }
  assert (Forall (fun ii => 0 <= ii < L basin_config * W basin_config) [1]) as H1.
  { repeat constructor; vm_compute; discriminate || reflexivity. }
  split; [exact Hg|]. split; [exact H0|]. split; [exact H1|].
  apply (update_Q_counts_the_steps basin_config basin_state [1%Q] [0] [1] [true]
           [1] [0] 0 1 Hg H0 H1).
Defined.

(** The eastern neighbour of the first cell of a 2 x 2 array. *)
Lemma build_weight_array_neighbours_witness :
  0 <= 0 < 8 /\ 0 <= 0 < 2 /\ 0 <= 0 < 2
  /\ build_weight_array 2 2 (stage shore_state) false false 0 0 0
     = stage shore_state 0 1.
Proof.
  split; [lia|]. split; [lia|]. split; [lia|].
  destruct (build_weight_array_neighbours 2 2 (stage shore_state) 0 0 0
              ltac:(lia) ltac:(lia) ltac:(lia)) as (H & _).
  exact H.
Defined.

(** The dry cell of the shore model is a shore cell. *)
Lemma shore_ind_cells_witness :
  2 <= L shore_config /\ 2 <= W shore_config
  /\ ((0, 0) ∈ shore_ind shore_config shore_state <->
      in_grid shore_config 0 0
      /\ Qle (depth shore_state 0 0) (dry_depth shore_config)
      /\ exists n, wet_neighbour shore_config shore_state 0 0 n).
Proof.
  assert (2 <= L shore_config) as HL by (vm_compute; discriminate).
  assert (2 <= W shore_config) as HW by (vm_compute; discriminate).
  split; [exact HL|]. split; [exact HW|].
  apply (shore_ind_cells shore_config shore_state 0 0 HL HW).
Defined.

(** The flooding of the shore model, applied twice. *)
Lemma flooding_correction_idempotent_witness :
  2 <= L shore_config /\ 2 <= W shore_config
  /\ Qeq (stage (flooding_correction shore_config
                   (flooding_correction shore_config shore_state)) 0 0)
         (stage (flooding_correction shore_config shore_state) 0 0).
Proof.
  assert (2 <= L shore_config) as HL by (vm_compute; discriminate).
  assert (2 <= W shore_config) as HW by (vm_compute; discriminate).
  split; [exact HL|]. split; [exact HW|].
  destruct (flooding_correction_idempotent shore_config shore_state 0 0 HL HW)
    as (_ & H).
  exact H.
Defined.

(** The ramp, every cell of it a wall. *)
Lemma smooth_free_surface_keeps_walls_witness :
  let walls : grid Z := fun _ _ => -2 in
  (0 <= 1 < 3 -> 0 <= 1 < 3 -> walls 1 1 <= -2)
  /\ _smooth_free_surface 3 3 ramp (np_pad_edge 3 3 ramp) walls walls 2 (1 # 2) 1 1
     = ramp 1 1.
Proof.
  intros walls.
  assert (0 <= 1 < 3 -> 0 <= 1 < 3 -> walls 1 1 <= -2) as Hw by (intros _ _; unfold walls; lia).
  split; [exact Hw|].
  apply (smooth_free_surface_keeps_walls 3 3 ramp (np_pad_edge 3 3 ramp) walls walls
           2 (1 # 2) 1 1 Hw).
Defined.

(** The ramp, smoothed with [Csmooth] at 2/2. *)
Lemma smooth_free_surface_Csmooth_one_witness :
  Qeq (2 # 2) 1
  /\ Qeq (_smooth_free_surface 3 3 ramp (np_pad_edge 3 3 ramp) open_cells open_cells
            2 (2 # 2) 1 1)
         (ramp 1 1).
Proof.
  assert (Qeq (2 # 2) 1) as HC by reflexivity.
  split; [exact HC|].
  apply (smooth_free_surface_Csmooth_one 3 3 ramp (np_pad_edge 3 3 ramp) open_cells
           open_cells 2 (2 # 2) 1 1 HC).
Defined.

(** The ramp over a padded surface that holds zeros. *)
Lemma smooth_free_surface_isolated_cell_witness :
  (forall p q, 0 <= p <= 2 -> 0 <= q <= 2 -> (p, q) <> (1, 1) ->
     open_cells (1 + p) (1 + q) = -2 \/ Qle (zeros (1 + p) (1 + q)) 0)
  /\ _smooth_free_surface 3 3 ramp zeros open_cells open_cells 2 (1 # 2) 1 1
     = ramp 1 1.
Proof.
  assert (forall p q, 0 <= p <= 2 -> 0 <= q <= 2 -> (p, q) <> (1, 1) ->
            open_cells (1 + p) (1 + q) = -2 \/ Qle (zeros (1 + p) (1 + q)) 0) as Hn.
  { intros p q _ _ _. right. unfold zeros. lra. }
  split; [exact Hn|].
  apply (smooth_free_surface_isolated_cell 3 3 ramp zeros open_cells open_cells
           2 (1 # 2) 1 1 Hn).
Defined.

(** Two passes over the ramp, at its middle cell. *)
Lemma smooth_free_surface_later_passes_witness :
  (forall x y, 0 <= x < 3 -> 0 <= y < 3 ->
     -2 <= open_cells x y /\ open_cells (x + 1) (y + 1) = open_cells x y)
  /\ 1 <= 1 <= 3 - 2 /\ 1 <= 1 <= 3 - 2 /\ 1 <= 2
  /\ _smooth_free_surface 3 3 ramp (np_pad_edge 3 3 ramp) open_cells open_cells
       2 (1 # 2) 1 1
     = _smooth_free_surface 3 3 ramp (np_pad_edge 3 3 ramp) open_cells open_cells
         1 (1 # 2) 1 1.
Proof.
  assert (forall x y, 0 <= x < 3 -> 0 <= y < 3 ->
            -2 <= open_cells x y /\ open_cells (x + 1) (y + 1) = open_cells x y) as Hc.
  { intros x y _ _. unfold open_cells. split; [lia | reflexivity]. }
  split; [exact Hc|]. split; [lia|]. split; [lia|]. split; [lia|].
  apply (smooth_free_surface_later_passes 3 3 ramp (np_pad_edge 3 3 ramp) open_cells
           open_cells 2 (1 # 2) 1 1 Hc); lia.
Defined.


(** A path down the middle column of the strip, to the ocean edge. *)
Lemma accumulate_free_surface_walks_visits_witness :
  let zero : grid Q := fun _ _ => 0%Q in
  let r := _accumulate_free_surface_walks (3, 3) [[1; 4; 7; 0]] [0] strip_cell_type
             zero zero zero zero 1 1 1 0 (1 # 1000) in
  let acc := default (zero, zero) r in
  r = Some acc
  /\ Qeq (acc.1 1 1)
         (inject_Z (Z.of_nat (visit_count (3, 3) strip_cell_type [0] 0
                                [[1; 4; 7; 0]] (1, 1)))).
Proof.
  intros zero r acc.
  assert (r = Some acc) as Hr by (unfold acc; is_some).
  split; [exact Hr|].
  destruct (accumulate_free_surface_walks_visits (3, 3) [0] strip_cell_type
              zero zero zero zero 1 1 1 0 (1 # 1000) [[1; 4; 7; 0]] acc 1 1 Hr)
    as (H & _).
  exact H.
Defined.



(** The channel model after its parcel has walked down the middle column
    to the ocean edge. *)
Lemma compute_free_surface_first_iteration_witness :
  let s := set_free_surf_walk_indices [[1; 4; 7; 10; 0; 0; 0]] channel_state in
  let r := compute_free_surface channel_config s in
  let s' := default s r in
  _time_iter channel_config <= 0 /\ r = Some s'
  /\ stage s' 1 1 = stage (flooding_correction channel_config s) 1 1
  /\ depth s' = depth s.
Proof.
  intros s r s'.
  assert (_time_iter channel_config <= 0) as Ht by (vm_compute; discriminate).
  assert (r = Some s') as Hr by (unfold s'; is_some).
  split; [exact Ht|]. split; [exact Hr|].
  destruct (compute_free_surface_first_iteration channel_config s s' Ht Hr)
    as (H1 & H2).
  split; [apply H1 | exact H2].
Defined.

(** The parcel of the channel model starts on cell 1. *)
Lemma run_water_iteration_seeds_once_witness :
  let r := water_loop_init unit start1 no_weights flat_weights channel_config
             channel_state tt in
  let ls0 := {| ls_self := channel_state; current_inds := []; _step := 0;
                ls_rng := tt |} in
  let ls := default ls0 r in
  r = Some ls /\ in_grid channel_config 0 1
  /\ Forall (fun k => 0 <= k)
       (start1 (inlet channel_config) (replicate (length (inlet channel_config)) 1)
          (_Np_water channel_config) tt).1
  /\ current_inds unit ls = [1].
Proof.
  intros r ls0 ls.
  assert (r = Some ls) as Hr by (unfold ls; is_some).
  assert (in_grid channel_config 0 1) as Hg by (vm_compute; repeat split; discriminate).
  assert (Forall (fun k => 0 <= k)
            (start1 (inlet channel_config)
               (replicate (length (inlet channel_config)) 1)
               (_Np_water channel_config) tt).1) as Hp.
  { repeat constructor. vm_compute. discriminate. }
  split; [exact Hr|]. split; [exact Hg|]. split; [exact Hp|].
  destruct (run_water_iteration_seeds_once start1 no_weights flat_weights
              channel_config channel_state tt ls 0 1 Hr Hg Hp) as (H & _).
  exact H.
Defined.

(** The basin model at a later iteration: no cell of it is dry. *)
Lemma finalize_free_surface_relaxes_witness :
  let c := config 2 2 [[0; 0]; [0; 0]]%Q [[0; 0]; [0; 0]] (1 # 10) 1 (9 # 10) 1 in
  0 < _time_iter c /\ ((0, 0) ∉ shore_ind c basin_state)
  /\ stage (finalize_free_surface c basin_state) 0 0 =
     ((1 - _omega_sfc c) * stage basin_state 0%Z 0%Z
      + _omega_sfc c * smoothed_surface c basin_state 0%Z 0%Z)%Q.
Proof.
  intros c.
  assert (0 < _time_iter c) as Ht by reflexivity.
  assert ((0, 0) ∉ shore_ind c basin_state) as Hn.
  { intros H. vm_compute in H. inversion H. }
  split; [exact Ht|]. split; [exact Hn|].
  apply (finalize_free_surface_relaxes c basin_state 0 0 Ht Hn).
Defined.
End MoreWitnesses.

Section PreprocessorWitnesses.

Import Preprocessor.

(** A YAML file that asks for five timesteps, and an argument of two; the
    model is a counter of its updates. *)
Lemma Preprocessor_timesteps_witness :
  let yaml := fun _ : unit => {| is_dict := true; has_matrix_key := false;
                                 timesteps_entry := Some (Some 5) |} in
  let r := Preprocessor.Preprocessor unit (fun _ => true) yaml nat (fun _ => O)
             (Some tt) (Some 2) in
  let self := match r with inr v => v | inl _ => no_attributes unit nat end in
  r = inr self
  /\ exists job,
       job_list unit nat self = Some [job] /\ job_timesteps nat job = 5.
Proof.
  intros yaml r self.
  assert (r = inr self) as Hr by reflexivity.
  split; [exact Hr|].
  destruct (Preprocessor_timesteps (fun _ => true) yaml (fun _ => O) (Some tt)
              (Some 2) self Hr) as (job & Hj & Ht & _).
  exists job. split; [exact Hj | exact Ht].
Defined.


(** An input file that is empty: its YAML is [None], no dictionary. *)
Lemma Preprocessor_raises_witness :
  let yaml := fun _ : unit => {| is_dict := false; has_matrix_key := false;
                                 timesteps_entry := None |} in
  Preprocessor.Preprocessor unit (fun _ => true) yaml nat (fun _ => O)
    (Some tt) (Some 2) = inl AttributeError.
Proof.
  intros yaml.
  destruct (Preprocessor_raises (fun _ => true) yaml (fun _ => O) (Some tt) (Some 2))
    as (H & _).
  apply H. split; reflexivity.
Defined.

End PreprocessorWitnesses.
